(** * World simulation backend: the tick engine, embedded and verified

    A shallow embedding of the state-mutation rules ([engine/worldState.js]),
    the metrics and termination logic ([engine/metrics.js]), the action
    resolver ([engine/eventResolver.js]), the decision collection of the agent
    manager with its API client, the tick logger and the tick orchestrator,
    followed by the read-only helpers of the world state, the validation of
    [db/models.js], the stability metrics and the summary of the report.

    Modelling conventions.
    - A JavaScript number that holds a statistic, a delta or a tension is a
      rational [Q]: the arithmetic of the source ([+], [*], [Math.min],
      [Math.max], comparisons) is exact on rationals, so [0.7] is [7/10].
      Rounding of IEEE doubles is outside the model.  Equalities between
      computed numbers are stated with [==] where two different expressions
      are compared.
    - [tick] and [year] are integers ([Z]).
    - A JavaScript object used as a dictionary and only read and written by
      key ([country.tensions]) is a [gmap] from strings to its own
      properties; an object that is iterated with [Object.entries] (the
      delta and tension-delta mappings) is an association list of its own
      properties in iteration order.
    - [countries.find(c => c.id === k)] followed by a mutation of the
      object found is [withCountry]: the first country whose id is [k] is
      rewritten in place, and nothing happens when there is none.
    - A property that may be [undefined] is an [option].
    - Objects are plain objects over the [Object.prototype] of the language:
      a lookup [obj[k]] that finds no own property [k] reads the property
      that the object inherits when [k] is one of [inheritedNames], a
      function or, for [__proto__], an object.  Such a value is no number;
      arithmetic on it gives [NaN], which is part of the model where the
      source stores or compares it (a tension cell, the comparator of the
      sort).  [Object.prototype] itself is taken as the language defines
      it: a write of the resolver that lands on an inherited object changes
      no accumulator and is not followed further. *)

From Stdlib Require Import QArith Qminmax Qround Qabs Qpower ZArith Lia Lqa.
From Stdlib Require Import Sorting.Sorted Sorting.Permutation.
From stdpp Require Import gmap strings list.

Local Open Scope string_scope.
Local Open Scope list_scope.

(** ** db/models.js *)

Module Models.

(** [clampValue(value, min = 0, max = 100)] is
    [Math.max(min, Math.min(max, value))]. *)
Definition clampValue (value lo hi : Q) : Q := Qmax lo (Qmin hi value).

End Models.

(** Strict comparison of two numbers, [a < b] of the source. *)
Definition Qltb (a b : Q) : bool := negb (Qle_bool b a).

(** [x || 0] on a possibly missing number. *)
Definition orZero (o : option Q) : Q := default 0%Q o.

(** The property names of [Object.prototype]. *)
Definition inheritedNames : list string :=
  [ "constructor"; "__defineGetter__"; "__defineSetter__"; "hasOwnProperty";
    "__lookupGetter__"; "__lookupSetter__"; "isPrototypeOf";
    "propertyIsEnumerable"; "toString"; "valueOf"; "__proto__";
    "toLocaleString" ].

(** [k] names a property that an object without an own [k] inherits. *)
Definition inherited (k : string) : bool :=
  existsb (String.eqb k) inheritedNames.

(** ** engine/worldState.js *)

Module WorldState.
Import Models.

(** What a tension cell holds: a number or [NaN].  The [null] that the
    deep clone of [applyChanges] makes of a [NaN] is read by the engine as
    [NaN] is ([null || 0] is 0, [null < 0] is false) and is the same
    value here. *)
Inductive num := Fin (q : Q) | NaN.

(** One entry of the per-country delta mapping:
    [{ power, stability, technology, resources, population }], each of
    which may be absent. *)
Record deltas := mkDeltas {
  dpower : option Q;
  dstability : option Q;
  dtechnology : option Q;
  dresources : option Q;
  dpopulation : option Q
}.

Definition noDeltas : deltas := mkDeltas None None None None None.

(** The per-country delta mapping, in [Object.entries] order. *)
Definition changes := list (string * deltas).

(** The per-actor tension-delta mapping:
    [{ actorId: { targetId: delta } }], in [Object.entries] order. *)
Definition tensionChanges := list (string * list (string * Q)).

Record country := mkCountry {
  cid : string;
  name : string;
  ideology : string;
  power : Q;
  stability : Q;
  technology : Q;
  population : Q;
  resources : Q;
  alliances : list string;
  tensions : gmap string num;
  history : list string;
  collapsing : bool
}.

(** An entry of [globalEvents].  [stabilityIndex] is the property that
    [shouldTerminate] reads from a log entry; it is [None] on an object that
    does not carry it. *)
Record event := mkEvent {
  type : string;
  actors : list string;
  description : string;
  impact : changes;
  success : option bool;
  etick : Z;
  eyear : Z;
  stabilityIndex : option Q
}.

Record worldState := mkWorldState {
  tick : Z;
  year : Z;
  countries : list country;
  globalEvents : list event;
  status : string
}.

Definition setCountries (ws : worldState) (cs : list country) : worldState :=
  mkWorldState (tick ws) (year ws) cs (globalEvents ws) (status ws).

Definition setGlobalEvents (ws : worldState) (es : list event) : worldState :=
  mkWorldState (tick ws) (year ws) (countries ws) es (status ws).

(** [countries.find(c => c.id === k)]. *)
Definition findCountry (k : string) (cs : list country) : option country :=
  List.find (fun c => String.eqb (cid c) k) cs.

(** Mutation of the object returned by [find]: the first country with id
    [k] becomes [f c]; no country with that id, no change. *)
Fixpoint updCountry (k : string) (f : country -> country) (cs : list country)
  : list country :=
  match cs with
  | [] => []
  | c :: rest =>
      if String.eqb (cid c) k then f c :: rest
      else c :: updCountry k f rest
  end.

Definition withCountry (k : string) (f : country -> country) (ws : worldState)
  : worldState :=
  setCountries ws (updCountry k f (countries ws)).

(** The body of the loop of [applyChanges] for one country found. *)
Definition applyDeltas (d : deltas) (c : country) : country :=
  let power1 :=
    match dpower d with
    | Some v => clampValue (power c + v) 0 100
    | None => power c
    end in
  let stability1 :=
    match dstability d with
    | Some v => clampValue (stability c + v) 0 100
    | None => stability c
    end in
  let technology1 :=
    match dtechnology d with
    | Some v => clampValue (technology c + v) 0 100
    | None => technology c
    end in
  let resources1 :=
    match dresources d with
    | Some v => clampValue (resources c + v) 0 100
    | None => resources c
    end in
  let population1 :=
    match dpopulation d with
    | Some v => Qmax 0 (population c + v)
    | None => population c
    end in
  let collapsing1 :=
    if Qltb stability1 20 && Qltb power1 30 then true else false in
  let power2 :=
    if Qltb stability1 5 then Qmin power1 20 else power1 in
  mkCountry (cid c) (name c) (ideology c) power2 stability1 technology1
    population1 resources1 (alliances c) (tensions c) (history c) collapsing1.

(** [applyChanges(worldState, changes)]: the deep clone is the identity on
    values; each entry of [changes] rewrites the country it addresses. *)
Definition applyChanges (ws : worldState) (ch : changes) : worldState :=
  fold_left (fun st e => withCountry (fst e) (applyDeltas (snd e)) st) ch ws.

Definition setTensions (c : country) (ts : gmap string num) : country :=
  mkCountry (cid c) (name c) (ideology c) (power c) (stability c)
    (technology c) (population c) (resources c) (alliances c) ts
    (history c) (collapsing c).

(** [country.tensions[k] || 0].  An own cell gives its number, 0 when it
    holds [NaN]; without an own cell, an inherited name gives the inherited
    function or object, which is truthy and no number ([NaN] here: the sum
    with the delta is a string, which [Math.min] turns into [NaN]), and any
    other name gives [undefined], hence 0. *)
Definition currentTension (k : string) (c : country) : num :=
  match tensions c !! k with
  | Some (Fin q) => Fin q
  | Some NaN => Fin 0
  | None => if inherited k then NaN else Fin 0
  end.

(** [clampValue(currentTension + d, -100, 100)]. *)
Definition bumped (k : string) (d : Q) (c : country) : num :=
  match currentTension k c with
  | Fin q => Fin (clampValue (q + d) (-100) 100)
  | NaN => NaN
  end.

(** [country.tensions[k] = clampValue((country.tensions[k] || 0) + d, -100, 100)].
    The assignment creates or updates the own cell [k]; on an object
    without an own [__proto__] the assignment to that name goes to the
    inherited setter, which ignores a value that is no object and stores
    nothing. *)
Definition bumpTension (k : string) (d : Q) (c : country) : country :=
  match tensions c !! k with
  | None =>
      if String.eqb k "__proto__" then c
      else setTensions c (<[k := bumped k d c]> (tensions c))
  | Some _ => setTensions c (<[k := bumped k d c]> (tensions c))
  end.

(** The body of the inner loop of [applyTensionChanges] for one
    [(targetId, delta)] entry of the actor [countryId]: the actor's cell for
    the target is updated, then, when the target exists, the target's cell
    for the actor is updated by [delta * 0.7] on the state just written. *)
Definition applyTensionEntry (countryId targetId : string) (delta : Q)
  (ws : worldState) : worldState :=
  let ws1 := withCountry countryId (bumpTension targetId delta) ws in
  let reciprocalDelta := (delta * 0.7)%Q in
  withCountry targetId (bumpTension countryId reciprocalDelta) ws1.

Definition applyTensionChanges (ws : worldState) (tc : tensionChanges)
  : worldState :=
  fold_left
    (fun st e =>
       match findCountry (fst e) (countries st) with
       | None => st
       | Some _ =>
           fold_left
             (fun st' t => applyTensionEntry (fst e) (fst t) (snd t) st')
             (snd e) st
       end)
    tc ws.

(** [arr.slice(-n)]: the last [n] elements, the whole array when it is
    shorter. *)
Definition lastN {A : Type} (n : nat) (l : list A) : list A :=
  skipn (length l - n) l.

(** [arr.push(x)] followed by the truncation to the last [n] entries when
    the length exceeds [n]. *)
Definition pushBounded {A : Type} (n : nat) (l : list A) (x : A) : list A :=
  let l' := l ++ [x] in
  if (n <? length l')%nat then lastN n l' else l'.

Definition stampEvent (ws : worldState) (e : event) : event :=
  mkEvent (type e) (actors e) (description e) (impact e) (success e)
    (tick ws) (year ws) (stabilityIndex e).

Definition addEvent (ws : worldState) (e : event) : worldState :=
  setGlobalEvents ws (pushBounded 100 (globalEvents ws) (stampEvent ws e)).

Definition pushHistory (entry : string) (c : country) : country :=
  mkCountry (cid c) (name c) (ideology c) (power c) (stability c)
    (technology c) (population c) (resources c) (alliances c) (tensions c)
    (pushBounded 10 (history c) entry) (collapsing c).

Definition addCountryHistory (ws : worldState) (countryId : string)
  (historyEntry : string) : worldState :=
  withCountry countryId (pushHistory historyEntry) ws.

Definition setAlliances (c : country) (al : list string) : country :=
  mkCountry (cid c) (name c) (ideology c) (power c) (stability c)
    (technology c) (population c) (resources c) al (tensions c)
    (history c) (collapsing c).

(** [arr.includes(k)]. *)
Definition includes (k : string) (l : list string) : bool :=
  existsb (String.eqb k) l.

(** [if (!c.alliances.includes(k)) c.alliances.push(k)]. *)
Definition addAlly (k : string) (c : country) : country :=
  if includes k (alliances c) then c else setAlliances c (alliances c ++ [k]).

(** [c.alliances = c.alliances.filter(id => id !== k)]. *)
Definition dropAlly (k : string) (c : country) : country :=
  setAlliances c (List.filter (fun i => negb (String.eqb i k)) (alliances c)).

Definition updateAlliances (ws : worldState) (country1Id country2Id : string)
  (action : string) : worldState :=
  match findCountry country1Id (countries ws),
        findCountry country2Id (countries ws) with
  | Some _, Some _ =>
      if String.eqb action "FORM" then
        withCountry country2Id (addAlly country1Id)
          (withCountry country1Id (addAlly country2Id) ws)
      else if String.eqb action "BREAK" then
        withCountry country2Id (dropAlly country1Id)
          (withCountry country1Id (dropAlly country2Id) ws)
      else ws
  | _, _ => ws
  end.

End WorldState.

(** ** engine/metrics.js *)

Module Metrics.
Import WorldState.

Inductive reason := TIME_LIMIT | HEGEMONY | TOTAL_COLLAPSE | PERFECT_ORDER.

(** The object returned by [shouldTerminate], without its message. *)
Record termination := mkTermination {
  terminate : bool;
  why : option reason
}.

Definition stop (r : reason) : termination := mkTermination true (Some r).
Definition goOn : termination := mkTermination false None.

(** [c.power > 50 && c.stability > 30]. *)
Definition powerful (c : country) : bool :=
  Qltb 50 (power c) && Qltb 30 (stability c).

(** [c.stability > 20]. *)
Definition surviving (c : country) : bool := Qltb 20 (stability c).

(** [globalEvents.slice(-20).filter(e => e.type === 'TICK_SUMMARY')
      .map(e => e.stabilityIndex || 0)]. *)
Definition recentStability (ws : worldState) : list Q :=
  List.map (fun e => orZero (stabilityIndex e))
    (List.filter (fun e => String.eqb (type e) "TICK_SUMMARY")
       (lastN 20 (globalEvents ws))).

(** Condition 4 of [shouldTerminate]. *)
Definition perfectOrder (ws : worldState) : bool :=
  (20 <=? length (recentStability ws))%nat
  && forallb (fun s => Qle_bool 95 s) (recentStability ws).

Definition shouldTerminate (ws : worldState) (maxYears : Z) : termination :=
  if (maxYears <=? year ws)%Z then stop TIME_LIMIT
  else
    let powerfulNations := List.filter powerful (countries ws) in
    if (length powerfulNations =? 1)%nat && (1 <? length (countries ws))%nat
    then stop HEGEMONY
    else
      let survivingNations := List.filter surviving (countries ws) in
      if (length survivingNations =? 0)%nat then stop TOTAL_COLLAPSE
      else if perfectOrder ws then stop PERFECT_ORDER
      else goOn.

End Metrics.

(** ** engine/metrics.js: generateRandomEvent

    The three calls of [Math.random()] that one evaluation can make are
    inputs: the 10% gate, the choice of the event class, the choice of the
    country. *)

Module RandomEvents.
Import WorldState.

Record draws := mkDraws { gate : Q; classDraw : Q; countryDraw : Q }.

(** [arr[Math.floor(r * arr.length)]]. *)
Definition pick {A : Type} (r : Q) (l : list A) : option A :=
  let i := Qfloor (r * inject_Z (Z.of_nat (length l))) in
  if (i <? 0)%Z then None else nth_error l (Z.to_nat i).

Definition delta3 (p s t r : option Q) : deltas := mkDeltas p s t r None.

Definition impactEvent (ty : string) (c : country) (text : string)
  (d : deltas) : event :=
  mkEvent ty [cid c] text [(cid c, d)] None 0 0 None.

(** What the four [description] closures build.  [None] at the outer level
    is the [TypeError] of reading [.id] of [undefined]; [Some None] is the
    [null] of an uprising without a candidate. *)
Definition describe (ws : worldState) (class : Z) (r : Q)
  : option (option event) :=
  if (class =? 0)%Z then
    match pick r (countries ws) with
    | None => None
    | Some victim =>
        Some (Some (impactEvent "NATURAL_DISASTER" victim
          ("A catastrophic natural disaster strikes " +:+ name victim
             +:+ ", devastating infrastructure and economy")
          (delta3 (Some (-10)%Q) (Some (-15)%Q) None (Some (-20)%Q))))
    end
  else if (class =? 1)%Z then
    match pick r (countries ws) with
    | None => None
    | Some beneficiary =>
        Some (Some (impactEvent "INNOVATION" beneficiary
          ("Scientists in " +:+ name beneficiary
             +:+ " achieve a major technological breakthrough, advancing their capabilities")
          (delta3 (Some 10%Q) None (Some 15%Q) None)))
    end
  else if (class =? 2)%Z then
    let unstableCountries :=
      List.filter (fun c => Qltb (stability c) 60) (countries ws) in
    match unstableCountries with
    | [] => Some None
    | _ =>
        match pick r unstableCountries with
        | None => None
        | Some victim =>
            Some (Some (impactEvent "REBELLION" victim
              ("Popular uprising in " +:+ name victim
                 +:+ "! Citizens demand change and challenge government authority")
              (delta3 (Some (-15)%Q) (Some (-25)%Q) None None)))
        end
    end
  else if (class =? 3)%Z then
    match pick r (countries ws) with
    | None => None
    | Some lucky =>
        Some (Some (impactEvent "RESOURCE_DISCOVERY" lucky
          ("Major resource deposits discovered in " +:+ name lucky
             +:+ ", boosting their economic potential")
          (delta3 (Some 5%Q) None None (Some 20%Q))))
    end
  else None.

Definition generateRandomEvent (ws : worldState) (tk : Z) (rnd : draws)
  : option (option event) :=
  if Qltb (1 # 10) (gate rnd) then Some None
  else
    match describe ws (Qfloor (classDraw rnd * 4)) (countryDraw rnd) with
    | None => None
    | Some None => Some None
    | Some (Some e) =>
        Some (Some (mkEvent (type e) (actors e) (description e) (impact e)
                      (success e) tk (year ws) (stabilityIndex e)))
    end.

End RandomEvents.

(** ** agents/geminiClient.js *)

Module GeminiClient.

(** What [call] resolves to.  [error] is [Some] exactly when [result.error]
    is truthy; [body] is the rest of the object. *)
Record callResult (A : Type) := mkCallResult {
  error : option string;
  shouldRetry : bool;
  body : A
}.
Arguments mkCallResult {A}.
Arguments error {A}.
Arguments shouldRetry {A}.
Arguments body {A}.

Inductive outcome (A : Type) :=
| Returned (r : callResult A)
| Thrown (msg : string).
Arguments Returned {A}.
Arguments Thrown {A}.

(** The loop of [callWithRetry] from attempt [i] with [remaining] attempts
    left; [call i] is what the [i]-th call of [this.call] resolves to. *)
Fixpoint retryFrom {A : Type} (call : nat -> callResult A)
  (i remaining : nat) : outcome A :=
  match remaining with
  | O => Thrown "Max retries reached for Gemini API call"
  | S k =>
      let result := call i in
      match error result with
      | None => Returned result
      | Some e =>
          if shouldRetry result then retryFrom call (S i) k else Thrown e
      end
  end.

Definition callWithRetry {A : Type} (call : nat -> callResult A)
  (maxRetries : nat) : outcome A :=
  retryFrom call 0 maxRetries.

End GeminiClient.

(** ** agents/agentManager.js *)

Module AgentManager.
Import WorldState GeminiClient.

(** An entry of [config.agents]; [countryId] is [null] for neutral agents. *)
Record agentConfig := mkAgent {
  aid : string;
  role : string;
  countryId : option string;
  apiKey : string
}.

(** The JSON a leader answers with: the fields the leader prompt asks for
    and read again by the engine, and the [agentId] and [actorId] that the
    answer may carry as well. *)
Record decisionBody := mkBody {
  bAction : string;
  bSpecificAction : string;
  bTarget : option string;
  bAgentId : option string;
  bActorId : option string
}.

Record decision := mkDecision {
  agentId : string;
  actorId : string;
  action : string;
  specificAction : string;
  target : option string
}.

(** The JSON the resolver answers with, in the shape that the resolution
    prompt asks for: [changes] maps country ids to objects of stat deltas,
    [newTensions] maps country ids to numbers. *)
Record resolution := mkResolution {
  rsuccess : bool;
  rsuccessLevel : string;
  rchanges : changes;
  rdescription : string;
  rnewTensions : list (string * Q)
}.

(** What the overseer answers with; only [stabilityIndex] is read again. *)
Record analysis := mkAnalysis {
  aStabilityIndex : option Q;
  explanation : string
}.

(** The safe default decision of [collectDecisions]. *)
Definition fallbackDecision (agent country : string) : decision :=
  mkDecision agent country "INTERNAL" "stabilize" None.

(** [country.stability < 10 && country.power < 10]. *)
Definition collapsed (c : country) : bool :=
  Qltb (stability c) 10 && Qltb (power c) 10.

(** The body of the loop of [collectDecisions] for one client: the
    decisions it pushes.  An answer is pushed as
    [{ agentId, actorId: config.countryId, apiKey, ...decision }]: the
    fields of the answer come last and override those of the client. *)
Definition collectOne (leaderCall : string -> nat -> callResult decisionBody)
  (ws : worldState) (cfg : agentConfig) : list decision :=
  if negb (String.eqb (role cfg) "LEADER") then []
  else
    match countryId cfg with
    | None => []
    | Some k =>
        match findCountry k (countries ws) with
        | None => []
        | Some c =>
            if collapsed c then []
            else
              match callWithRetry (leaderCall (aid cfg)) 3 with
              | Returned d =>
                  match error d with
                  | Some _ => [fallbackDecision (aid cfg) k]
                  | None =>
                      [mkDecision (default (aid cfg) (bAgentId (body d)))
                         (default k (bActorId (body d)))
                         (bAction (body d)) (bSpecificAction (body d))
                         (bTarget (body d))]
                  end
              | Thrown _ => []
              end
        end
    end.

Definition collectDecisions (clients : list agentConfig)
  (leaderCall : string -> nat -> callResult decisionBody)
  (ws : worldState) : list decision :=
  flat_map (collectOne leaderCall ws) clients.

Definition fallbackAnalysis (text : string) : analysis :=
  mkAnalysis (Some 50%Q) text.

Definition getOverseerAnalysis (clients : list agentConfig)
  (overseerCall : nat -> callResult analysis) : analysis :=
  match List.find (fun a => String.eqb (aid a) "overseer") clients with
  | None => fallbackAnalysis "No overseer analysis available"
  | Some _ =>
      match callWithRetry overseerCall 3 with
      | Returned r =>
          match error r with
          | Some _ => fallbackAnalysis "Overseer analysis failed"
          | None => body r
          end
      | Thrown _ => fallbackAnalysis "Overseer analysis failed"
      end
  end.

Definition defaultResolution (msg : string) : resolution :=
  mkResolution false "FAILURE" []
    ("Action failed due to unforeseen circumstances: " +:+ msg) [].

(** [resolveAction(decision, worldState, actorConfig)]: the client is
    built from the key of the actor's configuration, and the constructor
    throws on an empty key; every throw ends in the default resolution. *)
Definition resolveAction (actorConfig : agentConfig)
  (resolverCall : nat -> callResult resolution) : resolution :=
  if String.eqb (apiKey actorConfig) "" then
    defaultResolution "Gemini API key is required"
  else
    match callWithRetry resolverCall 3 with
    | Returned r =>
        match error r with
        | Some e => defaultResolution e
        | None => body r
        end
    | Thrown e => defaultResolution e
    end.

End AgentManager.

(** ** engine/eventResolver.js *)

Module EventResolver.
Import WorldState AgentManager.

(** [Array.prototype.sort(cmp)]: the language guarantees a stable sort;
    it is modelled by the stable insertion sort.  [x] goes before the first
    element that does not compare below it.  For a comparator that is a
    consistent order every stable sort returns the same array.  For one
    that is not, the language leaves the order to the implementation and
    only promises a rearrangement of the input; the insertion sort then
    stands for one implementation. *)
Fixpoint insertBy {A : Type} (cmp : A -> A -> Z) (x : A) (l : list A)
  : list A :=
  match l with
  | [] => [x]
  | y :: rest =>
      if (cmp x y <=? 0)%Z then x :: y :: rest
      else y :: insertBy cmp x rest
  end.

Definition sortBy {A : Type} (cmp : A -> A -> Z) (l : list A) : list A :=
  fold_right (insertBy cmp) [] l.

(** [priority[action] || 99]: the number of one of the four keys of the
    table, 99 for a name the table neither holds nor inherits, and [None]
    for an inherited name, which reads a function and not a number. *)
Definition priority (a : string) : option Z :=
  if String.eqb a "MILITARY" then Some 1%Z
  else if String.eqb a "DIPLOMACY" then Some 2%Z
  else if String.eqb a "ESPIONAGE" then Some 3%Z
  else if String.eqb a "INTERNAL" then Some 4%Z
  else if inherited a then None
  else Some 99%Z.

(** The comparator [(a, b) => (priority[a.action] || 99) - (priority[b.action] || 99)]
    as the sort reads it: a difference with a function is [NaN], and the
    sort takes a comparator value of [NaN] as 0. *)
Definition compareActions (a b : decision) : Z :=
  match priority (action a), priority (action b) with
  | Some x, Some y => (x - y)%Z
  | _, _ => 0%Z
  end.

Definition prioritizeActions (decisions : list decision) : list decision :=
  sortBy compareActions decisions.

(** The type of an event is a string in every record of the model.  When
    the lookup [mapping[specificAction]] reads an inherited function, the
    type of the event is that function; it stands here as a marker that
    names the property, which like the function equals none of the type
    literals that the engine compares with. *)
Definition inheritedValue (k : string) : string := "[inherited " +:+ k +:+ "]".

(** [mapping[specificAction] || action]. *)
Definition mapActionToEventType (act specific : string) : string :=
  if String.eqb specific "declare_war" then "WAR"
  else if String.eqb specific "ceasefire" then "PEACE"
  else if String.eqb specific "form_alliance" then "ALLIANCE"
  else if String.eqb specific "break_alliance" then "ALLIANCE_BROKEN"
  else if String.eqb specific "invest_technology" then "INNOVATION"
  else if String.eqb specific "stabilize" then "INTERNAL_REFORM"
  else if String.eqb specific "reform_policy" then "REFORM"
  else if String.eqb specific "sabotage" then "ESPIONAGE"
  else if String.eqb specific "steal_technology" then "ESPIONAGE"
  else if String.eqb specific "gather_intel" then "INTELLIGENCE"
  else if inherited specific then inheritedValue specific
  else act.

(** [updateAlliances] called with [decision.target]: a [null] target names
    no country, so the guard of [updateAlliances] returns the state. *)
Definition updateAlliancesWith (ws : worldState) (actor : string)
  (tgt : option string) (act : string) : worldState :=
  match tgt with
  | None => ws
  | Some t => updateAlliances ws actor t act
  end.

(** The state effect of [handleSpecialActions]; the war branch only
    prints. *)
Definition handleSpecialActions (ws : worldState) (d : decision)
  (r : resolution) : worldState :=
  if String.eqb (specificAction d) "form_alliance" && rsuccess r then
    updateAlliancesWith ws (actorId d) (target d) "FORM"
  else if String.eqb (specificAction d) "break_alliance" then
    updateAlliancesWith ws (actorId d) (target d) "BREAK"
  else ws.

(** Insertion or update of the entry for key [k] of an object, in
    insertion order. *)
Fixpoint upsert {V : Type} (k : string) (f : option V -> V)
  (l : list (string * V)) : list (string * V) :=
  match l with
  | [] => [(k, f None)]
  | (k', v) :: rest =>
      if String.eqb k' k then (k', f (Some v)) :: rest
      else (k', v) :: upsert k f rest
  end.

(** [acc[stat] = (acc[stat] || 0) + value] for a stat the entry holds. *)
Definition addStat (acc v : option Q) : option Q :=
  match v with
  | None => acc
  | Some x => Some (orZero acc + x)%Q
  end.

Definition mergeDeltas (acc d : deltas) : deltas :=
  mkDeltas (addStat (dpower acc) (dpower d))
    (addStat (dstability acc) (dstability d))
    (addStat (dtechnology acc) (dtechnology d))
    (addStat (dresources acc) (dresources d))
    (addStat (dpopulation acc) (dpopulation d)).

(** The loop that merges [resolution.changes] into [allChanges].  The
    accumulator starts empty and gets an own entry only for a key it does
    not inherit: for an inherited key [allChanges[countryId]] is the
    inherited object, the sums are written on that object and the
    accumulator stays as it is. *)
Definition mergeChanges (allChanges new : changes) : changes :=
  fold_left
    (fun acc e =>
       if inherited (fst e) then acc
       else upsert (fst e)
              (fun o => mergeDeltas (default noDeltas o) (snd e)) acc)
    new allChanges.

(** The loop that merges [resolution.newTensions] into
    [allTensionChanges[decision.actorId]].  An actor id that is an
    inherited name gets no own entry, as above.  Otherwise the entry of the
    actor is created when missing and the target is assigned, except that
    the assignment to [__proto__] stores nothing on the entry. *)
Definition mergeTensions (all : tensionChanges) (actor : string)
  (new : list (string * Q)) : tensionChanges :=
  fold_left
    (fun acc e =>
       if inherited actor then acc
       else upsert actor
              (fun o =>
                 if String.eqb (fst e) "__proto__" then default [] o
                 else upsert (fst e) (fun _ => snd e) (default [] o))
              acc)
    new all.

(** [[decision.actorId, decision.target].filter(Boolean)]. *)
Definition actorsOf (d : decision) : list string :=
  List.filter (fun s => negb (String.eqb s ""))
    (actorId d :: match target d with Some t => [t] | None => [] end).

(** What the lookup of the actor's configuration gives: the database
    rejects, there is no entry, or the entry. *)
Inductive lookup := Rejected (msg : string) | Fetched (cfg : option agentConfig).

Record resolved := mkResolved {
  events : list event;
  allChanges : changes;
  allTensionChanges : tensionChanges;
  world : worldState
}.

Definition failedAction (d : decision) : event :=
  mkEvent "FAILED_ACTION" [actorId d]
    (actorId d +:+ "'s attempt to " +:+ specificAction d
       +:+ " failed unexpectedly")
    [] (Some false) 0 0 None.

(** The body of the loop of [resolveActions] for one decision.  The
    event is built without [tick] and [year] (0 here); [addEvent] stamps
    them.  A rejected lookup is the error that the [catch] turns into a
    FAILED_ACTION event.  On an answer of the shape of [resolution] nothing
    after the lookup throws: [resolveAction] catches its own errors, and the
    two merges and [handleSpecialActions] read objects and arrays only. *)
Definition resolveOne (getActorConfig : string -> lookup)
  (resolverCall : decision -> nat -> GeminiClient.callResult resolution)
  (acc : resolved) (d : decision) : resolved :=
  match getActorConfig (actorId d) with
  | Rejected _ =>
      mkResolved (events acc ++ [failedAction d]) (allChanges acc)
        (allTensionChanges acc) (world acc)
  | Fetched None => acc
  | Fetched (Some actorConfig) =>
      let r := resolveAction actorConfig (resolverCall d) in
      let ev :=
        mkEvent (mapActionToEventType (action d) (specificAction d))
          (actorsOf d) (rdescription r) (rchanges r) (Some (rsuccess r))
          0 0 None in
      mkResolved (events acc ++ [ev])
        (mergeChanges (allChanges acc) (rchanges r))
        (mergeTensions (allTensionChanges acc) (actorId d) (rnewTensions r))
        (handleSpecialActions (world acc) d r)
  end.

Definition resolveActions (getActorConfig : string -> lookup)
  (resolverCall : decision -> nat -> GeminiClient.callResult resolution)
  (ws : worldState) (decisions : list decision) : resolved :=
  fold_left (resolveOne getActorConfig resolverCall)
    (prioritizeActions decisions) (mkResolved [] [] [] ws).

End EventResolver.

(** ** utils/logger.js *)

Module Logger.
Import WorldState AgentManager.

(** A document of the [event_logs] collection, with the fields the engine
    writes for every kind of entry and the [stabilityIndex] of a tick
    summary. *)
Record logEntry := mkLog {
  eventType : string;
  ltick : Z;
  lyear : Z;
  lstabilityIndex : option Q
}.

(** [x || 50]. *)
Definition orFifty (o : option Q) : Q :=
  match o with
  | Some v => if Qeq_bool v 0 then 50%Q else v
  | None => 50%Q
  end.

(** [logTick]: the insertion into [event_logs] is taken to succeed. *)
Definition logTick (logs : list logEntry) (tk yr : Z)
  (overseerInsights : analysis) : list logEntry :=
  logs ++ [mkLog "TICK_SUMMARY" tk yr
             (Some (orFifty (aStabilityIndex overseerInsights)))].

Definition logSimulationEnd (logs : list logEntry) (finalState : worldState)
  : list logEntry :=
  logs ++ [mkLog "SIMULATION_END" (tick finalState) (year finalState) None].

End Logger.

(** ** engine/simulator.js *)

Module Simulator.
Import WorldState Metrics RandomEvents AgentManager EventResolver Logger.

(** Everything one tick asks of the outside: the random draws, the answers
    of the model to each leader, to each resolution and to the overseer, and
    the lookups of the agent configuration. *)
Record oracle := mkOracle {
  rnd : draws;
  leaderCall : string -> nat -> GeminiClient.callResult decisionBody;
  getActorConfig : string -> lookup;
  resolverCall : decision -> nat -> GeminiClient.callResult resolution;
  overseerCall : nat -> GeminiClient.callResult analysis
}.

(** The simulator with what it owns in the database: the stored world
    state of the run and its [event_logs]. *)
Record simulator := mkSimulator {
  clients : list agentConfig;
  stored : worldState;
  eventLogs : list logEntry;
  isRunning : bool
}.

Definition setStatus (ws : worldState) (s : string) : worldState :=
  mkWorldState (tick ws) (year ws) (countries ws) (globalEvents ws) s.

Definition advance (ws : worldState) : worldState :=
  mkWorldState (tick ws + 1) (year ws + 1) (countries ws) (globalEvents ws)
    (status ws).

Definition pause (s : simulator) : simulator :=
  mkSimulator (clients s) (stored s) (eventLogs s) false.

(** [complete(reason)]: pause, reload, mark COMPLETED, save, log the end. *)
Definition complete (s : simulator) : simulator :=
  let ws := setStatus (stored s) "COMPLETED" in
  mkSimulator (clients s) ws (logSimulationEnd (eventLogs s) ws) false.

(** The [catch] of [executeTick]: the stored state is marked FAILED and the
    simulator pauses. *)
Definition failTick (s : simulator) : simulator :=
  mkSimulator (clients s) (setStatus (stored s) "FAILED") (eventLogs s) false.

(** Phases 2 to 10 of [executeTick], after the random event.  The
    database is taken to answer; the metrics snapshot and the commentary of
    the thinker and the strategist change nothing that the engine reads
    again and are left out. *)
Definition runPhases (o : oracle) (s : simulator) (ws1 : worldState)
  : simulator :=
  let agentDecisions := collectDecisions (clients s) (leaderCall o) ws1 in
  let res := resolveActions (getActorConfig o) (resolverCall o) ws1
               agentDecisions in
  let ws2 := applyChanges (world res) (allChanges res) in
  let ws3 := applyTensionChanges ws2 (allTensionChanges res) in
  let ws4 := fold_left addEvent (events res) ws3 in
  let overseerInsights := getOverseerAnalysis (clients s) (overseerCall o) in
  let logs := logTick (eventLogs s) (tick ws4) (year ws4) overseerInsights in
  let ws5 := advance ws4 in
  let s' := mkSimulator (clients s) ws5 logs (isRunning s) in
  if terminate (shouldTerminate ws5 1000) then complete s' else s'.

Definition executeTick (o : oracle) (s : simulator) : simulator :=
  let ws := stored s in
  if negb (String.eqb (status ws) "RUNNING") then pause s
  else
    match generateRandomEvent ws (tick ws) (rnd o) with
    | None => failTick s
    | Some None => runPhases o s ws
    | Some (Some randomEvent) =>
        runPhases o s (applyChanges (addEvent ws randomEvent)
                         (impact randomEvent))
    end.

(** The state a run is created with, and the states the tick loop reaches
    from it. *)
Definition created (agents : list agentConfig) (cs : list country)
  : simulator :=
  mkSimulator agents (mkWorldState 0 0 cs [] "RUNNING") [] true.

Inductive reachable (agents : list agentConfig) (cs : list country)
  : simulator -> Prop :=
| reach_created : reachable agents cs (created agents cs)
| reach_tick o s :
    reachable agents cs s -> reachable agents cs (executeTick o s).

Fixpoint ticks (os : list oracle) (s : simulator) : simulator :=
  match os with
  | [] => s
  | o :: rest => ticks rest (executeTick o s)
  end.

End Simulator.

(** * More of the engine *)

(** ** engine/worldState.js: the read-only helpers *)

Module WorldQueries.
Import WorldState.

(** [countries.filter(c => c.stability > 20)]. *)
Definition getSurvivingCountries (ws : worldState) : list country :=
  List.filter (fun c => Qltb 20 (stability c)) (countries ws).

(** The callback [(prev, curr) => (curr.power > prev.power) ? curr : prev]. *)
Definition stronger (prev curr : country) : country :=
  if Qltb (power prev) (power curr) then curr else prev.

(** [getDominantPower]: [null] on an empty world, else
    [countries.reduce(stronger)], which starts from the first country. *)
Definition getDominantPower (ws : worldState) : option country :=
  match countries ws with
  | [] => None
  | c :: rest => Some (fold_left stronger rest c)
  end.

End WorldQueries.

(** ** db/models.js: validateWorldState *)

Module Validation.
Import WorldState.

(** What a call does: it returns [true] or throws an [Error] with a
    message. *)
Inductive verdict := Passed | Threw (msg : string).

(** The loop over the countries: the first offending country decides, power
    before stability. *)
Fixpoint validateCountries (cs : list country) : verdict :=
  match cs with
  | [] => Passed
  | c :: rest =>
      if Qltb (power c) 0 || Qltb 100 (power c)
      then Threw ("Invalid power value for " +:+ name c)
      else if Qltb (stability c) 0 || Qltb 100 (stability c)
      then Threw ("Invalid stability value for " +:+ name c)
      else validateCountries rest
  end.

(** [validateWorldState(state)]; [simulationId] is the field of the stored
    document, falsy when it is the empty string.  [countries] is an array
    by its type. *)
Definition validateWorldState (simulationId : string) (ws : worldState)
  : verdict :=
  if String.eqb simulationId "" then Threw "Missing simulationId"
  else validateCountries (countries ws).

End Validation.

(** ** engine/metrics.js: calculateStabilityIndex *)

Module StabilityIndex.
Import Models WorldState.

(** The object returned; the empty world gets no [avgStability] and no
    [powerImbalance]. *)
Record metrics := mkMetrics {
  stabilityIndex : Z;
  ideologicalDiversity : Z;
  conflictLevel : Z;
  survivalRate : Z;
  avgStability : option Z;
  powerImbalance : option Z
}.

(** [Math.round]: the nearest integer, a half going up. *)
Definition round (x : Q) : Z := Qfloor (x + (1 # 2)).

(** [arr.length] as a number. *)
Definition count {A : Type} (l : list A) : Q := inject_Z (Z.of_nat (length l)).

(** [arr.reduce((sum, x) => sum + f(x), 0)]. *)
Definition total {A : Type} (f : A -> Q) (l : list A) : Q :=
  fold_left (fun sum x => (sum + f x)%Q) l 0%Q.

(** The values of all tension entries of all countries, country by
    country; within a country they come in the order of the map, on which
    neither the count nor (up to [==]) the sum depends. *)
Definition allTensions (cs : list country) : list num :=
  flat_map (fun c => (map_to_list (tensions c)).*2) cs.

(** The values that pass [tension < 0], which is false of [NaN]. *)
Definition negativeTensions (cs : list country) : list Q :=
  flat_map
    (fun t => match t with
              | Fin q => if Qltb q 0 then [q] else []
              | NaN => []
              end)
    (allTensions cs).

(** [new Set(countries.map(c => c.ideology)).size]. *)
Definition uniqueIdeologies (cs : list country) : nat :=
  length (nodup String.string_dec (List.map ideology cs)).

Definition avgStabilityOf (cs : list country) : Q :=
  (total stability cs / count cs)%Q.

Definition powerVariance (cs : list country) : Q :=
  let avgPower := (total power cs / count cs)%Q in
  (total (fun c => (power c - avgPower) ^ 2) cs / count cs)%Q.

Definition normalizedPowerVariance (cs : list country) : Q :=
  Qmin 100 (powerVariance cs / 400 * 100).

Definition conflictLevelOf (cs : list country) : Q :=
  let neg := negativeTensions cs in
  let avgTension :=
    if (0 <? length neg)%nat then (total Qabs neg / count neg)%Q else 0%Q in
  clampValue avgTension 0 100.

Definition ideologicalDiversityOf (cs : list country) : Q :=
  (inject_Z (Z.of_nat (uniqueIdeologies cs)) / count cs * 100)%Q.

Definition survivalRateOf (cs : list country) : Q :=
  (count (List.filter (fun c => Qltb 20 (stability c)) cs) / count cs * 100)%Q.

Definition stabilityIndexOf (cs : list country) : Q :=
  clampValue
    (avgStabilityOf cs * 0.4 + survivalRateOf cs * 0.3
     + (100 - conflictLevelOf cs) * 0.2
     + (100 - normalizedPowerVariance cs) * 0.1)
    0 100.

Definition calculateStabilityIndex (ws : worldState) : metrics :=
  let cs := countries ws in
  match cs with
  | [] => mkMetrics 0 0 0 0 None None
  | _ =>
      mkMetrics (round (stabilityIndexOf cs)) (round (ideologicalDiversityOf cs))
        (round (conflictLevelOf cs)) (round (survivalRateOf cs))
        (Some (round (avgStabilityOf cs)))
        (Some (round (normalizedPowerVariance cs)))
  end.

End StabilityIndex.

(** ** The report route of the server and the end-of-run log *)

Module Report.
Import WorldState WorldQueries Logger.

(** [['WAR', 'COLLAPSE', 'ALLIANCE', 'REBELLION', 'INNOVATION']]. *)
Definition majorTypes : list string :=
  ["WAR"; "COLLAPSE"; "ALLIANCE"; "REBELLION"; "INNOVATION"].

(** [logs.filter(l => majorTypes.includes(l.eventType))]. *)
Definition majorEvents (logs : list logEntry) : list logEntry :=
  List.filter (fun l => existsb (String.eqb (eventType l)) majorTypes) logs.




End Report.

(** * Predicates of the statements *)

Module Inv.
Import Models WorldState.

(** A rewriting of a country that leaves its id alone. *)
Definition keepsId (f : country -> country) : Prop :=
  forall c, cid (f c) = cid c.

(** The four bounded stats are in [0,100] and the population is not
    negative. *)
Definition inRange (c : country) : Prop :=
  (0 <= power c <= 100)%Q /\ (0 <= stability c <= 100)%Q /\
  (0 <= technology c <= 100)%Q /\ (0 <= resources c <= 100)%Q /\
  (0 <= population c)%Q.

Definition statsInRange (ws : worldState) : Prop :=
  Forall inRange (countries ws).

(** A tension value within [-100,100]. *)
Definition tensionOk (v : Q) : Prop := (-100 <= v <= 100)%Q.

(** The bounds of the two logs. *)
Definition historyOk (c : country) : Prop := (length (history c) <= 10)%nat.

Definition logsBounded (ws : worldState) : Prop :=
  (length (globalEvents ws) <= 100)%nat /\
  Forall historyOk (countries ws).

(** An event object without a [stabilityIndex] property, and a state whose
    log holds only such events. *)
Definition untagged (e : event) : Prop := stabilityIndex e = None.

Definition noIndex (ws : worldState) : Prop :=
  Forall untagged (globalEvents ws).

(** [k] is the id of a country of the state. *)
Definition present (k : string) (ws : worldState) : Prop :=
  exists c, findCountry k (countries ws) = Some c.

(** The power written by [applyDeltas] before the collapse ceiling: the
    additive clamp, or the old power when the entry has no power delta. *)
Definition clampedPower (d : deltas) (c : country) : Q :=
  match dpower d with
  | Some v => clampValue (power c + v) 0 100
  | None => power c
  end.

End Inv.

(** The conditions of [shouldTerminate] by name, and the statement of
    condition (d) in the words of the specification. *)

Module TerminationSpec.
Import WorldState Metrics.

(** (a) [year >= maxYears]. *)
Definition timeLimit (ws : worldState) (maxYears : Z) : bool :=
  (maxYears <=? year ws)%Z.

(** (b) exactly one country with power > 50 and stability > 30, and more
    than one country. *)
Definition hegemony (ws : worldState) : bool :=
  (length (List.filter powerful (countries ws)) =? 1)%nat
  && (1 <? length (countries ws))%nat.

(** (c) no country with stability > 20. *)
Definition totalCollapse (ws : worldState) : bool :=
  (length (List.filter surviving (countries ws)) =? 0)%nat.

(** First true wins. *)
Fixpoint firstTrue (conds : list (bool * reason)) : termination :=
  match conds with
  | [] => goOn
  | (b, r) :: rest => if b then stop r else firstTrue rest
  end.

(** The tick-summary entries of a log, oldest first. *)
Definition tickSummaries (log : list event) : list event :=
  List.filter (fun e => String.eqb (type e) "TICK_SUMMARY") log.

(** Condition (d) as the specification words it: there are at least 20
    tick-summary entries in the event log and the most recent 20 of them all
    report a stabilityIndex of at least 95. *)
Definition last20SummariesCalm (log : list event) : Prop :=
  (20 <= length (tickSummaries log))%nat
  /\ Forall (fun e => (95 <= orZero (stabilityIndex e))%Q)
       (lastN 20 (tickSummaries log)).

(** A log entry that is a tick summary reporting at least 95. *)
Definition calmSummary (e : event) : bool :=
  String.eqb (type e) "TICK_SUMMARY" && Qle_bool 95 (orZero (stabilityIndex e)).

End TerminationSpec.

(** * Concrete worlds used by the examples *)

Module Fixtures.
Import WorldState AgentManager.

(** A country with stability 3 and power 10, and a power delta of +50. *)
Definition collapsedCountry : country :=
  mkCountry "A" "Aland" "monarchy" 10 3 50 1000 50 [] ∅ [] false.

Definition collapsedWorld : worldState :=
  mkWorldState 0 0 [collapsedCountry] [] "RUNNING".

Definition powerBoost : changes :=
  [("A", mkDeltas (Some 50%Q) None None None None)].

(** Two stable countries; [A] holds a tension of 10 towards [B] and of 5
    towards itself. *)
Definition countryA : country :=
  mkCountry "A" "Aland" "monarchy" 40 80 50 1000 50 []
    (<["B" := Fin 10]> (<["A" := Fin 5]> ∅)) [] false.

Definition countryB : country :=
  mkCountry "B" "Bland" "republic" 40 80 50 1000 50 [] ∅ [] false.

Definition twoCountries : worldState :=
  mkWorldState 0 0 [countryA; countryB] [] "RUNNING".

(** A state whose two logs are full: 100 events, and ten history entries
    for [A]. *)
Definition plainEvent (ty : string) : event :=
  mkEvent ty [] "" [] None 0 0 None.

Definition chronicled : country :=
  mkCountry "A" "Aland" "monarchy" 40 80 50 1000 50 [] ∅
    ["h1"; "h2"; "h3"; "h4"; "h5"; "h6"; "h7"; "h8"; "h9"; "h10"] false.

Definition fullLogs : worldState :=
  mkWorldState 7 7 [chronicled; countryB]
    (plainEvent "FIRST" :: repeat (plainEvent "WAR") 99) "RUNNING".

(** Year 1000 with every country at stability 10. *)
Definition ruined (k : string) : country :=
  mkCountry k k "junta" 40 10 50 1000 50 [] ∅ [] false.

Definition doomed : worldState :=
  mkWorldState 1000 1000 [ruined "A"; ruined "B"] [] "RUNNING".

(** A log of twenty tick summaries that report 100, followed by one war. *)
Definition summary (si : Q) : event :=
  mkEvent "TICK_SUMMARY" [] "" [] None 0 0 (Some si).

Definition calmThenWar : worldState :=
  mkWorldState 21 21 [countryA; countryB]
    (repeat (summary 100) 20 ++ [plainEvent "WAR"]) "RUNNING".

(** Three decisions in the order INTERNAL, MILITARY, DIPLOMACY. *)
Definition dInternal : decision :=
  mkDecision "leader_0" "A" "INTERNAL" "stabilize" None.
Definition dMilitary : decision :=
  mkDecision "leader_1" "B" "MILITARY" "declare_war" (Some "A").
Definition dDiplomacy : decision :=
  mkDecision "leader_2" "C" "DIPLOMACY" "form_alliance" (Some "A").

(** [A] and [B] allied, a proposal and a breach between them, and a
    resolution that succeeded and one that failed. *)
Definition allied : worldState :=
  mkWorldState 3 3
    [setAlliances countryA ["B"]; setAlliances countryB ["A"]] [] "RUNNING".

Definition dForm : decision :=
  mkDecision "leader_0" "A" "DIPLOMACY" "form_alliance" (Some "B").
Definition dBreak : decision :=
  mkDecision "leader_0" "A" "DIPLOMACY" "break_alliance" (Some "B").

Definition succeeded : resolution :=
  mkResolution true "COMPLETE" [] "done" [].
Definition failed : resolution := defaultResolution "refused".

(** An overseer and the leaders of [A] and [B].  The model answers the
    leader of [B] with a decision; every call for the leader of [A] fails
    with an error that is not to be retried. *)
Definition agents : list agentConfig :=
  [mkAgent "overseer" "OVERSEER" None "key0";
   mkAgent "leader_0" "LEADER" (Some "A") "key1";
   mkAgent "leader_1" "LEADER" (Some "B") "key2"].

Definition stabilizeBody : decisionBody :=
  mkBody "INTERNAL" "stabilize" None None None.

Definition answered {A : Type} (b : A) : GeminiClient.callResult A :=
  GeminiClient.mkCallResult None false b.

Definition apiDown : GeminiClient.callResult decisionBody :=
  GeminiClient.mkCallResult (Some "503 Service Unavailable") false stabilizeBody.

Definition rateLimited : GeminiClient.callResult decisionBody :=
  GeminiClient.mkCallResult (Some "RATE_LIMIT") true stabilizeBody.

Definition leaderOfADown (agent : string) (attempt : nat)
  : GeminiClient.callResult decisionBody :=
  if String.eqb agent "leader_0" then apiDown else answered stabilizeBody.

Definition leaderOfALimited (agent : string) (attempt : nat)
  : GeminiClient.callResult decisionBody :=
  if String.eqb agent "leader_0" then rateLimited else answered stabilizeBody.

End Fixtures.

(** A calm run: no random event, both leaders stabilize with success, and
    the overseer reports a stability index of 100 at every tick. *)

Module CalmRun.
Import WorldState AgentManager EventResolver Logger Simulator Fixtures.

Definition calmOracle : oracle :=
  mkOracle
    (RandomEvents.mkDraws (1 # 2) 0 0)
    (fun _ _ => answered stabilizeBody)
    (fun k =>
       Fetched (List.find
                  (fun a => match countryId a with
                            | Some c => String.eqb c k
                            | None => false
                            end) agents))
    (fun _ _ => answered succeeded)
    (fun _ => answered (mkAnalysis (Some 100%Q) "calm")).

Definition calmStart : simulator := created agents [countryA; countryB].

Definition calmRun : simulator := ticks (repeat calmOracle 20) calmStart.

(** The tick summaries of the [event_logs] collection, oldest first. *)
Definition loggedSummaries (s : simulator) : list logEntry :=
  List.filter (fun l => String.eqb (eventType l) "TICK_SUMMARY") (eventLogs s).

End CalmRun.

(** * Predicates of the further properties *)

Module Laws.
Import Models WorldState Inv.

(** What a rewriting of countries leaves alone: the counters, the log, the
    status, and the ids of the countries in their order. *)
Definition sameFrame (ws ws' : worldState) : Prop :=
  tick ws' = tick ws /\ year ws' = year ws
  /\ globalEvents ws' = globalEvents ws /\ status ws' = status ws
  /\ List.map cid (countries ws') = List.map cid (countries ws).

(** The alliance relation is symmetric between the countries that [find]
    reaches by id. *)
Definition alliesSymmetric (ws : worldState) : Prop :=
  forall x y cx cy,
    findCountry x (countries ws) = Some cx ->
    findCountry y (countries ws) = Some cy ->
    includes y (alliances cx) = includes x (alliances cy).

(** The number that [cell || 0] reads from an own tension cell, or from
    a missing one under a name that is not inherited. *)
Definition level (o : option num) : Q :=
  match o with
  | Some (Fin q) => q
  | _ => 0%Q
  end.

(** A tension cell that holds a number of [-100,100] or [NaN], and one
    that holds a number of [-100,100]. *)
Definition cellOk (v : num) : Prop :=
  match v with
  | Fin q => tensionOk q
  | NaN => True
  end.

Definition cellIn (v : num) : Prop :=
  match v with
  | Fin q => tensionOk q
  | NaN => False
  end.

(** Every tension cell of every country holds a number of [-100,100] or
    [NaN]. *)
Definition tensionsInRange (c : country) : Prop :=
  map_Forall (fun _ v => cellOk v) (tensions c).

Definition tensionsOk (ws : worldState) : Prop :=
  Forall tensionsInRange (countries ws).

(** Every tension cell of every country holds a number of [-100,100]. *)
Definition tensionsNumeric (c : country) : Prop :=
  map_Forall (fun _ v => cellIn v) (tensions c).

Definition tensionsAllNumeric (ws : worldState) : Prop :=
  Forall tensionsNumeric (countries ws).

(** The rank of a decision: the number that the priority table gives its
    action, and 99 for every action to which it gives none. *)
Definition rank (d : AgentManager.decision) : Z :=
  default 99%Z (EventResolver.priority (AgentManager.action d)).

(** Decisions none of whose actions is an inherited name. *)
Definition plainActions (ds : list AgentManager.decision) : Prop :=
  Forall (fun d => inherited (AgentManager.action d) = false) ds.

(** The state holds a country of id [k]. *)
Definition hasCountry (ws : worldState) (k : string) : bool :=
  match findCountry k (countries ws) with
  | Some _ => true
  | None => false
  end.

(** A tension mapping none of whose actor and target ids is an inherited
    name. *)
Definition plainTensions (tc : tensionChanges) : Prop :=
  Forall (fun e => inherited (fst e) = false
                   /\ Forall (fun t => inherited (fst t) = false) (snd e)) tc.

(** The [(actor, target, delta)] entries that [applyTensionChanges]
    processes, in the order of the two loops: the entries of the actors
    that the state holds. *)
Definition entriesOf (ws : worldState) (tc : tensionChanges)
  : list (string * string * Q) :=
  flat_map
    (fun e => match findCountry (fst e) (countries ws) with
              | None => []
              | Some _ => List.map (fun t => (fst e, fst t, snd t)) (snd e)
              end)
    tc.

Definition applyEntry (st : worldState) (e : string * string * Q)
  : worldState :=
  applyTensionEntry (fst (fst e)) (snd (fst e)) (snd e) st.

(** The state in which [applyTensionChanges] finds the world when it comes
    to the entry that follows the entries [pre]. *)
Definition afterEntries (ws : worldState) (pre : list (string * string * Q))
  : worldState :=
  fold_left applyEntry pre ws.

(** [r] is the first country of maximal power in [l]: every country before
    it is strictly weaker and none after it is stronger. *)
Definition firstStrongest (r : country) (l : list country) : Prop :=
  exists l1 l2,
    l = l1 ++ r :: l2
    /\ Forall (fun x => (power x < power r)%Q) l1
    /\ Forall (fun x => (power x <= power r)%Q) l2.

(** What [validateWorldState] checks of a country. *)
Definition powerAndStabilityOk (c : country) : Prop :=
  (0 <= power c <= 100)%Q /\ (0 <= stability c <= 100)%Q.

(** An answer of [call] that makes [callWithRetry] try again. *)
Definition retryable {A : Type} (r : GeminiClient.callResult A) : Prop :=
  GeminiClient.error r <> None /\ GeminiClient.shouldRetry r = true.

(** [obj[k]] on an object kept as an association list. *)
Definition lookupKey {V : Type} (k : string) (l : list (string * V))
  : option V :=
  snd <$> List.find (fun e => String.eqb (fst e) k) l.

(** The entry for target [t] in the tension deltas of actor [a]. *)
Definition tensionDelta (all : WorldState.tensionChanges) (a t : string)
  : option Q :=
  match lookupKey a all with
  | Some l => lookupKey t l
  | None => None
  end.

(** The value of the last entry for [t] in a list of entries. *)
Definition lastValue (t : string) (new : list (string * Q)) : option Q :=
  lookupKey t (rev new).




(** The accumulators of [resolveActions] when its loop comes to the
    decision that follows the decisions [pre]. *)
Definition resolvedAfter (cfgs : string -> EventResolver.lookup)
  (call : AgentManager.decision -> nat
          -> GeminiClient.callResult AgentManager.resolution)
  (ws : worldState) (pre : list AgentManager.decision)
  : EventResolver.resolved :=
  fold_left (EventResolver.resolveOne cfgs call) pre
    (EventResolver.mkResolved [] [] [] ws).

(** A relation between a state and a later one that holds across each of
    the four state transforms, and so across any sequence of them. *)
Record stepwise (R : worldState -> worldState -> Prop) : Prop := mkStepwise {
  step_refl : forall ws, R ws ws;
  step_trans : forall a b c, R a b -> R b c -> R a c;
  step_applyChanges : forall ws ch, R ws (applyChanges ws ch);
  step_applyTensionChanges : forall ws tc, R ws (applyTensionChanges ws tc);
  step_addEvent : forall ws e, R ws (addEvent ws e);
  step_updateAlliances : forall ws a b act, R ws (updateAlliances ws a b act)
}.

(** Tick, year, status and the ids of the countries are the same. *)
Definition sameClock (ws ws' : worldState) : Prop :=
  tick ws' = tick ws /\ year ws' = year ws /\ status ws' = status ws
  /\ List.map cid (countries ws') = List.map cid (countries ws).

(** A property of world states that every mutation of the engine keeps. *)
Record kept (P : worldState -> Prop) : Prop := mkKept {
  kept_applyChanges : forall ws ch, P ws -> P (applyChanges ws ch);
  kept_applyTensionChanges :
    forall ws tc, P ws -> P (applyTensionChanges ws tc);
  kept_addEvent : forall ws e, P ws -> P (addEvent ws e);
  kept_updateAlliances :
    forall ws a b act, P ws -> P (updateAlliances ws a b act);
  kept_advance : forall ws, P ws -> P (Simulator.advance ws);
  kept_setStatus : forall ws st, P ws -> P (Simulator.setStatus ws st)
}.

(** The entries of [event_logs] of one kind. *)
Definition logged (kind : string) (s : Simulator.simulator)
  : list Logger.logEntry :=
  List.filter (fun l => String.eqb (Logger.eventType l) kind)
    (Simulator.eventLogs s).

End Laws.

(** * More concrete inputs *)

Module Samples.
Import WorldState GeminiClient AgentManager EventResolver Logger Simulator.
Import Fixtures.

(** Two rate-limited answers, then a decision. *)
Definition limitedTwice (attempt : nat) : callResult decisionBody :=
  match attempt with
  | 0%nat | 1%nat => rateLimited
  | _ => answered stabilizeBody
  end.





Definition dToString : decision :=
  mkDecision "leader_3" "D" "toString" "gather_intel" None.

End Samples.

(** * Properties *)

(** ** Numbers and clamping *)

Section Clamp.
Import Models.

Lemma Qltb_lt (a b : Q) : Qltb a b = true <-> (a < b)%Q.
Proof.
  unfold Qltb. rewrite negb_true_iff. split.
  - intros H. apply Qnot_le_lt. intros Hle.
    apply Qle_bool_iff in Hle. congruence.
  - intros H. destruct (Qle_bool b a) eqn:E; [|reflexivity].
    apply Qle_bool_iff in E. exfalso. exact (Qlt_not_le _ _ H E).
Qed.

Lemma Qltb_ge (a b : Q) : Qltb a b = false <-> (b <= a)%Q.
Proof.
  unfold Qltb. rewrite negb_false_iff. apply Qle_bool_iff.
Qed.

Lemma clampValue_lower (v lo hi : Q) : (lo <= clampValue v lo hi)%Q.
Proof. unfold clampValue. apply Q.le_max_l. Qed.

Lemma clampValue_upper (v lo hi : Q) :
  (lo <= hi)%Q -> (clampValue v lo hi <= hi)%Q.
Proof.
  intros H. unfold clampValue. apply Q.max_lub; [exact H|apply Q.le_min_l].
Qed.

Lemma clampValue_inside (v lo hi : Q) :
  (lo <= v)%Q -> (v <= hi)%Q -> (clampValue v lo hi == v)%Q.
Proof.
  intros Hlo Hhi. unfold clampValue.
  rewrite (Q.min_r hi v Hhi). apply Q.max_r. exact Hlo.
Qed.


End Clamp.

(** ** Finding and rewriting a country *)

Section Countries.
Import WorldState Inv.

Lemma findCountry_updCountry (k k' : string) (f : country -> country)
  (cs : list country) :
  keepsId f ->
  findCountry k (updCountry k' f cs)
  = if String.eqb k' k then f <$> findCountry k cs else findCountry k cs.
Proof.
  intros Hf. induction cs as [|c cs IH]; simpl.
  - destruct (String.eqb k' k); reflexivity.
  - destruct (String.eqb (cid c) k') eqn:Ek'.
    + apply String.eqb_eq in Ek'. subst k'. simpl. rewrite Hf.
      destruct (String.eqb (cid c) k) eqn:Ek; reflexivity.
    + simpl. destruct (String.eqb (cid c) k) eqn:Ek.
      * apply String.eqb_eq in Ek. subst k.
        rewrite String.eqb_sym, Ek'. reflexivity.
      * exact IH.
Qed.

Lemma updCountry_Forall (P : country -> Prop) (k : string)
  (f : country -> country) (cs : list country) :
  (forall c, P c -> P (f c)) ->
  Forall P cs -> Forall P (updCountry k f cs).
Proof.
  intros Hf H. induction H as [|c cs Hc Hcs IH]; simpl.
  - constructor.
  - destruct (String.eqb (cid c) k); constructor; auto.
Qed.

Lemma applyDeltas_keepsId (d : deltas) : keepsId (applyDeltas d).
Proof. intros c. reflexivity. Qed.

Lemma bumpTension_keepsId (k : string) (d : Q) : keepsId (bumpTension k d).
Proof.
  intros c. unfold bumpTension.
  destruct (tensions c !! k); [reflexivity|].
  destruct (String.eqb k "__proto__"); reflexivity.
Qed.

Lemma bumpTension_setTensions (k : string) (d : Q) (c : country) :
  bumpTension k d c = setTensions c (tensions (bumpTension k d c)).
Proof.
  unfold bumpTension.
  destruct (tensions c !! k); [reflexivity|].
  destruct (String.eqb k "__proto__"); [destruct c|]; reflexivity.
Qed.

Lemma applyChanges_snoc (ws : worldState) (ch : changes)
  (e : string * deltas) :
  applyChanges ws (ch ++ [e])
  = withCountry (fst e) (applyDeltas (snd e)) (applyChanges ws ch).
Proof. unfold applyChanges. rewrite fold_left_app. reflexivity. Qed.

End Countries.

(** ** applyChanges: the collapse ceiling and the ranges *)

Section ApplyChanges.
Import Models WorldState Inv Fixtures.

Lemma applyDeltas_power (d : deltas) (c : country) :
  power (applyDeltas d c)
  = if Qltb (stability (applyDeltas d c)) 5
    then Qmin (clampedPower d c) 20 else clampedPower d c.
Proof. reflexivity. Qed.

Lemma applyDeltas_ceiling (d : deltas) (c : country) :
  (stability (applyDeltas d c) < 5)%Q -> (power (applyDeltas d c) <= 20)%Q.
Proof.
  intros H. rewrite applyDeltas_power.
  apply Qltb_lt in H. rewrite H. apply Q.le_min_r.
Qed.

Lemma applyDeltas_only_lowers (d : deltas) (c : country) :
  (power (applyDeltas d c) <= clampedPower d c)%Q.
Proof.
  rewrite applyDeltas_power.
  destruct (Qltb (stability (applyDeltas d c)) 5).
  - apply Q.le_min_l.
  - apply Qle_refl.
Qed.

Lemma applyChanges_addressed (ws : worldState) (ch : changes) (k : string)
  (c' : country) :
  In k (List.map fst ch) ->
  findCountry k (countries (applyChanges ws ch)) = Some c' ->
  exists d c, c' = applyDeltas d c.
Proof.
  revert c'. induction ch as [|e ch IH] using rev_ind; intros c' Hin Hfind.
  - destruct Hin.
  - rewrite applyChanges_snoc in Hfind. simpl in Hfind.
    rewrite findCountry_updCountry in Hfind by apply applyDeltas_keepsId.
    destruct (String.eqb (fst e) k) eqn:E.
    + destruct (findCountry k (countries (applyChanges ws ch))) as [c0|];
        simpl in Hfind; [|discriminate].
      injection Hfind as <-. eauto.
    + apply IH; [|exact Hfind].
      rewrite List.map_app in Hin. apply in_app_or in Hin.
      destruct Hin as [Hin|[Hin|[]]]; [exact Hin|].
      apply String.eqb_neq in E. congruence.
Qed.

End ApplyChanges.

Section ApplyChangesClaims.
Import Models WorldState Inv Fixtures.

(** C3. In [applyChanges], a country addressed by the delta mapping whose
    stability after the deltas is below 5 ends with power at most 20; the
    ceiling is taken on the power already clamped to [0,100] and never
    raises it; a country with stability 3 and power 10 that receives a
    power delta of +50 ends with power exactly 20. *)
Theorem applyChanges_collapse_ceiling :
  (forall ws ch k c',
      In k (List.map fst ch) ->
      findCountry k (countries (applyChanges ws ch)) = Some c' ->
      (stability c' < 5)%Q -> (power c' <= 20)%Q)
  /\ (forall d c,
        power (applyDeltas d c)
        = (if Qltb (stability (applyDeltas d c)) 5
           then Qmin (clampedPower d c) 20 else clampedPower d c)
        /\ (power (applyDeltas d c) <= clampedPower d c)%Q)
  /\ power <$> findCountry "A" (countries (applyChanges collapsedWorld powerBoost))
     = Some 20%Q.
Proof.
  split; [|split].
  - intros ws ch k c' Hin Hfind Hlow.
    destruct (applyChanges_addressed ws ch k c' Hin Hfind) as (d & c & ->).
    apply applyDeltas_ceiling. exact Hlow.
  - intros d c. split.
    + apply applyDeltas_power.
    + apply applyDeltas_only_lowers.
  - reflexivity.
Qed.

Lemma applyChanges_collapse_ceiling_witness :
  exists c',
    findCountry "A" (countries (applyChanges collapsedWorld powerBoost)) = Some c'
    /\ (power c' <= 20)%Q.
Proof.
  eexists. split.
  - reflexivity.
  - apply (proj1 applyChanges_collapse_ceiling collapsedWorld powerBoost "A").
    + simpl. left. reflexivity.
    + reflexivity.
    + vm_compute. reflexivity.
Defined.

Lemma applyDeltas_inRange (d : deltas) (c : country) :
  inRange c -> inRange (applyDeltas d c).
Proof.
  intros (Hp & Hs & Ht & Hr & Hn).
  assert (Hclamp : forall v, (0 <= clampValue v 0 100 <= 100)%Q).
  { intros v. split; [apply clampValue_lower|].
    apply clampValue_upper. discriminate. }
  assert (Hcp : (0 <= clampedPower d c <= 100)%Q).
  { unfold clampedPower. destruct (dpower d); [apply Hclamp|exact Hp]. }
  unfold inRange. rewrite applyDeltas_power. simpl.
  repeat split.
  - destruct (Qltb _ 5); [|apply Hcp].
    apply Q.min_glb; [apply Hcp|discriminate].
  - destruct (Qltb _ 5); [|apply Hcp].
    eapply Qle_trans; [apply Q.le_min_l|apply Hcp].
  - destruct (dstability d); [apply Hclamp|apply Hs].
  - destruct (dstability d); [apply Hclamp|apply Hs].
  - destruct (dtechnology d); [apply Hclamp|apply Ht].
  - destruct (dtechnology d); [apply Hclamp|apply Ht].
  - destruct (dresources d); [apply Hclamp|apply Hr].
  - destruct (dresources d); [apply Hclamp|apply Hr].
  - destruct (dpopulation d); [apply Q.le_max_l|exact Hn].
Qed.

Lemma applyChanges_inRange (ch : changes) (ws : worldState) :
  statsInRange ws -> statsInRange (applyChanges ws ch).
Proof.
  revert ws. unfold applyChanges.
  induction ch as [|e ch IH]; intros ws H; simpl; [exact H|].
  apply IH. unfold statsInRange, withCountry. simpl.
  apply updCountry_Forall; [|exact H].
  intros c. apply applyDeltas_inRange.
Qed.

(** C4. From a world state whose stats are in range, [applyChanges] with
    any delta mapping, and any sequence of such applications, returns a
    state in which every country has power, stability, technology and
    resources in [0,100] and a population that is not negative. *)
Theorem applyChanges_keeps_ranges :
  forall (ws : worldState) (seq : list changes),
    statsInRange ws ->
    (forall ch, statsInRange (applyChanges ws ch))
    /\ statsInRange (fold_left applyChanges seq ws).
Proof.
  intros ws seq H. split.
  - intros ch. apply applyChanges_inRange. exact H.
  - revert ws H. induction seq as [|ch seq IH]; intros ws H; simpl.
    + exact H.
    + apply IH. apply applyChanges_inRange. exact H.
Qed.

Lemma applyChanges_keeps_ranges_witness :
  statsInRange (fold_left applyChanges [powerBoost; powerBoost] collapsedWorld).
Proof.
  apply (applyChanges_keeps_ranges collapsedWorld [powerBoost; powerBoost]).
  constructor; [|constructor].
  unfold inRange. simpl. repeat split; discriminate.
Defined.

End ApplyChangesClaims.

(** ** applyTensionChanges: the reciprocal propagation *)

Section Tensions.
Import Models WorldState Inv Laws.

Lemma clampValue_tensionOk (v : Q) : tensionOk (clampValue v (-100) 100).
Proof.
  split; [apply clampValue_lower|apply clampValue_upper; discriminate].
Qed.

Lemma inherited_proto (k : string) :
  inherited k = false -> String.eqb k "__proto__" = false.
Proof.
  intros H. destruct (String.eqb k "__proto__") eqn:E; [|reflexivity].
  apply String.eqb_eq in E. subst k. vm_compute in H. discriminate.
Qed.

(** Under a name that is not inherited the write is the clamp of the
    number read plus the delta. *)
Lemma bumpTension_cells (k : string) (d : Q) (c : country) :
  inherited k = false ->
  tensions (bumpTension k d c)
  = <[k := Fin (clampValue (level (tensions c !! k) + d) (-100) 100)]>
      (tensions c).
Proof.
  intros H. unfold bumpTension, bumped, currentTension, level.
  destruct (tensions c !! k) as [[q|]|]; try reflexivity.
  rewrite H, (inherited_proto k H). reflexivity.
Qed.


Lemma bumpTension_lookup_ne (k k' : string) (d : Q) (c : country) :
  k <> k' -> tensions (bumpTension k d c) !! k' = tensions c !! k'.
Proof.
  intros H. unfold bumpTension.
  destruct (tensions c !! k).
  - simpl. apply lookup_insert_ne. exact H.
  - destruct (String.eqb k "__proto__"); [reflexivity|].
    simpl. apply lookup_insert_ne. exact H.
Qed.





(** No entry adds or removes a country. *)
Lemma findCountry_entry_none (ws : worldState) (a t k : string) (d : Q) :
  findCountry k (countries (applyTensionEntry a t d ws)) = None
  <-> findCountry k (countries ws) = None.
Proof.
  unfold applyTensionEntry. simpl.
  rewrite findCountry_updCountry by apply bumpTension_keepsId.
  destruct (String.eqb t k);
    rewrite findCountry_updCountry by apply bumpTension_keepsId;
    destruct (String.eqb a k);
    destruct (findCountry k (countries ws)); simpl; split; congruence.
Qed.

Lemma findCountry_afterEntries_none (pre : list (string * string * Q))
  (ws : worldState) (k : string) :
  findCountry k (countries (afterEntries ws pre)) = None
  <-> findCountry k (countries ws) = None.
Proof.
  revert ws. induction pre as [|e pre IH]; intros ws; [reflexivity|].
  unfold afterEntries in *. simpl. rewrite IH.
  apply findCountry_entry_none.
Qed.


Lemma inner_loop_entries (a : string) (l : list (string * Q))
  (st : worldState) :
  fold_left (fun st' t => applyTensionEntry a (fst t) (snd t) st') l st
  = afterEntries st (List.map (fun t => (a, fst t, snd t)) l).
Proof.
  revert st. induction l as [|t l IH]; intros st; [reflexivity|].
  unfold afterEntries in *. simpl. apply IH.
Qed.

Lemma afterEntries_app (ws : worldState) (l1 l2 : list (string * string * Q)) :
  afterEntries ws (l1 ++ l2) = afterEntries (afterEntries ws l1) l2.
Proof. unfold afterEntries. apply fold_left_app. Qed.

Lemma applyTensionChanges_from (ws : worldState) (tc : tensionChanges)
  (st : worldState) :
  (forall k, findCountry k (countries st) = None
             <-> findCountry k (countries ws) = None) ->
  applyTensionChanges st tc = afterEntries st (entriesOf ws tc).
Proof.
  revert st. induction tc as [|e tc IH]; intros st H; [reflexivity|].
  unfold applyTensionChanges, entriesOf in *.
  cbn [fold_left flat_map]. rewrite afterEntries_app.
  destruct (findCountry (fst e) (countries ws)) as [c|] eqn:Ews.
  - destruct (findCountry (fst e) (countries st)) as [c'|] eqn:Est.
    + rewrite inner_loop_entries. apply IH.
      intros k. rewrite findCountry_afterEntries_none. apply H.
    + apply H in Est. congruence.
  - apply H in Ews. rewrite Ews. apply IH. exact H.
Qed.

(** [applyTensionChanges] is the run of its entries, one step each, over
    the actors that the state holds. *)
Lemma applyTensionChanges_entries (ws : worldState) (tc : tensionChanges) :
  applyTensionChanges ws tc = afterEntries ws (entriesOf ws tc).
Proof. apply applyTensionChanges_from. reflexivity. Qed.

Lemma applyTensionChanges_at (ws : worldState) (tc : tensionChanges)
  (pre post : list (string * string * Q)) (e : string * string * Q) :
  entriesOf ws tc = pre ++ e :: post ->
  applyTensionChanges ws tc
  = afterEntries (applyEntry (afterEntries ws pre) e) post.
Proof.
  intros H. rewrite applyTensionChanges_entries, H, afterEntries_app.
  reflexivity.
Qed.

Lemma entriesOf_actor (ws : worldState) (tc : tensionChanges)
  (a t : string) (d : Q) :
  In (a, t, d) (entriesOf ws tc) -> present a ws.
Proof.
  unfold entriesOf. intros H. apply in_flat_map in H.
  destruct H as (e & _ & H).
  destruct (findCountry (fst e) (countries ws)) as [c|] eqn:E; [|destruct H].
  apply in_map_iff in H. destruct H as (x & Hx & _).
  injection Hx as <- _ _. exists c. exact E.
Qed.

Lemma applyTensionChanges_single (ws : worldState) (a t : string) (d : Q) :
  present a ws ->
  applyTensionChanges ws [(a, [(t, d)])] = applyTensionEntry a t d ws.
Proof.
  intros [c Hc]. unfold applyTensionChanges. simpl. rewrite Hc. reflexivity.
Qed.



End Tensions.

Section TensionClaims.
Import Models WorldState Inv Laws Fixtures Samples.





End TensionClaims.

(** ** The bounded logs *)

Section BoundedLogs.
Import Models WorldState Inv Fixtures.

Lemma lastN_suffix {A : Type} (n : nat) (l : list A) :
  l = firstn (length l - n) l ++ lastN n l.
Proof. unfold lastN. symmetry. apply firstn_skipn. Qed.

Lemma lastN_length {A : Type} (n : nat) (l : list A) :
  length (lastN n l) = Nat.min n (length l).
Proof. unfold lastN. rewrite length_skipn. lia. Qed.

Lemma pushBounded_length {A : Type} (n : nat) (l : list A) (x : A) :
  (length (pushBounded n l x) <= n)%nat.
Proof.
  unfold pushBounded.
  destruct (n <? length (l ++ [x]))%nat eqn:E.
  - rewrite lastN_length. lia.
  - apply Nat.ltb_ge in E. exact E.
Qed.

Lemma pushBounded_suffix {A : Type} (n : nat) (l : list A) (x : A) :
  exists dropped,
    l ++ [x] = dropped ++ pushBounded n l x
    /\ length dropped = (length l + 1 - n)%nat.
Proof.
  unfold pushBounded.
  destruct (n <? length (l ++ [x]))%nat eqn:E.
  - exists (firstn (length (l ++ [x]) - n) (l ++ [x])). split.
    + apply lastN_suffix.
    + rewrite length_firstn, length_app. simpl. lia.
  - apply Nat.ltb_ge in E. exists []. split; [reflexivity|].
    rewrite length_app in E. simpl in *. lia.
Qed.

Lemma globalEvents_withCountry (k : string) (f : country -> country)
  (ws : worldState) :
  globalEvents (withCountry k f ws) = globalEvents ws.
Proof. reflexivity. Qed.

Lemma globalEvents_applyChanges (ch : changes) (ws : worldState) :
  globalEvents (applyChanges ws ch) = globalEvents ws.
Proof.
  revert ws. unfold applyChanges.
  induction ch as [|e ch IH]; intros ws; simpl; [reflexivity|].
  rewrite IH. reflexivity.
Qed.

Lemma globalEvents_tensionEntries (a : string) (l : list (string * Q))
  (ws : worldState) :
  globalEvents
    (fold_left (fun st t => applyTensionEntry a (fst t) (snd t) st) l ws)
  = globalEvents ws.
Proof.
  revert ws. induction l as [|t l IH]; intros ws; simpl; [reflexivity|].
  rewrite IH. reflexivity.
Qed.

Lemma globalEvents_applyTensionChanges (tc : tensionChanges)
  (ws : worldState) :
  globalEvents (applyTensionChanges ws tc) = globalEvents ws.
Proof.
  revert ws. unfold applyTensionChanges.
  induction tc as [|e tc IH]; intros ws; simpl; [reflexivity|].
  rewrite IH. destruct (findCountry (fst e) (countries ws)); [|reflexivity].
  apply globalEvents_tensionEntries.
Qed.

Lemma globalEvents_updateAlliances (ws : worldState) (a b act : string) :
  globalEvents (updateAlliances ws a b act) = globalEvents ws.
Proof.
  unfold updateAlliances.
  destruct (findCountry a (countries ws)); [|reflexivity].
  destruct (findCountry b (countries ws)); [|reflexivity].
  destruct (String.eqb act "FORM"); [reflexivity|].
  destruct (String.eqb act "BREAK"); reflexivity.
Qed.

Lemma historyOk_withCountry (k : string) (f : country -> country)
  (ws : worldState) :
  (forall c, historyOk c -> historyOk (f c)) ->
  Forall historyOk (countries ws) ->
  Forall historyOk (countries (withCountry k f ws)).
Proof. intros Hf H. simpl. apply updCountry_Forall; assumption. Qed.

Lemma historyOk_applyChanges (ch : changes) (ws : worldState) :
  Forall historyOk (countries ws) ->
  Forall historyOk (countries (applyChanges ws ch)).
Proof.
  revert ws. unfold applyChanges.
  induction ch as [|e ch IH]; intros ws H; simpl; [exact H|].
  apply IH. apply historyOk_withCountry; [|exact H]. intros c Hc. exact Hc.
Qed.

Lemma historyOk_applyTensionEntry (a t : string) (d : Q) (ws : worldState) :
  Forall historyOk (countries ws) ->
  Forall historyOk (countries (applyTensionEntry a t d ws)).
Proof.
  intros H. unfold applyTensionEntry.
  apply historyOk_withCountry;
    [intros c Hc; rewrite bumpTension_setTensions; exact Hc|].
  apply historyOk_withCountry;
    [intros c Hc; rewrite bumpTension_setTensions; exact Hc|exact H].
Qed.

Lemma historyOk_applyTensionChanges (tc : tensionChanges) (ws : worldState) :
  Forall historyOk (countries ws) ->
  Forall historyOk (countries (applyTensionChanges ws tc)).
Proof.
  revert ws. unfold applyTensionChanges.
  induction tc as [|e tc IH]; intros ws H; simpl; [exact H|].
  apply IH. destruct (findCountry (fst e) (countries ws)); [|exact H].
  clear IH. revert ws H. induction (snd e) as [|t l IHl]; intros ws H; simpl.
  - exact H.
  - apply IHl. apply historyOk_applyTensionEntry. exact H.
Qed.

Lemma historyOk_updateAlliances (ws : worldState) (a b act : string) :
  Forall historyOk (countries ws) ->
  Forall historyOk (countries (updateAlliances ws a b act)).
Proof.
  intros H. unfold updateAlliances.
  destruct (findCountry a (countries ws)) as [ca|]; [|exact H].
  destruct (findCountry b (countries ws)) as [cb|]; [|exact H].
  destruct (String.eqb act "FORM").
  - apply historyOk_withCountry.
    + intros x Hx. unfold addAlly. destruct (includes a (alliances x)); exact Hx.
    + apply historyOk_withCountry; [|exact H].
      intros x Hx. unfold addAlly. destruct (includes b (alliances x)); exact Hx.
  - destruct (String.eqb act "BREAK"); [|exact H].
    apply historyOk_withCountry; [intros x Hx; exact Hx|].
    apply historyOk_withCountry; [intros x Hx; exact Hx|exact H].
Qed.

Lemma pushHistory_keepsId (h : string) : keepsId (pushHistory h).
Proof. intros c. reflexivity. Qed.

End BoundedLogs.

Section BoundedLogsOfTheLoop.
Import WorldState Metrics RandomEvents AgentManager EventResolver Logger.
Import Simulator Inv.

Lemma addEvent_logsBounded (ws : worldState) (e : event) :
  logsBounded ws -> logsBounded (addEvent ws e).
Proof.
  intros [_ Hh]. split; [apply pushBounded_length|exact Hh].
Qed.

Lemma addEvents_logsBounded (es : list event) (ws : worldState) :
  logsBounded ws -> logsBounded (fold_left addEvent es ws).
Proof.
  revert ws. induction es as [|e es IH]; intros ws H; simpl; [exact H|].
  apply IH. apply addEvent_logsBounded. exact H.
Qed.

Lemma globalEvents_handleSpecialActions (ws : worldState) (d : decision)
  (r : resolution) :
  globalEvents (handleSpecialActions ws d r) = globalEvents ws.
Proof.
  unfold handleSpecialActions, updateAlliancesWith.
  destruct (_ && _).
  - destruct (target d); [apply globalEvents_updateAlliances|reflexivity].
  - destruct (String.eqb _ _); [|reflexivity].
    destruct (target d); [apply globalEvents_updateAlliances|reflexivity].
Qed.

Lemma historyOk_handleSpecialActions (ws : worldState) (d : decision)
  (r : resolution) :
  Forall historyOk (countries ws) ->
  Forall historyOk (countries (handleSpecialActions ws d r)).
Proof.
  intros H. unfold handleSpecialActions, updateAlliancesWith.
  destruct (_ && _).
  - destruct (target d); [apply historyOk_updateAlliances|]; exact H.
  - destruct (String.eqb _ _); [|exact H].
    destruct (target d); [apply historyOk_updateAlliances|]; exact H.
Qed.

Lemma historyOk_resolveActions (cfgs : string -> lookup)
  (call : decision -> nat -> GeminiClient.callResult resolution)
  (ws : worldState) (ds : list decision) :
  Forall historyOk (countries ws) ->
  Forall historyOk (countries (world (resolveActions cfgs call ws ds))).
Proof.
  intros H. unfold resolveActions.
  assert (Hgen : forall l acc,
             Forall historyOk (countries (world acc)) ->
             Forall historyOk
               (countries (world (fold_left (resolveOne cfgs call) l acc)))).
  { induction l as [|d l IH]; intros acc Hacc; simpl; [exact Hacc|].
    apply IH. unfold resolveOne.
    destruct (cfgs (actorId d)) as [msg|[cfg|]]; simpl; try exact Hacc.
    apply historyOk_handleSpecialActions. exact Hacc. }
  apply Hgen. exact H.
Qed.

Lemma globalEvents_resolveActions (cfgs : string -> lookup)
  (call : decision -> nat -> GeminiClient.callResult resolution)
  (ws : worldState) (ds : list decision) :
  globalEvents (world (resolveActions cfgs call ws ds)) = globalEvents ws.
Proof.
  unfold resolveActions.
  assert (Hgen : forall l acc,
             globalEvents (world (fold_left (resolveOne cfgs call) l acc))
             = globalEvents (world acc)).
  { induction l as [|d l IH]; intros acc; simpl; [reflexivity|].
    rewrite IH. unfold resolveOne.
    destruct (cfgs (actorId d)) as [msg|[cfg|]]; simpl; try reflexivity.
    apply globalEvents_handleSpecialActions. }
  apply Hgen.
Qed.

Lemma runPhases_logsBounded (o : oracle) (s : simulator) (ws1 : worldState) :
  logsBounded ws1 -> logsBounded (stored (runPhases o s ws1)).
Proof.
  intros [Hev Hh]. unfold runPhases.
  set (res := resolveActions _ _ ws1 _).
  assert (Hlog : logsBounded
            (fold_left addEvent (events res)
               (applyTensionChanges (applyChanges (world res) (allChanges res))
                  (allTensionChanges res)))).
  { apply addEvents_logsBounded. split.
    - rewrite globalEvents_applyTensionChanges, globalEvents_applyChanges.
      unfold res. rewrite globalEvents_resolveActions. exact Hev.
    - apply historyOk_applyTensionChanges, historyOk_applyChanges.
      apply historyOk_resolveActions. exact Hh. }
  destruct (terminate _); exact Hlog.
Qed.

Lemma executeTick_logsBounded (o : oracle) (s : simulator) :
  logsBounded (stored s) -> logsBounded (stored (executeTick o s)).
Proof.
  intros H. unfold executeTick.
  destruct (negb _); [exact H|].
  destruct (generateRandomEvent _ _ _) as [[e|]|].
  - apply runPhases_logsBounded. split.
    + rewrite globalEvents_applyChanges. apply pushBounded_length.
    + apply historyOk_applyChanges. apply H.
  - apply runPhases_logsBounded. exact H.
  - exact H.
Qed.

Lemma reachable_logsBounded (ags : list agentConfig) (cs : list country)
  (s : simulator) :
  Forall historyOk cs -> reachable ags cs s -> logsBounded (stored s).
Proof.
  intros Hcs H. induction H as [|o s Hs IH].
  - split; [simpl; lia|exact Hcs].
  - apply executeTick_logsBounded. exact IH.
Qed.

End BoundedLogsOfTheLoop.

Section BoundedLogClaims.
Import Models WorldState Simulator Inv Fixtures.

(** C9. [addEvent] and [addCountryHistory] append and then truncate: after
    a call [globalEvents] has at most 100 entries and the history of the
    country addressed at most 10; what is dropped is a prefix of the log
    with the new entry appended, exactly as long as the excess over the
    bound, so the oldest entries go and the order of the others is kept.
    The two bounds are kept by every mutation of the state, and so hold
    in every state that the tick loop reaches from a run created with
    histories of at most 10 entries. *)
Theorem logs_append_then_truncate :
  (forall ws e,
      (length (globalEvents (addEvent ws e)) <= 100)%nat
      /\ exists dropped,
           globalEvents ws ++ [stampEvent ws e]
           = dropped ++ globalEvents (addEvent ws e)
           /\ length dropped = (length (globalEvents ws) + 1 - 100)%nat)
  /\ (forall ws k h c,
        findCountry k (countries ws) = Some c ->
        exists c',
          findCountry k (countries (addCountryHistory ws k h)) = Some c'
          /\ (length (history c') <= 10)%nat
          /\ exists dropped,
               history c ++ [h] = dropped ++ history c'
               /\ length dropped = (length (history c) + 1 - 10)%nat)
  /\ (forall ws,
        logsBounded ws ->
        (forall e, logsBounded (addEvent ws e))
        /\ (forall k h, logsBounded (addCountryHistory ws k h))
        /\ (forall ch, logsBounded (applyChanges ws ch))
        /\ (forall tc, logsBounded (applyTensionChanges ws tc))
        /\ (forall a b act, logsBounded (updateAlliances ws a b act)))
  /\ (forall ags cs s,
        Forall historyOk cs -> reachable ags cs s -> logsBounded (stored s)).
Proof.
  split; [|split; [|split]]; [| | |exact reachable_logsBounded].
  - intros ws e. split.
    + apply pushBounded_length.
    + apply pushBounded_suffix.
  - intros ws k h c Hc. exists (pushHistory h c). split.
    + unfold addCountryHistory. simpl.
      rewrite findCountry_updCountry by apply pushHistory_keepsId.
      rewrite String.eqb_refl, Hc. reflexivity.
    + split; [apply pushBounded_length|apply pushBounded_suffix].
  - intros ws [Hev Hh]. repeat split.
    + apply pushBounded_length.
    + exact Hh.
    + exact Hev.
    + apply historyOk_withCountry; [|exact Hh].
      intros x _. apply pushBounded_length.
    + rewrite globalEvents_applyChanges. exact Hev.
    + apply historyOk_applyChanges. exact Hh.
    + rewrite globalEvents_applyTensionChanges. exact Hev.
    + apply historyOk_applyTensionChanges. exact Hh.
    + rewrite globalEvents_updateAlliances. exact Hev.
    + apply historyOk_updateAlliances. exact Hh.
Qed.

Lemma fullLogs_bounded : logsBounded fullLogs.
Proof.
  split.
  - apply Nat.leb_le. vm_compute. reflexivity.
  - repeat constructor; unfold historyOk; simpl; lia.
Defined.

Lemma logs_append_then_truncate_witness :
  (exists c',
      findCountry "A" (countries (addCountryHistory fullLogs "A" "h11")) = Some c'
      /\ (length (history c') <= 10)%nat
      /\ exists dropped,
           history chronicled ++ ["h11"] = dropped ++ history c'
           /\ length dropped = (length (history chronicled) + 1 - 10)%nat)
  /\ logsBounded (addEvent fullLogs (plainEvent "PEACE"))
  /\ logsBounded (addCountryHistory fullLogs "A" "h11").
Proof.
  split; [|split].
  - apply (proj1 (proj2 logs_append_then_truncate) fullLogs "A" "h11" chronicled).
    reflexivity.
  - apply (proj1 (proj2 (proj2 logs_append_then_truncate)) fullLogs
             fullLogs_bounded).
  - apply (proj1 (proj2 (proj2 logs_append_then_truncate)) fullLogs
             fullLogs_bounded).
Defined.

(** The log of the fixture after one more event: the oldest entry is gone
    and the new one is last. *)
Example addEvent_drops_oldest :
  List.map type (globalEvents (addEvent fullLogs (plainEvent "PEACE")))
  = repeat "WAR" 99 ++ ["PEACE"].
Proof. vm_compute. reflexivity. Qed.

End BoundedLogClaims.

(** ** shouldTerminate *)

Section Termination.
Import WorldState Metrics Inv TerminationSpec Fixtures.

Lemma shouldTerminate_firstTrue (ws : worldState) (maxYears : Z) :
  shouldTerminate ws maxYears
  = firstTrue [(timeLimit ws maxYears, TIME_LIMIT); (hegemony ws, HEGEMONY);
               (totalCollapse ws, TOTAL_COLLAPSE);
               (perfectOrder ws, PERFECT_ORDER)].
Proof.
  unfold shouldTerminate, firstTrue, timeLimit, hegemony, totalCollapse.
  destruct (maxYears <=? year ws)%Z; [reflexivity|].
  destruct (_ && _); [reflexivity|].
  destruct (_ =? 0)%nat; [reflexivity|].
  destruct (perfectOrder ws); reflexivity.
Qed.

Lemma totalCollapse_iff (ws : worldState) :
  totalCollapse ws = true
  <-> Forall (fun c => ~ (20 < stability c)%Q) (countries ws).
Proof.
  unfold totalCollapse. rewrite Nat.eqb_eq.
  induction (countries ws) as [|c cs IH]; simpl.
  - split; [constructor|reflexivity].
  - unfold surviving at 1. destruct (Qltb 20 (stability c)) eqn:E; simpl.
    + split; [discriminate|].
      intros H. inversion H as [|? ? Hc _]. apply Qltb_lt in E. contradiction.
    + rewrite IH. split.
      * intros H. constructor; [|exact H].
        apply Qltb_ge in E. intros Hlt. exact (Qlt_not_le _ _ Hlt E).
      * intros H. inversion H. assumption.
Qed.

(** C6. [shouldTerminate] tries TIME_LIMIT, HEGEMONY, TOTAL_COLLAPSE and
    PERFECT_ORDER in this order and the first condition that holds gives the
    reason; a state with [year >= maxYears] in which no country has
    stability above 20 satisfies both TIME_LIMIT and TOTAL_COLLAPSE and gets
    the reason TIME_LIMIT. *)
Theorem shouldTerminate_priority :
  forall (ws : worldState) (maxYears : Z),
    shouldTerminate ws maxYears
    = firstTrue [(timeLimit ws maxYears, TIME_LIMIT); (hegemony ws, HEGEMONY);
                 (totalCollapse ws, TOTAL_COLLAPSE);
                 (perfectOrder ws, PERFECT_ORDER)]
    /\ ((year ws >= maxYears)%Z ->
        Forall (fun c => ~ (20 < stability c)%Q) (countries ws) ->
        timeLimit ws maxYears = true /\ totalCollapse ws = true
        /\ shouldTerminate ws maxYears = stop TIME_LIMIT).
Proof.
  intros ws maxYears. split; [apply shouldTerminate_firstTrue|].
  intros Hy Hc.
  assert (Ht : timeLimit ws maxYears = true).
  { unfold timeLimit. apply Z.leb_le. lia. }
  split; [exact Ht|]. split; [apply totalCollapse_iff; exact Hc|].
  rewrite shouldTerminate_firstTrue. simpl. rewrite Ht. reflexivity.
Qed.

Lemma shouldTerminate_priority_witness :
  timeLimit doomed 1000 = true /\ totalCollapse doomed = true
  /\ shouldTerminate doomed 1000 = stop TIME_LIMIT.
Proof.
  apply (shouldTerminate_priority doomed 1000).
  - simpl. lia.
  - repeat constructor; simpl; intros H; discriminate H.
Defined.

End Termination.

(** ** prioritizeActions *)

Section SortAnyComparator.
Import EventResolver.

Variable A : Type.

Lemma insertBy_permutation (cmp : A -> A -> Z) (x : A) (l : list A) :
  Permutation (x :: l) (insertBy cmp x l).
Proof.
  induction l as [|y l IH]; simpl.
  - apply Permutation_refl.
  - destruct (cmp x y <=? 0)%Z.
    + apply Permutation_refl.
    + eapply perm_trans; [apply perm_swap|]. apply perm_skip. exact IH.
Qed.

(** Whatever the comparator answers, the sort rearranges. *)
Lemma sortBy_permutation (cmp : A -> A -> Z) (l : list A) :
  Permutation l (sortBy cmp l).
Proof.
  induction l as [|x l IH]; simpl.
  - apply perm_nil.
  - eapply perm_trans; [apply perm_skip; exact IH|].
    apply insertBy_permutation.
Qed.

Lemma insertBy_ext (cmp cmp' : A -> A -> Z) (x : A) (l : list A) :
  (forall y, In y l -> cmp x y = cmp' x y) ->
  insertBy cmp x l = insertBy cmp' x l.
Proof.
  induction l as [|y l IH]; intros H; [reflexivity|].
  simpl. rewrite (H y) by (left; reflexivity).
  rewrite IH by (intros z Hz; apply H; right; exact Hz). reflexivity.
Qed.

(** The sort reads the comparator on the elements of the list only. *)
Lemma sortBy_ext (cmp cmp' : A -> A -> Z) (l : list A) :
  (forall x y, In x l -> In y l -> cmp x y = cmp' x y) ->
  sortBy cmp l = sortBy cmp' l.
Proof.
  induction l as [|x l IH]; intros H; [reflexivity|].
  simpl. rewrite IH by (intros a b Ha Hb; apply H; right; assumption).
  apply insertBy_ext. intros y Hy. apply H; [left; reflexivity|].
  right. eapply Permutation_in; [|exact Hy].
  apply Permutation_sym, sortBy_permutation.
Qed.

End SortAnyComparator.

Section Prioritize.
Import WorldState AgentManager EventResolver.

Variable A : Type.
Variable rank : A -> Z.

Let cmp (a b : A) : Z := (rank a - rank b)%Z.
Let byRank (a b : A) : Prop := (rank a <= rank b)%Z.

Lemma insertBy_perm (x : A) (l : list A) :
  Permutation (x :: l) (insertBy cmp x l).
Proof.
  induction l as [|y l IH]; simpl.
  - apply Permutation_refl.
  - destruct (cmp x y <=? 0)%Z.
    + apply Permutation_refl.
    + eapply perm_trans; [apply perm_swap|]. apply perm_skip. exact IH.
Qed.

Lemma sortBy_perm (l : list A) : Permutation l (sortBy cmp l).
Proof.
  induction l as [|x l IH]; simpl.
  - apply perm_nil.
  - eapply perm_trans; [apply perm_skip; exact IH|]. apply insertBy_perm.
Qed.

Lemma insertBy_sorted (x : A) (l : list A) :
  StronglySorted byRank l -> StronglySorted byRank (insertBy cmp x l).
Proof.
  intros H. induction H as [|y l Hl IH Hy]; simpl.
  - constructor; constructor.
  - destruct (cmp x y <=? 0)%Z eqn:E.
    + apply Z.leb_le in E. unfold cmp in E.
      constructor; [constructor; assumption|].
      constructor; [unfold byRank; lia|].
      eapply Forall_impl; [exact Hy|].
      intros z Hz. unfold byRank in *. lia.
    + apply Z.leb_gt in E. unfold cmp in E.
      constructor; [exact IH|].
      eapply Permutation_Forall; [apply insertBy_perm|].
      constructor; [unfold byRank; lia|exact Hy].
Qed.

Lemma sortBy_sorted (l : list A) : StronglySorted byRank (sortBy cmp l).
Proof.
  induction l as [|x l IH]; simpl.
  - constructor.
  - apply insertBy_sorted. exact IH.
Qed.

Lemma insertBy_class (r : Z) (x : A) (l : list A) :
  List.filter (fun a => (rank a =? r)%Z) (insertBy cmp x l)
  = List.filter (fun a => (rank a =? r)%Z) (x :: l).
Proof.
  induction l as [|y l IH]; [reflexivity|].
  simpl insertBy. destruct (cmp x y <=? 0)%Z eqn:E; [reflexivity|].
  apply Z.leb_gt in E. unfold cmp in E.
  change (List.filter (fun a => (rank a =? r)%Z) (y :: insertBy cmp x l))
    with (if (rank y =? r)%Z
          then y :: List.filter (fun a => (rank a =? r)%Z) (insertBy cmp x l)
          else List.filter (fun a => (rank a =? r)%Z) (insertBy cmp x l)).
  rewrite IH. simpl.
  destruct (rank y =? r)%Z eqn:Ey; [|reflexivity].
  apply Z.eqb_eq in Ey.
  assert ((rank x =? r)%Z = false) as -> by (apply Z.eqb_neq; lia).
  reflexivity.
Qed.

Lemma sortBy_class (r : Z) (l : list A) :
  List.filter (fun a => (rank a =? r)%Z) (sortBy cmp l)
  = List.filter (fun a => (rank a =? r)%Z) l.
Proof.
  induction l as [|x l IH]; [reflexivity|].
  simpl sortBy. rewrite insertBy_class. simpl. rewrite IH. reflexivity.
Qed.

End Prioritize.

Section PrioritizeOfActions.
Import WorldState AgentManager EventResolver Laws.

Lemma priority_rank (d : decision) :
  inherited (action d) = false -> priority (action d) = Some (rank d).
Proof.
  intros H. unfold rank, priority. rewrite H.
  repeat match goal with
         | |- context [String.eqb ?x ?y] => destruct (String.eqb x y)
         end; reflexivity.
Qed.

Lemma compareActions_rank (a b : decision) :
  inherited (action a) = false -> inherited (action b) = false ->
  compareActions a b = (rank a - rank b)%Z.
Proof.
  intros Ha Hb. unfold compareActions.
  rewrite (priority_rank a Ha), (priority_rank b Hb). reflexivity.
Qed.

(** On decisions none of whose actions is an inherited name the comparator
    is the difference of two ranks. *)
Lemma prioritizeActions_plain (ds : list decision) :
  plainActions ds ->
  prioritizeActions ds = sortBy (fun a b => (rank a - rank b)%Z) ds.
Proof.
  intros H. unfold prioritizeActions. apply sortBy_ext.
  intros x y Hx Hy. unfold plainActions in H. rewrite List.Forall_forall in H.
  apply compareActions_rank; apply H; assumption.
Qed.

Lemma prioritizeActions_permutation (ds : list decision) :
  Permutation ds (prioritizeActions ds).
Proof. apply sortBy_permutation. Qed.

End PrioritizeOfActions.

Section PrioritizeClaims.
Import WorldState AgentManager EventResolver Laws Fixtures Samples.

(** C7 (the code departs from the claim for an action that is an
    inherited name).  On every list of decisions none of whose actions is
    a name that objects inherit, [prioritizeActions] returns the decisions
    stably sorted by the rank of their category, MILITARY 1, DIPLOMACY 2,
    ESPIONAGE 3, INTERNAL 4 and 99 for any other such action: the result is a
    permutation of the input, ordered by rank, and the decisions of one rank
    keep their input order; the input [INTERNAL, MILITARY, DIPLOMACY] gives
    [MILITARY, DIPLOMACY, INTERNAL].  An action that is an inherited name
    ([toString] here) has no number: the comparator is [NaN] against it, and
    the input [INTERNAL, toString, MILITARY] comes back as it is, MILITARY
    last. *)
Theorem prioritizeActions_stable_sort :
  (forall ds : list decision,
      plainActions ds ->
      Permutation ds (prioritizeActions ds)
      /\ StronglySorted (fun a b => (rank a <= rank b)%Z) (prioritizeActions ds)
      /\ forall r,
           List.filter (fun d => (rank d =? r)%Z) (prioritizeActions ds)
           = List.filter (fun d => (rank d =? r)%Z) ds)
  /\ priority "MILITARY" = Some 1%Z /\ priority "DIPLOMACY" = Some 2%Z
  /\ priority "ESPIONAGE" = Some 3%Z /\ priority "INTERNAL" = Some 4%Z
  /\ (forall a,
        a <> "MILITARY" -> a <> "DIPLOMACY" -> a <> "ESPIONAGE" ->
        a <> "INTERNAL" -> inherited a = false -> priority a = Some 99%Z)
  /\ prioritizeActions [dInternal; dMilitary; dDiplomacy]
     = [dMilitary; dDiplomacy; dInternal]
  /\ priority "toString" = None
  /\ prioritizeActions [dInternal; dToString; dMilitary]
     = [dInternal; dToString; dMilitary]
  /\ ~ StronglySorted (fun a b => (rank a <= rank b)%Z)
         (prioritizeActions [dInternal; dToString; dMilitary]).
Proof.
  split; [|repeat split].
  - intros ds H. rewrite (prioritizeActions_plain ds H). split; [|split].
    + apply (sortBy_perm decision rank).
    + apply (sortBy_sorted decision rank).
    + intros r. apply (sortBy_class decision rank).
  - intros a H1 H2 H3 H4 H5. unfold priority.
    apply String.eqb_neq in H1, H2, H3, H4.
    rewrite H1, H2, H3, H4, H5. reflexivity.
  - intros H. change (prioritizeActions [dInternal; dToString; dMilitary])
      with [dInternal; dToString; dMilitary] in H.
    apply StronglySorted_inv in H. destruct H as [_ H].
    apply Forall_inv_tail, Forall_inv in H.
    vm_compute in H. apply H. reflexivity.
Qed.

Lemma prioritizeActions_stable_sort_witness :
  Permutation [dInternal; dMilitary; dDiplomacy]
    (prioritizeActions [dInternal; dMilitary; dDiplomacy])
  /\ StronglySorted (fun a b => (rank a <= rank b)%Z)
       (prioritizeActions [dInternal; dMilitary; dDiplomacy])
  /\ forall r,
       List.filter (fun d => (rank d =? r)%Z)
         (prioritizeActions [dInternal; dMilitary; dDiplomacy])
       = List.filter (fun d => (rank d =? r)%Z)
           [dInternal; dMilitary; dDiplomacy].
Proof.
  apply (proj1 prioritizeActions_stable_sort [dInternal; dMilitary; dDiplomacy]).
  repeat constructor.
Defined.

End PrioritizeClaims.

(** ** Alliances and the special actions *)

Section Alliances.
Import WorldState AgentManager EventResolver Inv Fixtures.

Lemma includes_app (k : string) (l1 l2 : list string) :
  includes k (l1 ++ l2) = includes k l1 || includes k l2.
Proof. unfold includes. apply existsb_app. Qed.

Lemma addAlly_keepsId (k : string) : keepsId (addAlly k).
Proof.
  intros c. unfold addAlly. destruct (includes k (alliances c)); reflexivity.
Qed.

Lemma dropAlly_keepsId (k : string) : keepsId (dropAlly k).
Proof. intros c. reflexivity. Qed.

Lemma addAlly_includes (k : string) (c : country) :
  includes k (alliances (addAlly k c)) = true.
Proof.
  unfold addAlly. destruct (includes k (alliances c)) eqn:E; [exact E|].
  simpl. rewrite includes_app. simpl. rewrite String.eqb_refl.
  apply orb_true_iff. right. reflexivity.
Qed.

Lemma addAlly_keeps (k x : string) (c : country) :
  includes x (alliances c) = true ->
  includes x (alliances (addAlly k c)) = true.
Proof.
  intros H. unfold addAlly. destruct (includes k (alliances c)); [exact H|].
  simpl. rewrite includes_app, H. reflexivity.
Qed.

Lemma filter_excludes (k x : string) (l : list string) :
  includes x (List.filter (fun i => negb (String.eqb i k)) l)
  = includes x l && negb (String.eqb x k).
Proof.
  induction l as [|y l IH]; [reflexivity|].
  simpl. destruct (String.eqb y k) eqn:Ey; simpl.
  - rewrite IH. apply String.eqb_eq in Ey. subst y.
    destruct (String.eqb x k) eqn:Ex; simpl.
    + rewrite andb_false_r. reflexivity.
    + rewrite andb_true_r. reflexivity.
  - rewrite IH. destruct (String.eqb x y) eqn:Exy; simpl; [|reflexivity].
    apply String.eqb_eq in Exy. subst y. rewrite Ey. reflexivity.
Qed.

Lemma dropAlly_excludes (k : string) (c : country) :
  includes k (alliances (dropAlly k c)) = false.
Proof.
  simpl. rewrite filter_excludes, String.eqb_refl. apply andb_false_r.
Qed.

Lemma dropAlly_keeps (k x : string) (c : country) :
  includes x (alliances c) = false ->
  includes x (alliances (dropAlly k c)) = false.
Proof. intros H. simpl. rewrite filter_excludes, H. reflexivity. Qed.

(** The two rewritings of [updateAlliances], one after the other: the
    second runs on the state the first has written, and hits the same
    country when the two ids are equal. *)
Lemma pair_update (P Q : country -> Prop) (f g : country -> country)
  (ws : worldState) (a t : string) (ca ct : country) :
  keepsId f -> keepsId g ->
  findCountry a (countries ws) = Some ca ->
  findCountry t (countries ws) = Some ct ->
  (forall c, P (f c)) -> (forall c, P c -> P (g c)) -> (forall c, Q (g c)) ->
  exists ca' ct',
    findCountry a (countries (withCountry t g (withCountry a f ws))) = Some ca'
    /\ findCountry t (countries (withCountry t g (withCountry a f ws))) = Some ct'
    /\ P ca' /\ Q ct'.
Proof.
  intros Hf Hg Ha Ht HP HPg HQ. simpl.
  rewrite !(findCountry_updCountry _ t g) by exact Hg.
  rewrite !(findCountry_updCountry _ a f) by exact Hf.
  rewrite !String.eqb_refl, Ha.
  destruct (String.eqb t a) eqn:E.
  - apply String.eqb_eq in E. subst t. rewrite String.eqb_refl, Ha. simpl.
    eexists. eexists. repeat split; auto.
  - rewrite String.eqb_sym, E, Ht. simpl.
    eexists. eexists. repeat split; auto.
Qed.

End Alliances.

Section SpecialActionClaims.
Import WorldState AgentManager EventResolver Inv Fixtures.

(** C8. After a decision is resolved, [form_alliance] adds the alliance
    between actor and target, on both sides, only when the resolution
    reports success (a failed one leaves the state as it is), while
    [break_alliance] removes it on both sides whatever the success flag
    says. *)
Theorem handleSpecialActions_alliances :
  forall (ws : worldState) (d : decision) (r : resolution),
    (specificAction d = "form_alliance" -> rsuccess r = false ->
     handleSpecialActions ws d r = ws)
    /\ (specificAction d = "form_alliance" -> rsuccess r = true ->
        handleSpecialActions ws d r
        = updateAlliancesWith ws (actorId d) (target d) "FORM")
    /\ (specificAction d = "break_alliance" ->
        handleSpecialActions ws d r
        = updateAlliancesWith ws (actorId d) (target d) "BREAK")
    /\ (forall t ca ct,
          target d = Some t ->
          findCountry (actorId d) (countries ws) = Some ca ->
          findCountry t (countries ws) = Some ct ->
          (specificAction d = "form_alliance" -> rsuccess r = true ->
           exists ca' ct',
             findCountry (actorId d) (countries (handleSpecialActions ws d r)) = Some ca'
             /\ findCountry t (countries (handleSpecialActions ws d r)) = Some ct'
             /\ includes t (alliances ca') = true
             /\ includes (actorId d) (alliances ct') = true)
          /\ (specificAction d = "break_alliance" ->
              exists ca' ct',
                findCountry (actorId d) (countries (handleSpecialActions ws d r)) = Some ca'
                /\ findCountry t (countries (handleSpecialActions ws d r)) = Some ct'
                /\ includes t (alliances ca') = false
                /\ includes (actorId d) (alliances ct') = false)).
Proof.
  intros ws d r.
  assert (Hform : specificAction d = "form_alliance" -> rsuccess r = true ->
                  handleSpecialActions ws d r
                  = updateAlliancesWith ws (actorId d) (target d) "FORM").
  { intros Hs Hr. unfold handleSpecialActions. rewrite Hs, Hr. reflexivity. }
  assert (Hbreak : specificAction d = "break_alliance" ->
                   handleSpecialActions ws d r
                   = updateAlliancesWith ws (actorId d) (target d) "BREAK").
  { intros Hs. unfold handleSpecialActions. rewrite Hs. reflexivity. }
  split; [|split; [exact Hform|split; [exact Hbreak|]]].
  - intros Hs Hr. unfold handleSpecialActions. rewrite Hs, Hr. reflexivity.
  - intros t ca ct Ht Ha Hfound. split.
    + intros Hs Hr. rewrite (Hform Hs Hr), Ht. simpl.
      unfold updateAlliances. rewrite Ha, Hfound. simpl.
      apply (pair_update (fun c => includes t (alliances c) = true)
               (fun c => includes (actorId d) (alliances c) = true)
               (addAlly t) (addAlly (actorId d)) ws (actorId d) t ca ct);
        auto using addAlly_keepsId, addAlly_includes, addAlly_keeps.
    + intros Hs. rewrite (Hbreak Hs), Ht. simpl.
      unfold updateAlliances. rewrite Ha, Hfound. simpl.
      apply (pair_update (fun c => includes t (alliances c) = false)
               (fun c => includes (actorId d) (alliances c) = false)
               (dropAlly t) (dropAlly (actorId d)) ws (actorId d) t ca ct);
        auto using dropAlly_keepsId, dropAlly_excludes, dropAlly_keeps.
Qed.

Lemma handleSpecialActions_alliances_witness :
  handleSpecialActions twoCountries dForm failed = twoCountries
  /\ (exists ca' ct',
        findCountry "A" (countries (handleSpecialActions twoCountries dForm succeeded)) = Some ca'
        /\ findCountry "B" (countries (handleSpecialActions twoCountries dForm succeeded)) = Some ct'
        /\ includes "B" (alliances ca') = true
        /\ includes "A" (alliances ct') = true)
  /\ (exists ca' ct',
        findCountry "A" (countries (handleSpecialActions allied dBreak failed)) = Some ca'
        /\ findCountry "B" (countries (handleSpecialActions allied dBreak failed)) = Some ct'
        /\ includes "B" (alliances ca') = false
        /\ includes "A" (alliances ct') = false).
Proof.
  split; [|split].
  - apply (proj1 (handleSpecialActions_alliances twoCountries dForm failed));
      reflexivity.
  - apply (proj1 (proj2 (proj2 (proj2
             (handleSpecialActions_alliances twoCountries dForm succeeded)))
             "B" countryA countryB eq_refl eq_refl eq_refl)); reflexivity.
  - apply (proj2 (proj2 (proj2 (proj2
             (handleSpecialActions_alliances allied dBreak failed)))
             "B" (setAlliances countryA ["B"]) (setAlliances countryB ["A"])
             eq_refl eq_refl eq_refl)); reflexivity.
Defined.

End SpecialActionClaims.

(** ** Decision collection *)

Section Collect.
Import WorldState GeminiClient AgentManager Inv Fixtures.

(** [callWithRetry] never returns an object that carries an error. *)
Lemma retryFrom_no_error {A : Type} (call : nat -> callResult A)
  (n i : nat) (r : callResult A) :
  retryFrom call i n = Returned r -> error r = None.
Proof.
  revert i. induction n as [|n IH]; intros i H; simpl in H; [discriminate|].
  destruct (error (call i)) eqn:E.
  - destruct (shouldRetry (call i)); [|discriminate]. exact (IH _ H).
  - injection H as <-. exact E.
Qed.

(** When every attempt fails, [callWithRetry] throws. *)
Lemma retryFrom_fails {A : Type} (call : nat -> callResult A) (n i : nat) :
  (forall j, error (call j) <> None) ->
  exists msg, retryFrom call i n = Thrown msg.
Proof.
  intros Hall. revert i. induction n as [|n IH]; intros i; simpl.
  - eexists. reflexivity.
  - destruct (error (call i)) eqn:E; [|destruct (Hall i E)].
    destruct (shouldRetry (call i)); [apply IH|eexists; reflexivity].
Qed.

(** The decisions of [collectOne] never are the fallback unless the model
    itself answered with it: the branch on [decision.error] is not
    reachable. *)
Lemma collectOne_cases
  (leaderCall : string -> nat -> callResult decisionBody)
  (ws : worldState) (cfg : agentConfig) :
  collectOne leaderCall ws cfg = []
  \/ exists k r,
       countryId cfg = Some k
       /\ callWithRetry (leaderCall (aid cfg)) 3 = Returned r
       /\ error r = None
       /\ collectOne leaderCall ws cfg
          = [mkDecision (default (aid cfg) (bAgentId (body r)))
               (default k (bActorId (body r))) (bAction (body r))
               (bSpecificAction (body r)) (bTarget (body r))].
Proof.
  unfold collectOne.
  destruct (negb (String.eqb (role cfg) "LEADER")); [left; reflexivity|].
  destruct (countryId cfg) as [k|]; [|left; reflexivity].
  destruct (findCountry k (countries ws)) as [c|]; [|left; reflexivity].
  destruct (collapsed c); [left; reflexivity|].
  destruct (callWithRetry (leaderCall (aid cfg)) 3) as [r|msg] eqn:E;
    [|left; reflexivity].
  pose proof (retryFrom_no_error _ _ _ _ E) as Hr. rewrite Hr.
  right. exists k, r. auto.
Qed.

(** An eligible faction whose calls all fail contributes no decision. *)
Lemma collectOne_failure_drops
  (leaderCall : string -> nat -> callResult decisionBody)
  (ws : worldState) (cfg : agentConfig) :
  (forall j, error (leaderCall (aid cfg) j) <> None) ->
  collectOne leaderCall ws cfg = [].
Proof.
  intros Hall.
  destruct (collectOne_cases leaderCall ws cfg) as [H|(k & r & _ & E & _)];
    [exact H|].
  destruct (retryFrom_fails (leaderCall (aid cfg)) 3 0 Hall) as [msg Hmsg].
  unfold callWithRetry in E. congruence.
Qed.

(** C2 (the code departs from the claim). Two eligible factions, [A] and
    [B]; the decision call for the leader of [A] fails, either at once or
    after the three rate-limited attempts.  [collectDecisions] returns the
    decision of [B] alone: the failure of [A] reaches the [catch], which
    pushes nothing, so [A] gets no fallback decision and does not act. *)
Theorem collectDecisions_drops_failed_faction :
  collectDecisions agents leaderOfADown twoCountries
  = [mkDecision "leader_1" "B" "INTERNAL" "stabilize" None]
  /\ collectDecisions agents leaderOfALimited twoCountries
     = [mkDecision "leader_1" "B" "INTERNAL" "stabilize" None]
  /\ ~ In (fallbackDecision "leader_0" "A")
       (collectDecisions agents leaderOfADown twoCountries)
  /\ List.map actorId (collectDecisions agents leaderOfADown twoCountries)
     <> ["A"; "B"].
Proof.
  split; [reflexivity|]. split; [reflexivity|]. split.
  - intros [H|[]]. discriminate H.
  - discriminate.
Qed.

End Collect.

(** ** PERFECT_ORDER and the tick loop *)

Section PerfectOrder.
Import WorldState Metrics RandomEvents AgentManager EventResolver Logger.
Import Simulator Inv TerminationSpec Fixtures CalmRun.

Lemma Forall_lastN {A : Type} (P : A -> Prop) (n : nat) (l : list A) :
  Forall P l -> Forall P (lastN n l).
Proof.
  intros H. rewrite (lastN_suffix n l) in H.
  apply Forall_app in H. apply H.
Qed.

Lemma Forall_kept {A : Type} (P : A -> Prop) (f : A -> bool) (l : list A) :
  Forall P l -> Forall P (List.filter f l).
Proof.
  intros H. induction H as [|x l Hx Hl IH]; simpl; [constructor|].
  destruct (f x); [constructor; assumption|exact IH].
Qed.

Lemma Forall_pushBounded {A : Type} (P : A -> Prop) (n : nat) (l : list A)
  (x : A) :
  Forall P l -> P x -> Forall P (pushBounded n l x).
Proof.
  intros Hl Hx. unfold pushBounded.
  assert (H : Forall P (l ++ [x])).
  { apply Forall_app. split; [exact Hl|]. constructor; [exact Hx|constructor]. }
  destruct (n <? length (l ++ [x]))%nat; [apply Forall_lastN|]; exact H.
Qed.

Lemma addEvent_noIndex (ws : worldState) (e : event) :
  noIndex ws -> untagged e -> noIndex (addEvent ws e).
Proof.
  intros Hws He. unfold noIndex, addEvent. simpl.
  apply Forall_pushBounded; [exact Hws|exact He].
Qed.

Lemma addEvents_noIndex (es : list event) (ws : worldState) :
  noIndex ws -> Forall untagged es -> noIndex (fold_left addEvent es ws).
Proof.
  revert ws. induction es as [|e es IH]; intros ws Hws Hes; simpl.
  - exact Hws.
  - inversion Hes as [|? ? He Hrest]; subst.
    apply IH; [apply addEvent_noIndex; assumption|exact Hrest].
Qed.

(** A log without stability indices never satisfies condition 4. *)
Lemma noIndex_perfectOrder (ws : worldState) :
  noIndex ws -> perfectOrder ws = false.
Proof.
  intros H. unfold perfectOrder.
  assert (Hall : Forall (fun q => q = 0%Q) (recentStability ws)).
  { unfold recentStability. apply Forall_map.
    apply Forall_kept. apply Forall_lastN.
    eapply Forall_impl; [exact H|].
    intros e He. unfold untagged in He. rewrite He. reflexivity. }
  destruct (recentStability ws) as [|q l]; [reflexivity|].
  inversion Hall as [|? ? Hq _]; subst. simpl.
  apply andb_false_r.
Qed.

Lemma resolveOne_untagged (cfgs : string -> lookup)
  (call : decision -> nat -> GeminiClient.callResult resolution)
  (acc : resolved) (d : decision) :
  Forall untagged (events acc) ->
  Forall untagged (events (resolveOne cfgs call acc d))
  /\ globalEvents (world (resolveOne cfgs call acc d))
     = globalEvents (world acc).
Proof.
  intros H. unfold resolveOne.
  destruct (cfgs (actorId d)) as [msg|[cfg|]]; simpl.
  - split; [|reflexivity]. apply Forall_app. split; [exact H|].
    constructor; [reflexivity|constructor].
  - split; [|apply globalEvents_handleSpecialActions].
    apply Forall_app. split; [exact H|].
    constructor; [reflexivity|constructor].
  - split; [exact H|reflexivity].
Qed.

Lemma resolveActions_untagged (cfgs : string -> lookup)
  (call : decision -> nat -> GeminiClient.callResult resolution)
  (ws : worldState) (ds : list decision) :
  Forall untagged (events (resolveActions cfgs call ws ds))
  /\ globalEvents (world (resolveActions cfgs call ws ds)) = globalEvents ws.
Proof.
  unfold resolveActions.
  assert (Hgen : forall l acc,
             Forall untagged (events acc) ->
             Forall untagged (events (fold_left (resolveOne cfgs call) l acc))
             /\ globalEvents (world (fold_left (resolveOne cfgs call) l acc))
                = globalEvents (world acc)).
  { induction l as [|d l IH]; intros acc Hacc; simpl.
    - split; [exact Hacc|reflexivity].
    - destruct (resolveOne_untagged cfgs call acc d Hacc) as [H1 H2].
      destruct (IH _ H1) as [H3 H4]. split; [exact H3|].
      rewrite H4. exact H2. }
  apply (Hgen _ (mkResolved [] [] [] ws)). constructor.
Qed.

Lemma describe_untagged (ws : worldState) (class : Z) (r : Q) (e : event) :
  describe ws class r = Some (Some e) -> untagged e.
Proof.
  unfold describe. intros H.
  repeat match type of H with
         | (if ?b then _ else _) = _ => destruct b
         | match ?x with _ => _ end = _ => destruct x
         end;
    try discriminate; injection H as <-; reflexivity.
Qed.

Lemma generateRandomEvent_untagged (ws : worldState) (tk : Z) (rnd : draws)
  (e : event) :
  generateRandomEvent ws tk rnd = Some (Some e) -> untagged e.
Proof.
  unfold generateRandomEvent. intros H.
  destruct (Qltb (1 # 10) (gate rnd)); [discriminate|].
  destruct (describe ws _ _) as [[e0|]|] eqn:E; try discriminate.
  injection H as <-. exact (describe_untagged _ _ _ _ E).
Qed.

Lemma runPhases_noIndex (o : oracle) (s : simulator) (ws1 : worldState) :
  noIndex ws1 -> noIndex (stored (runPhases o s ws1)).
Proof.
  intros H. unfold runPhases.
  set (res := resolveActions _ _ ws1 _).
  destruct (resolveActions_untagged (getActorConfig o) (resolverCall o) ws1
              (collectDecisions (clients s) (leaderCall o) ws1)) as [Hev Hw].
  fold res in Hev, Hw.
  assert (Hlog : noIndex
            (fold_left addEvent (events res)
               (applyTensionChanges (applyChanges (world res) (allChanges res))
                  (allTensionChanges res)))).
  { apply addEvents_noIndex; [|exact Hev]. unfold noIndex.
    rewrite globalEvents_applyTensionChanges, globalEvents_applyChanges, Hw.
    exact H. }
  destruct (terminate _); exact Hlog.
Qed.

Lemma executeTick_noIndex (o : oracle) (s : simulator) :
  noIndex (stored s) -> noIndex (stored (executeTick o s)).
Proof.
  intros H. unfold executeTick.
  destruct (negb _); [exact H|].
  destruct (generateRandomEvent _ _ _) as [[e|]|] eqn:E.
  - apply runPhases_noIndex. unfold noIndex.
    rewrite globalEvents_applyChanges.
    apply addEvent_noIndex; [exact H|].
    exact (generateRandomEvent_untagged _ _ _ _ E).
  - apply runPhases_noIndex. exact H.
  - exact H.
Qed.

(** No state that the tick loop reaches holds a log entry with a stability
    index, so condition 4 is false in all of them. *)
Lemma reachable_noIndex (ags : list agentConfig) (cs : list country)
  (s : simulator) :
  reachable ags cs s -> noIndex (stored s).
Proof.
  intros H. induction H as [|o s Hs IH].
  - constructor.
  - apply executeTick_noIndex. exact IH.
Qed.

Lemma reachable_never_perfect (ags : list agentConfig) (cs : list country)
  (s : simulator) (maxYears : Z) :
  reachable ags cs s ->
  perfectOrder (stored s) = false
  /\ why (shouldTerminate (stored s) maxYears) <> Some PERFECT_ORDER.
Proof.
  intros H. pose proof (noIndex_perfectOrder _ (reachable_noIndex _ _ _ H)) as Hp.
  split; [exact Hp|].
  rewrite shouldTerminate_firstTrue. simpl. rewrite Hp.
  destruct (timeLimit _ _); [discriminate|].
  destruct (hegemony _); [discriminate|].
  destruct (totalCollapse _); discriminate.
Qed.

Lemma ticks_reachable (ags : list agentConfig) (cs : list country)
  (os : list oracle) (s : simulator) :
  reachable ags cs s -> reachable ags cs (ticks os s).
Proof.
  revert s. induction os as [|o os IH]; intros s H; simpl; [exact H|].
  apply IH. constructor. exact H.
Qed.

End PerfectOrder.

Section PerfectOrderWindow.
Import WorldState Metrics Inv TerminationSpec.

Lemma filter_all {A : Type} (f : A -> bool) (l : list A) :
  (length l <= length (List.filter f l))%nat ->
  List.filter f l = l /\ Forall (fun x => f x = true) l.
Proof.
  induction l as [|x l IH]; simpl; intros H; [split; constructor|].
  pose proof (List.filter_length_le f l) as Hle.
  destruct (f x) eqn:E; simpl in H.
  - destruct IH as [IH1 IH2]; [lia|]. rewrite IH1.
    split; [reflexivity|constructor; assumption].
  - lia.
Qed.

Lemma lastN_app_exact {A : Type} (n : nat) (l1 l2 : list A) :
  length l2 = n -> lastN n (l1 ++ l2) = l2.
Proof.
  intros H. unfold lastN. rewrite length_app, H.
  replace (length l1 + n - n)%nat with (length l1 + 0)%nat by lia.
  rewrite skipn_app, Nat.add_0_r, skipn_all.
  replace (length l1 - length l1)%nat with 0%nat by lia. reflexivity.
Qed.

(** What condition 4 of the code tests: the log has at least 20 entries and
    each of its last 20 entries, of whatever kind, is a tick summary that
    reports at least 95. *)
Lemma perfectOrder_window (ws : worldState) :
  perfectOrder ws = true
  <-> (20 <= length (globalEvents ws))%nat
      /\ Forall (fun e => calmSummary e = true) (lastN 20 (globalEvents ws)).
Proof.
  unfold perfectOrder, recentStability.
  set (win := lastN 20 (globalEvents ws)).
  set (isSum := fun e : event => String.eqb (type e) "TICK_SUMMARY").
  assert (Hwin : length win = Nat.min 20 (length (globalEvents ws)))
    by apply lastN_length.
  rewrite andb_true_iff, Nat.leb_le, length_map, forallb_forall.
  split.
  - intros [Hlen Hall].
    pose proof (List.filter_length_le isSum win) as Hle.
    destruct (filter_all isSum win) as [Heq Hsum]; [lia|].
    rewrite Heq in Hlen, Hall. split; [lia|].
    apply Forall_forall. intros e He. unfold calmSummary.
    rewrite Forall_forall in Hsum. fold (isSum e). rewrite (Hsum e He). simpl.
    apply Hall. apply in_map_iff. exists e. split; [reflexivity|].
    apply list_elem_of_In. exact He.
  - intros [Hlen Hall].
    assert (Heq : List.filter isSum win = win).
    { apply filter_all. clear -Hall. induction Hall as [|e l He _ IH]; simpl.
      - lia.
      - unfold calmSummary in He. apply andb_true_iff in He.
        unfold isSum at 1. rewrite (proj1 He). simpl. lia. }
    rewrite Heq. split; [lia|].
    intros q Hq. apply in_map_iff in Hq. destruct Hq as (e & <- & He).
    rewrite Forall_forall in Hall. apply list_elem_of_In in He.
    specialize (Hall e He).
    unfold calmSummary in Hall. apply andb_true_iff in Hall. apply Hall.
Qed.

(** When the code finds condition 4, the condition of the specification
    holds: the last 20 tick summaries are the last 20 entries. *)
Lemma perfectOrder_sound (ws : worldState) :
  perfectOrder ws = true -> last20SummariesCalm (globalEvents ws).
Proof.
  intros H. apply perfectOrder_window in H. destruct H as [Hlen Hall].
  unfold last20SummariesCalm, tickSummaries.
  set (isSum := fun e : event => String.eqb (type e) "TICK_SUMMARY").
  rewrite (lastN_suffix 20 (globalEvents ws)), List.filter_app.
  assert (Heq : List.filter isSum (lastN 20 (globalEvents ws))
                = lastN 20 (globalEvents ws)).
  { apply filter_all. clear -Hall.
    induction Hall as [|e l He _ IH]; simpl; [lia|].
    unfold calmSummary in He. apply andb_true_iff in He.
    unfold isSum at 1. rewrite (proj1 He). simpl. lia. }
  rewrite Heq.
  assert (Hl : length (lastN 20 (globalEvents ws)) = 20%nat)
    by (rewrite lastN_length; lia).
  split.
  - rewrite length_app. lia.
  - rewrite (lastN_app_exact 20 _ _ Hl).
    eapply Forall_impl; [exact Hall|].
    intros e He. unfold calmSummary in He. apply andb_true_iff in He.
    apply Qle_bool_iff. apply He.
Qed.

End PerfectOrderWindow.

Section PerfectOrderClaim.
Import WorldState Metrics AgentManager Logger Simulator.
Import Inv TerminationSpec Fixtures CalmRun.

(** C1 (the code departs from the claim). Twenty ticks of a calm run: the
    state is reached by the tick loop, its twenty tick summaries all report
    a stability index of 100, and [shouldTerminate] does not terminate,
    because the summaries are written to [event_logs] and never to
    [globalEvents], the log that condition 4 reads.  And on a log that does
    hold twenty tick summaries reporting 100, followed by one war event, the
    most recent 20 tick summaries all report at least 95 and
    [shouldTerminate] does not terminate either: the code takes the last 20
    entries of any kind before it keeps the tick summaries. *)
Theorem perfect_order_does_not_fire :
  reachable agents [countryA; countryB] calmRun
  /\ List.map lstabilityIndex (loggedSummaries calmRun) = repeat (Some 100%Q) 20
  /\ status (stored calmRun) = "RUNNING"
  /\ shouldTerminate (stored calmRun) 1000 = goOn
  /\ last20SummariesCalm (globalEvents calmThenWar)
  /\ shouldTerminate calmThenWar 1000 = goOn.
Proof.
  split; [|split; [|split; [|split; [|split]]]].
  - apply ticks_reachable. constructor.
  - vm_compute. reflexivity.
  - vm_compute. reflexivity.
  - vm_compute. reflexivity.
  - split.
    + apply Nat.leb_le. vm_compute. reflexivity.
    + apply Forall_forall. intros e He.
      assert (Hcalm : forallb (fun e => Qle_bool 95 (orZero (stabilityIndex e)))
                        (lastN 20 (tickSummaries (globalEvents calmThenWar)))
                      = true) by (vm_compute; reflexivity).
      rewrite forallb_forall in Hcalm. apply Qle_bool_iff. apply Hcalm.
      apply list_elem_of_In. exact He.
  - vm_compute. reflexivity.
Qed.

End PerfectOrderClaim.

(** * Further properties of the engine *)

(** ** Rewriting countries: what stays *)

Section Frame.
Import Models WorldState Inv Laws.

Lemma updCountry_ids (k : string) (f : country -> country)
  (cs : list country) :
  keepsId f -> List.map cid (updCountry k f cs) = List.map cid cs.
Proof.
  intros Hf. induction cs as [|c cs IH]; simpl; [reflexivity|].
  destruct (String.eqb (cid c) k); simpl.
  - rewrite Hf. reflexivity.
  - rewrite IH. reflexivity.
Qed.

Lemma updCountry_fix (k : string) (f : country -> country)
  (cs : list country) :
  (forall c, findCountry k cs = Some c -> f c = c) ->
  updCountry k f cs = cs.
Proof.
  induction cs as [|c cs IH]; simpl; intros H; [reflexivity|].
  destruct (String.eqb (cid c) k).
  - rewrite (H c eq_refl). reflexivity.
  - rewrite (IH H). reflexivity.
Qed.

Lemma updCountry_absent (k : string) (f : country -> country)
  (cs : list country) :
  findCountry k cs = None -> updCountry k f cs = cs.
Proof.
  intros H. apply updCountry_fix. intros c Hc. congruence.
Qed.

Lemma updCountry_compose (k : string) (f g : country -> country)
  (cs : list country) :
  keepsId g ->
  updCountry k f (updCountry k g cs) = updCountry k (fun c => f (g c)) cs.
Proof.
  intros Hg. induction cs as [|c cs IH]; simpl; [reflexivity|].
  destruct (String.eqb (cid c) k) eqn:E; simpl.
  - rewrite Hg, E. reflexivity.
  - rewrite E, IH. reflexivity.
Qed.

Lemma updCountry_comm (k k' : string) (f g : country -> country)
  (cs : list country) :
  k <> k' -> keepsId f -> keepsId g ->
  updCountry k f (updCountry k' g cs) = updCountry k' g (updCountry k f cs).
Proof.
  intros Hne Hf Hg. induction cs as [|c cs IH]; simpl; [reflexivity|].
  destruct (String.eqb (cid c) k') eqn:E'; destruct (String.eqb (cid c) k) eqn:E;
    simpl.
  - apply String.eqb_eq in E, E'. congruence.
  - rewrite Hg, E, E'. reflexivity.
  - rewrite Hf, E, E'. reflexivity.
  - rewrite E, E', IH. reflexivity.
Qed.

Lemma updCountry_lookup_other (k : string) (f : country -> country)
  (cs : list country) (i : nat) (c : country) :
  cs !! i = Some c -> cid c <> k -> updCountry k f cs !! i = Some c.
Proof.
  revert i. induction cs as [|c0 cs IH]; intros i Hi Hne; [discriminate|].
  simpl. destruct i as [|i]; simpl in Hi.
  - injection Hi as ->. apply String.eqb_neq in Hne. rewrite Hne. reflexivity.
  - destruct (String.eqb (cid c0) k); simpl; [exact Hi|].
    apply IH; assumption.
Qed.

Lemma sameFrame_refl (ws : worldState) : sameFrame ws ws.
Proof. repeat split. Qed.

Lemma sameFrame_trans (a b c : worldState) :
  sameFrame a b -> sameFrame b c -> sameFrame a c.
Proof.
  intros (H1 & H2 & H3 & H4 & H5) (K1 & K2 & K3 & K4 & K5).
  repeat split; congruence.
Qed.

Lemma sameFrame_withCountry (k : string) (f : country -> country)
  (ws : worldState) :
  keepsId f -> sameFrame ws (withCountry k f ws).
Proof.
  intros Hf. repeat split. simpl. apply updCountry_ids. exact Hf.
Qed.

Lemma sameFrame_applyChanges (ch : changes) (ws : worldState) :
  sameFrame ws (applyChanges ws ch).
Proof.
  revert ws. unfold applyChanges.
  induction ch as [|e ch IH]; intros ws; simpl; [apply sameFrame_refl|].
  eapply sameFrame_trans; [|apply IH].
  apply sameFrame_withCountry, applyDeltas_keepsId.
Qed.


End Frame.

Section FrameProperties.
Import Models WorldState Inv Laws Fixtures.



End FrameProperties.

(** ** updateAlliances as an operation on the relation *)

Section AllianceLaws.
Import Models WorldState Inv Laws Fixtures.

Lemma addAlly_member (k y : string) (c : country) :
  includes y (alliances (addAlly k c))
  = includes y (alliances c) || String.eqb y k.
Proof.
  unfold addAlly. destruct (includes k (alliances c)) eqn:E; simpl.
  - destruct (String.eqb y k) eqn:Ey; [|rewrite orb_false_r; reflexivity].
    apply String.eqb_eq in Ey. subst y. rewrite E. reflexivity.
  - rewrite includes_app. simpl. rewrite orb_false_r. reflexivity.
Qed.

Lemma dropAlly_member (k y : string) (c : country) :
  includes y (alliances (dropAlly k c))
  = includes y (alliances c) && negb (String.eqb y k).
Proof. simpl. apply filter_excludes. Qed.

Lemma addAlly_fix (k : string) (c : country) :
  includes k (alliances c) = true -> addAlly k c = c.
Proof. intros H. unfold addAlly. rewrite H. reflexivity. Qed.

Lemma filter_absent (k : string) (l : list string) :
  includes k l = false ->
  List.filter (fun i => negb (String.eqb i k)) l = l.
Proof.
  induction l as [|y l IH]; simpl; intros H; [reflexivity|].
  apply orb_false_iff in H. destruct H as [Hy Hl].
  rewrite String.eqb_sym, Hy. simpl. rewrite (IH Hl). reflexivity.
Qed.

Lemma dropAlly_fix (k : string) (c : country) :
  includes k (alliances c) = false -> dropAlly k c = c.
Proof.
  intros H. unfold dropAlly. rewrite (filter_absent _ _ H).
  destruct c. reflexivity.
Qed.

Lemma dropAlly_addAlly (k : string) (c : country) :
  includes k (alliances c) = false -> dropAlly k (addAlly k c) = c.
Proof.
  intros H. unfold addAlly. rewrite H. unfold dropAlly. simpl.
  rewrite List.filter_app, (filter_absent _ _ H). simpl.
  rewrite String.eqb_refl. simpl. rewrite app_nil_r. destruct c. reflexivity.
Qed.

(** A second identical rewriting of a pair changes nothing when the first
    already reached its fixed point on both countries. *)
Lemma pair_update_again (f g : country -> country) (ws : worldState)
  (a t : string) (ca ct : country) :
  keepsId f -> keepsId g ->
  findCountry a (countries ws) = Some ca ->
  findCountry t (countries ws) = Some ct ->
  (forall c, f (f c) = f c) -> (forall c, g (g c) = g c) ->
  (forall c, f (g (f c)) = g (f c)) ->
  let ws' := withCountry t g (withCountry a f ws) in
  withCountry t g (withCountry a f ws') = ws'.
Proof.
  intros Hf Hg Ha Ht Hff Hgg Hfgf ws'.
  assert (Hfa : forall c, findCountry a (countries ws') = Some c -> f c = c).
  { intros c. unfold ws'. simpl.
    rewrite (findCountry_updCountry _ t g) by exact Hg.
    rewrite (findCountry_updCountry _ a f) by exact Hf.
    rewrite String.eqb_refl, Ha. simpl.
    destruct (String.eqb t a); simpl; intros [= <-]; auto. }
  assert (Hgt : forall c, findCountry t (countries ws') = Some c -> g c = c).
  { intros c. unfold ws'. simpl.
    rewrite (findCountry_updCountry _ t g) by exact Hg.
    rewrite String.eqb_refl.
    rewrite (findCountry_updCountry _ a f) by exact Hf.
    destruct (String.eqb a t); [rewrite Ht|rewrite Ht];
      simpl; intros [= <-]; auto. }
  unfold withCountry at 2. rewrite (updCountry_fix _ _ _ Hfa).
  unfold withCountry at 1. simpl.
  change (updCountry t g (updCountry a f (countries ws))) with (countries ws').
  rewrite (updCountry_fix _ _ _ Hgt). reflexivity.
Qed.

End AllianceLaws.

Section AllianceProperties.
Import Models WorldState Inv Laws Fixtures.

Lemma findCountry_pair (f g : country -> country) (ws : worldState)
  (a t x : string) :
  keepsId f -> keepsId g ->
  findCountry x (countries (withCountry t g (withCountry a f ws)))
  = (fun c => (if String.eqb t x then g else fun c => c)
                ((if String.eqb a x then f else fun c => c) c))
      <$> findCountry x (countries ws).
Proof.
  intros Hf Hg. simpl.
  rewrite (findCountry_updCountry _ t g) by exact Hg.
  rewrite (findCountry_updCountry _ a f) by exact Hf.
  destruct (String.eqb t x), (String.eqb a x),
    (findCountry x (countries ws)); reflexivity.
Qed.

(** X2. [updateAlliances] is idempotent: forming an alliance that is
    already formed, or breaking one that is already broken, returns the same
    state, so each side lists the other at most once more than before. *)
Theorem updateAlliances_idempotent :
  forall (ws : worldState) (a b act : string),
    updateAlliances (updateAlliances ws a b act) a b act
    = updateAlliances ws a b act.
Proof.
  intros ws a b act. unfold updateAlliances at 2.
  destruct (findCountry a (countries ws)) as [ca|] eqn:Ha.
  2:{ unfold updateAlliances. rewrite Ha. reflexivity. }
  destruct (findCountry b (countries ws)) as [cb|] eqn:Hb.
  2:{ unfold updateAlliances. rewrite Ha, Hb. reflexivity. }
  destruct (String.eqb act "FORM") eqn:Ef.
  - unfold updateAlliances.
    rewrite !findCountry_pair by apply addAlly_keepsId.
    rewrite Ha, Hb, Ef. simpl.
    apply (pair_update_again (addAlly b) (addAlly a) ws a b ca cb);
      auto using addAlly_keepsId.
    + intros c. apply addAlly_fix, addAlly_includes.
    + intros c. apply addAlly_fix, addAlly_includes.
    + intros c. apply addAlly_fix. rewrite addAlly_member, addAlly_includes.
      reflexivity.
  - destruct (String.eqb act "BREAK") eqn:Eb.
    + unfold updateAlliances.
      rewrite !findCountry_pair by apply dropAlly_keepsId.
      rewrite Ha, Hb, Ef, Eb. simpl.
      apply (pair_update_again (dropAlly b) (dropAlly a) ws a b ca cb);
        auto using dropAlly_keepsId.
      * intros c. apply dropAlly_fix, dropAlly_excludes.
      * intros c. apply dropAlly_fix, dropAlly_excludes.
      * intros c. apply dropAlly_fix, dropAlly_keeps, dropAlly_excludes.
    + unfold updateAlliances. rewrite Ha, Hb, Ef, Eb. reflexivity.
Qed.

(** X3. Breaking an alliance right after forming it is a round trip: when
    neither country listed the other before, the state is back to what it
    was. *)
Theorem updateAlliances_form_then_break :
  forall (ws : worldState) (a b : string) (ca cb : country),
    findCountry a (countries ws) = Some ca ->
    findCountry b (countries ws) = Some cb ->
    includes b (alliances ca) = false ->
    includes a (alliances cb) = false ->
    updateAlliances (updateAlliances ws a b "FORM") a b "BREAK" = ws.
Proof.
  intros ws a b ca cb Ha Hb Hab Hba.
  unfold updateAlliances at 2. rewrite Ha, Hb. simpl.
  unfold updateAlliances.
  rewrite !findCountry_pair by apply addAlly_keepsId.
  rewrite Ha, Hb. simpl. unfold withCountry. simpl.
  assert (Hgoal :
    updCountry b (dropAlly a)
      (updCountry a (dropAlly b)
         (updCountry b (addAlly a) (updCountry a (addAlly b) (countries ws))))
    = countries ws).
  { destruct (String.eqb a b) eqn:E.
    - apply String.eqb_eq in E. subst b.
      assert (cb = ca) by congruence. subst cb.
      rewrite !updCountry_compose
        by (intros c; repeat first [rewrite dropAlly_keepsId
                                   |rewrite addAlly_keepsId]; reflexivity).
      apply updCountry_fix. intros c Hc.
      assert (c = ca) by congruence. subst c.
      rewrite (addAlly_fix a (addAlly a ca)) by apply addAlly_includes.
      rewrite (dropAlly_addAlly a ca Hab).
      apply dropAlly_fix. exact Hab.
    - apply String.eqb_neq in E.
      rewrite (updCountry_comm a b (dropAlly b) (addAlly a))
        by auto using dropAlly_keepsId, addAlly_keepsId.
      rewrite (updCountry_compose a (dropAlly b) (addAlly b))
        by apply addAlly_keepsId.
      rewrite (updCountry_fix a (fun c => dropAlly b (addAlly b c))).
      2:{ intros c Hc. assert (c = ca) by congruence. subst c.
          apply dropAlly_addAlly. exact Hab. }
      rewrite (updCountry_compose b (dropAlly a) (addAlly a))
        by apply addAlly_keepsId.
      apply updCountry_fix. intros c Hc.
      assert (c = cb) by congruence. subst c.
      apply dropAlly_addAlly. exact Hba. }
  rewrite Hgoal. destruct ws. reflexivity.
Qed.

Lemma updateAlliances_form_then_break_witness :
  updateAlliances (updateAlliances twoCountries "A" "B" "FORM") "A" "B" "BREAK"
  = twoCountries.
Proof.
  apply (updateAlliances_form_then_break twoCountries "A" "B" countryA countryB);
    reflexivity.
Defined.

Lemma updateAlliances_symmetric (ws : worldState) (a b act : string) :
  alliesSymmetric ws -> alliesSymmetric (updateAlliances ws a b act).
Proof.
  intros Hsym. unfold updateAlliances.
  destruct (findCountry a (countries ws)) as [ca|] eqn:Ha; [|exact Hsym].
  destruct (findCountry b (countries ws)) as [cb|] eqn:Hb; [|exact Hsym].
  destruct (String.eqb act "FORM").
  - intros x y cx cy.
    rewrite !findCountry_pair by apply addAlly_keepsId.
    destruct (findCountry x (countries ws)) as [cx0|] eqn:Hx; [|discriminate].
    destruct (findCountry y (countries ws)) as [cy0|] eqn:Hy; [|discriminate].
    intros Hcx Hcy. cbn in Hcx, Hcy.
    injection Hcx as <-. injection Hcy as <-.
    pose proof (Hsym x y cx0 cy0 Hx Hy) as H0.
    rewrite (String.eqb_sym b x), (String.eqb_sym a x),
      (String.eqb_sym b y), (String.eqb_sym a y).
    destruct (String.eqb x b) eqn:Exb, (String.eqb x a) eqn:Exa,
      (String.eqb y b) eqn:Eyb, (String.eqb y a) eqn:Eya;
      rewrite ?addAlly_member, ?Exb, ?Exa, ?Eyb, ?Eya, H0;
      destruct (includes x (alliances cy0)); reflexivity.
  - destruct (String.eqb act "BREAK"); [|exact Hsym].
    intros x y cx cy.
    rewrite !findCountry_pair by apply dropAlly_keepsId.
    destruct (findCountry x (countries ws)) as [cx0|] eqn:Hx; [|discriminate].
    destruct (findCountry y (countries ws)) as [cy0|] eqn:Hy; [|discriminate].
    intros Hcx Hcy. cbn in Hcx, Hcy.
    injection Hcx as <-. injection Hcy as <-.
    pose proof (Hsym x y cx0 cy0 Hx Hy) as H0.
    rewrite (String.eqb_sym b x), (String.eqb_sym a x),
      (String.eqb_sym b y), (String.eqb_sym a y).
    destruct (String.eqb x b) eqn:Exb, (String.eqb x a) eqn:Exa,
      (String.eqb y b) eqn:Eyb, (String.eqb y a) eqn:Eya;
      rewrite ?dropAlly_member, ?Exb, ?Exa, ?Eyb, ?Eya, H0;
      destruct (includes x (alliances cy0)); reflexivity.
Qed.

(** X4. [updateAlliances] keeps the alliance relation symmetric: when, for
    any two countries of the state, each lists the other or neither does,
    the same holds after forming or breaking any alliance. *)
Theorem updateAlliances_keeps_symmetry :
  forall (ws : worldState) (a b act : string),
    alliesSymmetric ws -> alliesSymmetric (updateAlliances ws a b act).
Proof.
  intros ws a b act Hsym. apply updateAlliances_symmetric. exact Hsym.
Qed.

Lemma twoCountries_symmetric : alliesSymmetric twoCountries.
Proof.
  assert (Hnone : forall k c,
             findCountry k (countries twoCountries) = Some c ->
             alliances c = []).
  { intros k c.
    change (countries twoCountries) with [countryA; countryB].
    unfold findCountry, List.find.
    change (cid countryA) with "A". change (cid countryB) with "B".
    destruct (String.eqb "A" k); [intros H; injection H as <-; reflexivity|].
    destruct (String.eqb "B" k); [intros H; injection H as <-; reflexivity|].
    discriminate. }
  intros x y cx cy Hx Hy.
  rewrite (Hnone x cx Hx), (Hnone y cy Hy). reflexivity.
Defined.

Lemma updateAlliances_keeps_symmetry_witness :
  alliesSymmetric (updateAlliances twoCountries "A" "B" "FORM").
Proof.
  apply (updateAlliances_keeps_symmetry twoCountries "A" "B" "FORM").
  exact twoCountries_symmetric.
Defined.

End AllianceProperties.

(** ** The event log over several pushes *)

Section LogComposition.
Import Models WorldState Inv Laws Fixtures.

Lemma pushBounded_lastN {A : Type} (n : nat) (l : list A) (x : A) :
  pushBounded n l x = lastN n (l ++ [x]).
Proof.
  unfold pushBounded, lastN.
  destruct (n <? length (l ++ [x]))%nat eqn:E; [reflexivity|].
  apply Nat.ltb_ge in E.
  replace (length (l ++ [x]) - n)%nat with 0%nat by lia. reflexivity.
Qed.

Lemma lastN_absorb {A : Type} (n : nat) (l m : list A) :
  lastN n (lastN n l ++ m) = lastN n (l ++ m).
Proof.
  destruct (Nat.le_gt_cases (length l) n) as [Hle|Hgt].
  - unfold lastN at 2.
    replace (length l - n)%nat with 0%nat by lia. reflexivity.
  - unfold lastN. rewrite !length_app, length_skipn.
    rewrite !skipn_app, length_skipn, skipn_skipn.
    f_equal; f_equal; lia.
Qed.

Lemma stampEvent_addEvent (ws : worldState) (e e' : event) :
  stampEvent (addEvent ws e) e' = stampEvent ws e'.
Proof. reflexivity. Qed.

Lemma addEvents_log (es : list event) (ws : worldState) :
  (length (globalEvents ws) <= 100)%nat ->
  globalEvents (fold_left addEvent es ws)
  = lastN 100 (globalEvents ws ++ List.map (stampEvent ws) es).
Proof.
  revert ws. induction es as [|e es IH]; intros ws Hlen; simpl.
  - rewrite app_nil_r. unfold lastN.
    replace (length (globalEvents ws) - 100)%nat with 0%nat by lia.
    reflexivity.
  - rewrite IH by apply pushBounded_length.
    simpl globalEvents at 1. rewrite pushBounded_lastN, lastN_absorb.
    rewrite <- app_assoc. reflexivity.
Qed.

(** X5. Adding events one by one, truncating after each, gives the same
    log as appending them all, each stamped with the tick and year of the
    state, and keeping the last 100 once; tick, year, countries and status
    are not touched. *)
Theorem addEvent_many :
  forall (ws : worldState) (es : list event),
    (length (globalEvents ws) <= 100)%nat ->
    globalEvents (fold_left addEvent es ws)
    = lastN 100 (globalEvents ws ++ List.map (stampEvent ws) es)
    /\ tick (fold_left addEvent es ws) = tick ws
    /\ year (fold_left addEvent es ws) = year ws
    /\ countries (fold_left addEvent es ws) = countries ws
    /\ status (fold_left addEvent es ws) = status ws.
Proof.
  intros ws es Hlen. split; [apply addEvents_log; exact Hlen|].
  clear Hlen. revert ws. induction es as [|e es IH]; intros ws; simpl.
  - repeat split.
  - destruct (IH (addEvent ws e)) as (H1 & H2 & H3 & H4).
    rewrite H1, H2, H3, H4. repeat split.
Qed.

Lemma addEvent_many_witness :
  globalEvents (fold_left addEvent [plainEvent "PEACE"; plainEvent "WAR"] fullLogs)
  = lastN 100 (globalEvents fullLogs
               ++ List.map (stampEvent fullLogs) [plainEvent "PEACE"; plainEvent "WAR"]).
Proof.
  apply (addEvent_many fullLogs [plainEvent "PEACE"; plainEvent "WAR"]).
  apply Nat.leb_le. vm_compute. reflexivity.
Defined.

End LogComposition.

(** ** applyTensionChanges: missing countries and the range of tensions *)

Section TensionProperties.
Import Models WorldState Inv Laws Fixtures.

Lemma sameFrame_applyTensionEntry (a t : string) (d : Q) (ws : worldState) :
  sameFrame ws (applyTensionEntry a t d ws).
Proof.
  unfold applyTensionEntry.
  eapply sameFrame_trans; apply sameFrame_withCountry, bumpTension_keepsId.
Qed.

Lemma sameFrame_applyTensionChanges (tc : tensionChanges) (ws : worldState) :
  sameFrame ws (applyTensionChanges ws tc).
Proof.
  revert ws. unfold applyTensionChanges.
  induction tc as [|e tc IH]; intros ws; simpl; [apply sameFrame_refl|].
  eapply sameFrame_trans; [|apply IH].
  destruct (findCountry (fst e) (countries ws)); [|apply sameFrame_refl].
  generalize ws. induction (snd e) as [|t l IHl]; intros ws0; simpl.
  - apply sameFrame_refl.
  - eapply sameFrame_trans; [apply sameFrame_applyTensionEntry|apply IHl].
Qed.

Lemma entriesOf_filter (ws : worldState) (tc : tensionChanges) :
  entriesOf ws (List.filter (fun e => hasCountry ws (fst e)) tc)
  = entriesOf ws tc.
Proof.
  unfold entriesOf, hasCountry. induction tc as [|e tc IH]; [reflexivity|].
  simpl. destruct (findCountry (fst e) (countries ws)) eqn:E; simpl.
  - rewrite E, IH. reflexivity.
  - exact IH.
Qed.

(** X6. Tension deltas that name a missing country, in any mapping: the
    entries of the actors that are no country of the state may be struck
    from the mapping without changing the result, so that they write
    nothing, not even the cells of existing targets; and when
    [applyTensionChanges] comes to an entry for a target that is no
    country, the step is the update of the actor's cell alone, which leaves
    every other country as it was. *)
Theorem applyTensionChanges_missing :
  forall (ws : worldState),
    (forall tc,
        applyTensionChanges ws tc
        = applyTensionChanges ws
            (List.filter (fun e => hasCountry ws (fst e)) tc))
    /\ (forall tc pre post a t d,
          entriesOf ws tc = pre ++ (a, t, d) :: post ->
          findCountry t (countries ws) = None ->
          let before := afterEntries ws pre in
          let after := applyTensionEntry a t d before in
          after = withCountry a (bumpTension t d) before
          /\ (forall i c,
                countries before !! i = Some c -> cid c <> a ->
                countries after !! i = Some c)
          /\ applyTensionChanges ws tc = afterEntries after post).
Proof.
  intros ws. split.
  - intros tc. rewrite !applyTensionChanges_entries, entriesOf_filter.
    reflexivity.
  - intros tc pre post a t d Hsplit Ht before after.
    assert (Heq : after = withCountry a (bumpTension t d) before).
    { unfold after, applyTensionEntry.
      unfold withCountry at 1. simpl.
      rewrite (updCountry_absent t); [reflexivity|].
      destruct (String.eqb a t) eqn:E.
      - apply String.eqb_eq in E. subst t.
        exfalso.
        destruct (entriesOf_actor ws tc a a d) as [c Hc]; [|congruence].
        rewrite Hsplit. apply in_or_app. right. left. reflexivity.
      - rewrite findCountry_updCountry by apply bumpTension_keepsId.
        rewrite E. apply findCountry_afterEntries_none. exact Ht. }
    split; [exact Heq|]. split.
    + intros i c Hi Hne. rewrite Heq. simpl.
      apply updCountry_lookup_other; assumption.
    + apply (applyTensionChanges_at ws tc pre post (a, t, d) Hsplit).
Qed.

Lemma applyTensionChanges_missing_witness :
  applyTensionChanges twoCountries
    [("Z", [("A", 30%Q)]); ("A", [("B", 1%Q); ("Z", 30%Q)]); ("Y", [("B", 2%Q)])]
  = applyTensionChanges twoCountries [("A", [("B", 1%Q); ("Z", 30%Q)])]
  /\ (let before := afterEntries twoCountries [("A", "B", 1%Q)] in
      let after := applyTensionEntry "A" "Z" 30 before in
      after = withCountry "A" (bumpTension "Z" 30) before
      /\ (forall i c,
            countries before !! i = Some c -> cid c <> "A" ->
            countries after !! i = Some c)
      /\ applyTensionChanges twoCountries
           [("Z", [("A", 30%Q)]); ("A", [("B", 1%Q); ("Z", 30%Q)]); ("Y", [("B", 2%Q)])]
         = afterEntries after []).
Proof.
  split.
  - apply (proj1 (applyTensionChanges_missing twoCountries)).
  - apply (proj2 (applyTensionChanges_missing twoCountries)
             [("Z", [("A", 30%Q)]); ("A", [("B", 1%Q); ("Z", 30%Q)]); ("Y", [("B", 2%Q)])]
             [("A", "B", 1%Q)] [] "A" "Z" 30%Q).
    + reflexivity.
    + reflexivity.
Defined.

Lemma bumped_cellOk (k : string) (d : Q) (c : country) : cellOk (bumped k d c).
Proof.
  unfold bumped. destruct (currentTension k c); simpl;
    [apply clampValue_tensionOk|exact I].
Qed.

Lemma bumpTension_inRange (k : string) (d : Q) (c : country) :
  tensionsInRange c -> tensionsInRange (bumpTension k d c).
Proof.
  intros H. unfold tensionsInRange, bumpTension.
  destruct (tensions c !! k).
  - simpl. apply map_Forall_insert_2; [apply bumped_cellOk|exact H].
  - destruct (String.eqb k "__proto__"); [exact H|].
    simpl. apply map_Forall_insert_2; [apply bumped_cellOk|exact H].
Qed.

Lemma bumpTension_numeric (k : string) (d : Q) (c : country) :
  inherited k = false -> tensionsNumeric c -> tensionsNumeric (bumpTension k d c).
Proof.
  intros Hk H. unfold tensionsNumeric. rewrite bumpTension_cells by exact Hk.
  apply map_Forall_insert_2; [apply clampValue_tensionOk|exact H].
Qed.

Lemma applyTensionEntry_tensionsOk (a t : string) (d : Q) (ws : worldState) :
  tensionsOk ws -> tensionsOk (applyTensionEntry a t d ws).
Proof.
  intros H. unfold tensionsOk, applyTensionEntry. simpl.
  apply updCountry_Forall; [intros c; apply bumpTension_inRange|].
  apply updCountry_Forall; [intros c; apply bumpTension_inRange|exact H].
Qed.

Lemma applyTensionEntry_numeric (a t : string) (d : Q) (ws : worldState) :
  inherited a = false -> inherited t = false ->
  tensionsAllNumeric ws -> tensionsAllNumeric (applyTensionEntry a t d ws).
Proof.
  intros Ha Ht H. unfold tensionsAllNumeric, applyTensionEntry. simpl.
  apply updCountry_Forall; [intros c; apply bumpTension_numeric, Ha|].
  apply updCountry_Forall; [intros c; apply bumpTension_numeric, Ht|exact H].
Qed.

Lemma applyTensionChanges_tensionsOk (tc : tensionChanges) (ws : worldState) :
  tensionsOk ws -> tensionsOk (applyTensionChanges ws tc).
Proof.
  revert ws. unfold applyTensionChanges.
  induction tc as [|e tc IH]; intros ws H; simpl; [exact H|].
  apply IH. destruct (findCountry (fst e) (countries ws)); [|exact H].
  clear IH. revert ws H. induction (snd e) as [|t l IHl]; intros ws H; simpl.
  - exact H.
  - apply IHl, applyTensionEntry_tensionsOk, H.
Qed.

Lemma applyTensionChanges_numeric (tc : tensionChanges) (ws : worldState) :
  plainTensions tc ->
  tensionsAllNumeric ws -> tensionsAllNumeric (applyTensionChanges ws tc).
Proof.
  intros Hp. revert ws. unfold applyTensionChanges.
  induction Hp as [|e tc [He Hl] Hp IH]; intros ws H; simpl; [exact H|].
  apply IH. destruct (findCountry (fst e) (countries ws)); [|exact H].
  clear IH. revert ws H. induction Hl as [|t l Ht Hl IHl]; intros ws H; simpl.
  - exact H.
  - apply IHl, applyTensionEntry_numeric; assumption.
Qed.

(** The mutations that do not write tensions keep whatever holds of every
    tension cell. *)
Lemma applyChanges_cells (P : num -> Prop) (ch : changes) (ws : worldState) :
  Forall (fun c => map_Forall (fun _ v => P v) (tensions c)) (countries ws) ->
  Forall (fun c => map_Forall (fun _ v => P v) (tensions c))
    (countries (applyChanges ws ch)).
Proof.
  revert ws. unfold applyChanges.
  induction ch as [|e ch IH]; intros ws H; simpl; [exact H|].
  apply IH. simpl.
  apply updCountry_Forall; [|exact H]. intros c Hc. exact Hc.
Qed.

Lemma updateAlliances_cells (P : num -> Prop) (ws : worldState)
  (a b act : string) :
  Forall (fun c => map_Forall (fun _ v => P v) (tensions c)) (countries ws) ->
  Forall (fun c => map_Forall (fun _ v => P v) (tensions c))
    (countries (updateAlliances ws a b act)).
Proof.
  intros H. unfold updateAlliances.
  destruct (findCountry a (countries ws)) as [ca|]; [|exact H].
  destruct (findCountry b (countries ws)) as [cb|]; [|exact H].
  assert (Hadd : forall k x,
             map_Forall (fun _ v => P v) (tensions x) ->
             map_Forall (fun _ v => P v) (tensions (addAlly k x))).
  { intros k x Hx. unfold addAlly. destruct (includes k (alliances x)); exact Hx. }
  destruct (String.eqb act "FORM").
  - simpl.
    apply updCountry_Forall; [apply Hadd|].
    apply updCountry_Forall; [apply Hadd|exact H].
  - destruct (String.eqb act "BREAK"); [|exact H].
    simpl.
    apply updCountry_Forall; [intros x Hx; exact Hx|].
    apply updCountry_Forall; [intros x Hx; exact Hx|exact H].
Qed.

Lemma applyChanges_tensionsOk (ch : changes) (ws : worldState) :
  tensionsOk ws -> tensionsOk (applyChanges ws ch).
Proof. apply (applyChanges_cells cellOk). Qed.

Lemma updateAlliances_tensionsOk (ws : worldState) (a b act : string) :
  tensionsOk ws -> tensionsOk (updateAlliances ws a b act).
Proof. apply (updateAlliances_cells cellOk). Qed.

Lemma twoCountries_numeric : tensionsAllNumeric twoCountries.
Proof.
  constructor; [|constructor; [|constructor]].
  - unfold tensionsNumeric. simpl.
    apply map_Forall_insert_2; [split; discriminate|].
    apply map_Forall_insert_2; [split; discriminate|].
    apply map_Forall_empty.
  - unfold tensionsNumeric. simpl. apply map_Forall_empty.
Defined.

Lemma numeric_tensionsOk (ws : worldState) :
  tensionsAllNumeric ws -> tensionsOk ws.
Proof.
  intros H. eapply Forall_impl; [exact H|].
  intros c Hc. eapply map_Forall_impl; [exact Hc|].
  intros k [q|] Hv; [exact Hv|destruct Hv].
Qed.

Lemma twoCountries_tensionsOk : tensionsOk twoCountries.
Proof. apply numeric_tensionsOk, twoCountries_numeric. Defined.

(** X7. The range of the tension cells.  From a state in which every
    cell holds a number of [-100,100] or [NaN], [applyTensionChanges] with
    any mapping returns such a state, and so do [applyChanges] and
    [updateAlliances], which write no cell.  From a state in which every
    cell holds a number of [-100,100], [applyChanges] and [updateAlliances]
    return such a state, and so does [applyTensionChanges] with a mapping
    none of whose actor and target ids is an inherited name; an entry for
    the target [toString] leaves a cell that holds [NaN]. *)
Theorem tensions_stay_in_range :
  forall (ws : worldState),
    (tensionsOk ws ->
       (forall tc, tensionsOk (applyTensionChanges ws tc))
       /\ (forall ch, tensionsOk (applyChanges ws ch))
       /\ (forall a b act, tensionsOk (updateAlliances ws a b act)))
    /\ (tensionsAllNumeric ws ->
       (forall tc, plainTensions tc ->
                   tensionsAllNumeric (applyTensionChanges ws tc))
       /\ (forall ch, tensionsAllNumeric (applyChanges ws ch))
       /\ (forall a b act, tensionsAllNumeric (updateAlliances ws a b act)))
    /\ (tensionsAllNumeric twoCountries
        /\ ~ tensionsAllNumeric
               (applyTensionChanges twoCountries [("A", [("toString", 5%Q)])])).
Proof.
  intros ws. split; [|split].
  - intros H. split; [|split].
    + intros tc. apply applyTensionChanges_tensionsOk, H.
    + intros ch. apply applyChanges_tensionsOk, H.
    + intros a b act. apply updateAlliances_tensionsOk, H.
  - intros H. split; [|split].
    + intros tc Hp. apply applyTensionChanges_numeric; assumption.
    + intros ch. apply (applyChanges_cells cellIn), H.
    + intros a b act. apply (updateAlliances_cells cellIn), H.
  - split; [apply twoCountries_numeric|].
    rewrite applyTensionChanges_single by (exists countryA; reflexivity).
    intros H. apply Forall_inv in H.
    specialize (H "toString" NaN). apply H.
    reflexivity.
Qed.

Lemma tensions_stay_in_range_witness :
  tensionsOk (applyTensionChanges twoCountries [("A", [("toString", 500%Q)])])
  /\ tensionsAllNumeric
       (applyTensionChanges twoCountries [("A", [("B", 500%Q)])]).
Proof.
  split.
  - apply (proj1 (tensions_stay_in_range twoCountries) twoCountries_tensionsOk).
  - apply (proj1 (proj1 (proj2 (tensions_stay_in_range twoCountries))
                    twoCountries_numeric)).
    repeat constructor.
Defined.

End TensionProperties.

(** ** The strongest country *)

Section Dominant.
Import Models WorldState WorldQueries Report Metrics Inv Laws Fixtures.


Lemma fold_stronger_first (l : list country) (c : country) :
  firstStrongest (fold_left stronger l c) (c :: l).
Proof.
  induction l as [|x l IH] using rev_ind.
  - exists [], []. repeat split; constructor.
  - rewrite fold_left_app. simpl.
    destruct IH as (l1 & l2 & Heq & H1 & H2).
    set (r := fold_left stronger l c) in *.
    unfold stronger. destruct (Qltb (power r) (power x)) eqn:E.
    + apply Qltb_lt in E. exists (c :: l), []. split; [reflexivity|].
      split; [|constructor].
      rewrite Heq. apply Forall_app. split.
      * eapply Forall_impl; [exact H1|]. intros y Hy. simpl in Hy.
        eapply Qlt_trans; eassumption.
      * constructor; [exact E|].
        eapply Forall_impl; [exact H2|]. intros y Hy. simpl in Hy.
        eapply Qle_lt_trans; eassumption.
    + apply Qltb_ge in E. exists l1, (l2 ++ [x]). split.
      * change (c :: l ++ [x]) with ((c :: l) ++ [x]).
        rewrite Heq, <- app_assoc. reflexivity.
      * split; [exact H1|]. apply Forall_app. split; [exact H2|].
        constructor; [exact E|constructor].
Qed.

(** X8. [getDominantPower] returns [null] exactly on a world without
    countries; otherwise it returns a country of the state of maximal power,
    and among several of maximal power the first in the order of the
    state. *)
Theorem getDominantPower_first_strongest :
  forall (ws : worldState),
    (getDominantPower ws = None <-> countries ws = [])
    /\ (forall r, getDominantPower ws = Some r ->
                  firstStrongest r (countries ws)).
Proof.
  intros ws. unfold getDominantPower.
  destruct (countries ws) as [|c rest]; split.
  - split; reflexivity.
  - discriminate.
  - split; discriminate.
  - intros r [= <-]. apply fold_stronger_first.
Qed.

Lemma getDominantPower_first_strongest_witness :
  firstStrongest countryA (countries twoCountries).
Proof.
  apply (proj2 (getDominantPower_first_strongest twoCountries) countryA).
  reflexivity.
Defined.



End Dominant.

(** ** Survivors and termination *)

Section SurvivorsAndTermination.
Import Models WorldState WorldQueries Metrics Inv TerminationSpec Laws Fixtures.

Lemma powerful_surviving (c : country) : powerful c = true -> surviving c = true.
Proof.
  unfold powerful, surviving. intros H. apply andb_true_iff in H.
  destruct H as [_ H]. apply Qltb_lt in H. apply Qltb_lt.
  eapply Qlt_trans; [|exact H]. reflexivity.
Qed.

Lemma filter_nil_none {A : Type} (f : A -> bool) (l : list A) :
  List.filter f l = [] -> forall x, In x l -> f x = false.
Proof.
  intros H x Hx. destruct (f x) eqn:E; [|reflexivity].
  assert (Hin : In x (List.filter f l)) by (apply filter_In; auto).
  rewrite H in Hin. destruct Hin.
Qed.

(** X10. Survivors decide between HEGEMONY and TOTAL_COLLAPSE: when
    [getSurvivingCountries] is empty (in particular in a world without
    countries) and the time limit is not reached, [shouldTerminate] gives
    TOTAL_COLLAPSE, and HEGEMONY cannot come first; when it gives HEGEMONY,
    the hegemon is a survivor with power above 50; when it gives
    TOTAL_COLLAPSE there is no survivor. *)
Theorem shouldTerminate_survivors :
  forall (ws : worldState) (maxYears : Z),
    (getSurvivingCountries ws = [] -> (year ws < maxYears)%Z ->
     shouldTerminate ws maxYears = stop TOTAL_COLLAPSE)
    /\ (why (shouldTerminate ws maxYears) = Some HEGEMONY ->
        exists c, In c (getSurvivingCountries ws) /\ (50 < power c)%Q)
    /\ (why (shouldTerminate ws maxYears) = Some TOTAL_COLLAPSE ->
        getSurvivingCountries ws = []).
Proof.
  intros ws maxYears.
  change (getSurvivingCountries ws) with (List.filter surviving (countries ws)).
  split; [|split].
  - intros Hnone Hy. unfold shouldTerminate.
    assert ((maxYears <=? year ws)%Z = false) as -> by (apply Z.leb_gt; lia).
    assert (Hp : List.filter powerful (countries ws) = []).
    { destruct (List.filter powerful (countries ws)) as [|c l] eqn:E;
        [reflexivity|].
      assert (Hin : In c (List.filter powerful (countries ws)))
        by (rewrite E; left; reflexivity).
      apply filter_In in Hin. destruct Hin as [Hin Hpow].
      apply powerful_surviving in Hpow.
      pose proof (filter_nil_none _ _ Hnone c Hin). congruence. }
    rewrite Hp, Hnone. reflexivity.
  - unfold shouldTerminate.
    destruct (maxYears <=? year ws)%Z; [discriminate|].
    destruct (List.filter powerful (countries ws)) as [|c l] eqn:E.
    + simpl. destruct (_ =? 0)%nat; [discriminate|].
      destruct (perfectOrder ws); discriminate.
    + intros _. exists c.
      assert (Hin : In c (List.filter powerful (countries ws)))
        by (rewrite E; left; reflexivity).
      apply filter_In in Hin. destruct Hin as [Hin Hpow]. split.
      * apply filter_In. split; [exact Hin|apply powerful_surviving, Hpow].
      * unfold powerful in Hpow. apply andb_true_iff in Hpow.
        apply Qltb_lt. apply Hpow.
  - unfold shouldTerminate.
    destruct (maxYears <=? year ws)%Z; [discriminate|].
    destruct (_ && _); [discriminate|].
    destruct (List.filter surviving (countries ws)) as [|c l]; [reflexivity|].
    simpl. destruct (perfectOrder ws); discriminate.
Qed.

Lemma shouldTerminate_survivors_witness :
  shouldTerminate (mkWorldState 3 3 [] [] "RUNNING") 1000 = stop TOTAL_COLLAPSE.
Proof.
  apply (proj1 (shouldTerminate_survivors (mkWorldState 3 3 [] [] "RUNNING") 1000)).
  - reflexivity.
  - simpl. lia.
Defined.

End SurvivorsAndTermination.

(** ** validateWorldState *)

Section ValidationProperties.
Import Models WorldState Validation Inv Laws Fixtures.

Lemma validateCountries_passed (cs : list country) :
  validateCountries cs = Passed <-> Forall powerAndStabilityOk cs.
Proof.
  induction cs as [|c cs IH]; simpl.
  - split; [constructor|reflexivity].
  - destruct (Qltb (power c) 0) eqn:E1; simpl.
    { split; [discriminate|]. intros H. inversion H as [|? ? [[Hp _] _] _].
      apply Qltb_lt in E1. exfalso. exact (Qlt_not_le _ _ E1 Hp). }
    destruct (Qltb 100 (power c)) eqn:E2; simpl.
    { split; [discriminate|]. intros H. inversion H as [|? ? [[_ Hp] _] _].
      apply Qltb_lt in E2. exfalso. exact (Qlt_not_le _ _ E2 Hp). }
    destruct (Qltb (stability c) 0) eqn:E3; simpl.
    { split; [discriminate|]. intros H. inversion H as [|? ? [_ [Hs _]] _].
      apply Qltb_lt in E3. exfalso. exact (Qlt_not_le _ _ E3 Hs). }
    destruct (Qltb 100 (stability c)) eqn:E4; simpl.
    { split; [discriminate|]. intros H. inversion H as [|? ? [_ [_ Hs]] _].
      apply Qltb_lt in E4. exfalso. exact (Qlt_not_le _ _ E4 Hs). }
    apply Qltb_ge in E1, E2, E3, E4. rewrite IH. split.
    + intros H. constructor; [repeat split; assumption|exact H].
    + intros H. inversion H. assumption.
Qed.

Lemma applyDeltas_powerAndStability (d : deltas) (c : country) :
  powerAndStabilityOk c -> powerAndStabilityOk (applyDeltas d c).
Proof.
  intros [Hp Hs].
  assert (Hclamp : forall v, (0 <= clampValue v 0 100 <= 100)%Q).
  { intros v. split; [apply clampValue_lower|].
    apply clampValue_upper. discriminate. }
  assert (Hcp : (0 <= clampedPower d c <= 100)%Q).
  { unfold clampedPower. destruct (dpower d); [apply Hclamp|exact Hp]. }
  unfold powerAndStabilityOk. rewrite applyDeltas_power. simpl.
  repeat split.
  - destruct (Qltb _ 5); [|apply Hcp].
    apply Q.min_glb; [apply Hcp|discriminate].
  - destruct (Qltb _ 5); [|apply Hcp].
    eapply Qle_trans; [apply Q.le_min_l|apply Hcp].
  - destruct (dstability d); [apply Hclamp|apply Hs].
  - destruct (dstability d); [apply Hclamp|apply Hs].
Qed.

Lemma Forall_applyChanges (P : country -> Prop) (ch : changes)
  (ws : worldState) :
  (forall d c, P c -> P (applyDeltas d c)) ->
  Forall P (countries ws) -> Forall P (countries (applyChanges ws ch)).
Proof.
  intros HP. revert ws. unfold applyChanges.
  induction ch as [|e ch IH]; intros ws H; simpl; [exact H|].
  apply IH. simpl. apply updCountry_Forall; [apply HP|exact H].
Qed.

Lemma Forall_applyTensionChanges (P : country -> Prop) (tc : tensionChanges)
  (ws : worldState) :
  (forall k d c, P c -> P (bumpTension k d c)) ->
  Forall P (countries ws) -> Forall P (countries (applyTensionChanges ws tc)).
Proof.
  intros HP. revert ws. unfold applyTensionChanges.
  induction tc as [|e tc IH]; intros ws H; simpl; [exact H|].
  apply IH. destruct (findCountry (fst e) (countries ws)); [|exact H].
  clear IH. revert ws H. induction (snd e) as [|t l IHl]; intros ws H; simpl.
  - exact H.
  - apply IHl. unfold applyTensionEntry. simpl.
    apply updCountry_Forall; [apply HP|].
    apply updCountry_Forall; [apply HP|exact H].
Qed.

Lemma Forall_updateAlliances (P : country -> Prop) (ws : worldState)
  (a b act : string) :
  (forall al c, P c -> P (setAlliances c al)) ->
  Forall P (countries ws) -> Forall P (countries (updateAlliances ws a b act)).
Proof.
  intros HP H. unfold updateAlliances.
  destruct (findCountry a (countries ws)) as [ca|]; [|exact H].
  destruct (findCountry b (countries ws)) as [cb|]; [|exact H].
  assert (Hadd : forall k x, P x -> P (addAlly k x)).
  { intros k x Hx. unfold addAlly.
    destruct (includes k (alliances x)); [exact Hx|apply HP, Hx]. }
  assert (Hdrop : forall k x, P x -> P (dropAlly k x)).
  { intros k x Hx. apply HP, Hx. }
  destruct (String.eqb act "FORM").
  - simpl. apply updCountry_Forall; [apply Hadd|].
    apply updCountry_Forall; [apply Hadd|exact H].
  - destruct (String.eqb act "BREAK"); [|exact H].
    simpl. apply updCountry_Forall; [apply Hdrop|].
    apply updCountry_Forall; [apply Hdrop|exact H].
Qed.

(** X11. [validateWorldState] passes exactly when the simulation id is not
    empty and every country has power and stability in [0,100] (it looks at
    no other stat); a state that passes still passes after [applyChanges],
    [applyTensionChanges] and [updateAlliances]. *)
Theorem validateWorldState_passes :
  forall (sid : string) (ws : worldState),
    (validateWorldState sid ws = Passed
     <-> sid <> "" /\ Forall powerAndStabilityOk (countries ws))
    /\ (validateWorldState sid ws = Passed ->
        (forall ch, validateWorldState sid (applyChanges ws ch) = Passed)
        /\ (forall tc, validateWorldState sid (applyTensionChanges ws tc) = Passed)
        /\ (forall a b act,
              validateWorldState sid (updateAlliances ws a b act) = Passed)).
Proof.
  intros sid ws.
  assert (Hiff : forall w, validateWorldState sid w = Passed
                           <-> sid <> "" /\ Forall powerAndStabilityOk (countries w)).
  { intros w. unfold validateWorldState.
    destruct (String.eqb sid "") eqn:E.
    - apply String.eqb_eq in E. split; [discriminate|]. intros [H _]. contradiction.
    - apply String.eqb_neq in E. rewrite validateCountries_passed. tauto. }
  split; [apply Hiff|].
  intros H. apply Hiff in H. destruct H as [Hsid Hall].
  split; [|split]; intros; apply Hiff; (split; [exact Hsid|]).
  - apply Forall_applyChanges; [apply applyDeltas_powerAndStability|exact Hall].
  - apply Forall_applyTensionChanges; [|exact Hall]. intros k d c Hc.
    rewrite bumpTension_setTensions. exact Hc.
  - apply Forall_updateAlliances; [|exact Hall]. intros al c Hc. exact Hc.
Qed.

Lemma validateWorldState_passes_witness :
  validateWorldState "sim_1" (applyChanges twoCountries powerBoost) = Passed.
Proof.
  apply (proj2 (validateWorldState_passes "sim_1" twoCountries)).
  reflexivity.
Defined.

Lemma applyDeltas_flag (d : deltas) (c : country) :
  (collapsing (applyDeltas d c) = true ->
   (stability (applyDeltas d c) < 20)%Q /\ (power (applyDeltas d c) < 30)%Q)
  /\ ((collapsing (applyDeltas d c) = false
       /\ (stability (applyDeltas d c) < 20)%Q
       /\ (power (applyDeltas d c) < 30)%Q)
      <-> ((stability (applyDeltas d c) < 5)%Q
           /\ (30 <= clampedPower d c)%Q))
  /\ ((stability (applyDeltas d c) < 5)%Q ->
      (30 <= clampedPower d c)%Q ->
      (power (applyDeltas d c) == 20)%Q).
Proof.
  assert (Hflag : collapsing (applyDeltas d c)
                  = Qltb (stability (applyDeltas d c)) 20
                    && Qltb (clampedPower d c) 30).
  { unfold applyDeltas, clampedPower. simpl.
    destruct (_ && _); reflexivity. }
  assert (Hcut : (stability (applyDeltas d c) < 5)%Q ->
                 (30 <= clampedPower d c)%Q ->
                 (power (applyDeltas d c) == 20)%Q).
  { intros H5 H30. rewrite applyDeltas_power.
    apply Qltb_lt in H5. rewrite H5.
    apply Q.min_r. eapply Qle_trans; [|exact H30]. discriminate. }
  split; [|split; [split|exact Hcut]].
  - intros H. rewrite Hflag in H. apply andb_true_iff in H.
    destruct H as [Hs Hp]. apply Qltb_lt in Hs, Hp. split; [exact Hs|].
    eapply Qle_lt_trans; [apply applyDeltas_only_lowers|exact Hp].
  - intros (H & Hs & Hp). rewrite Hflag in H.
    apply Qltb_lt in Hs. rewrite Hs in H. simpl in H.
    apply Qltb_ge in H. rewrite applyDeltas_power in Hp.
    destruct (Qltb (stability (applyDeltas d c)) 5) eqn:E5.
    + apply Qltb_lt in E5. split; [exact E5|exact H].
    + exfalso. exact (Qlt_not_le _ _ Hp H).
  - intros [H5 H30]. split; [|split].
    + rewrite Hflag. apply Qltb_ge in H30. rewrite H30.
      apply andb_false_r.
    + eapply Qlt_trans; [exact H5|reflexivity].
    + rewrite (Hcut H5 H30). reflexivity.
Qed.

(** X12. The [collapsing] flag that [applyChanges] writes.  For the
    rewriting of one addressed country: a country flagged as collapsing has
    stability below 20 and power below 30; a country is left unflagged with
    stability below 20 and power below 30 exactly when its stability is
    below 5 and its clamped power is at least 30, and then the collapse
    ceiling has cut its power down to 20: the flag is computed before the
    ceiling.  Hence, in the state that [applyChanges] returns, an addressed
    country that is flagged has stability below 20 and power below 30, and
    one that is not flagged although its stability is below 20 and its power
    below 30 has stability below 5 and power 20. *)
Theorem applyDeltas_collapsing_flag :
  (forall (d : deltas) (c : country),
      (collapsing (applyDeltas d c) = true ->
       (stability (applyDeltas d c) < 20)%Q /\ (power (applyDeltas d c) < 30)%Q)
      /\ ((collapsing (applyDeltas d c) = false
           /\ (stability (applyDeltas d c) < 20)%Q
           /\ (power (applyDeltas d c) < 30)%Q)
          <-> ((stability (applyDeltas d c) < 5)%Q
               /\ (30 <= clampedPower d c)%Q))
      /\ ((stability (applyDeltas d c) < 5)%Q ->
          (30 <= clampedPower d c)%Q ->
          (power (applyDeltas d c) == 20)%Q))
  /\ (forall (ws : worldState) (ch : changes) (k : string) (c' : country),
        In k (List.map fst ch) ->
        findCountry k (countries (applyChanges ws ch)) = Some c' ->
        (collapsing c' = true ->
         (stability c' < 20)%Q /\ (power c' < 30)%Q)
        /\ (collapsing c' = false ->
            (stability c' < 20)%Q -> (power c' < 30)%Q ->
            (stability c' < 5)%Q /\ (power c' == 20)%Q)).
Proof.
  split; [apply applyDeltas_flag|].
  intros ws ch k c' Hin Hfind.
  destruct (applyChanges_addressed ws ch k c' Hin Hfind) as (d & c & ->).
  destruct (applyDeltas_flag d c) as (H1 & H2 & H3).
  split; [exact H1|].
  intros Hf Hs Hp.
  destruct (proj1 H2 (conj Hf (conj Hs Hp))) as [H5 H30].
  split; [exact H5|apply H3; assumption].
Qed.

Lemma applyDeltas_collapsing_flag_witness :
  (collapsing (applyDeltas (mkDeltas (Some 50%Q) None None None None) collapsedCountry) = false
   /\ (stability (applyDeltas (mkDeltas (Some 50%Q) None None None None) collapsedCountry) < 20)%Q
   /\ (power (applyDeltas (mkDeltas (Some 50%Q) None None None None) collapsedCountry) < 30)%Q)
  /\ (collapsing (applyDeltas (mkDeltas (Some 50%Q) None None None None) collapsedCountry) = false ->
      (stability (applyDeltas (mkDeltas (Some 50%Q) None None None None) collapsedCountry) < 20)%Q ->
      (power (applyDeltas (mkDeltas (Some 50%Q) None None None None) collapsedCountry) < 30)%Q ->
      (stability (applyDeltas (mkDeltas (Some 50%Q) None None None None) collapsedCountry) < 5)%Q
      /\ (power (applyDeltas (mkDeltas (Some 50%Q) None None None None) collapsedCountry) == 20)%Q).
Proof.
  split.
  - apply (proj2 (proj1 (proj2 (proj1 applyDeltas_collapsing_flag
                    (mkDeltas (Some 50%Q) None None None None) collapsedCountry)))).
    split; [reflexivity|vm_compute; discriminate].
  - apply (proj2 (proj2 applyDeltas_collapsing_flag collapsedWorld powerBoost "A"
                    (applyDeltas (mkDeltas (Some 50%Q) None None None None)
                       collapsedCountry)
                    ltac:(left; reflexivity) ltac:(reflexivity))).
Defined.

End ValidationProperties.

(** ** callWithRetry and the fallbacks built on it *)

Section Retry.
Import WorldState GeminiClient AgentManager EventResolver Logger Inv Laws Fixtures Samples.

Lemma retryFrom_skip {A : Type} (call : nat -> callResult A) (m n k : nat) :
  (forall j, (k <= j < k + m)%nat -> retryable (call j)) ->
  (m <= n)%nat ->
  retryFrom call k n = retryFrom call (k + m) (n - m).
Proof.
  revert n k. induction m as [|m IH]; intros n k Hall Hle.
  - rewrite Nat.add_0_r, Nat.sub_0_r. reflexivity.
  - destruct n as [|n]; [lia|]. simpl.
    destruct (Hall k ltac:(lia)) as [He Hr].
    destruct (error (call k)) as [e|]; [|congruence]. rewrite Hr.
    rewrite (IH n (S k)); [|intros j Hj; apply Hall; lia|lia].
    f_equal. lia.
Qed.

(** X13. [callWithRetry] returns the first answer without an error, throws
    the error of the first answer that is not to be retried, and gives up
    with "Max retries reached" after [maxRetries] retryable errors; it never
    calls again after an answer or after an error that is not to be
    retried. *)
Theorem callWithRetry_first_answer :
  forall (A : Type) (call : nat -> callResult A) (maxRetries i : nat),
    (forall j, (j < i)%nat -> retryable (call j)) ->
    ((i < maxRetries)%nat -> error (call i) = None ->
     callWithRetry call maxRetries = Returned (call i))
    /\ ((i < maxRetries)%nat ->
        forall e, error (call i) = Some e -> shouldRetry (call i) = false ->
                  callWithRetry call maxRetries = Thrown e)
    /\ ((maxRetries <= i)%nat ->
        callWithRetry call maxRetries
        = Thrown "Max retries reached for Gemini API call").
Proof.
  intros A call n i Hall. unfold callWithRetry.
  split; [|split].
  - intros Hi He.
    rewrite (retryFrom_skip call i n 0); [|intros j Hj; apply Hall; lia|lia].
    destruct (n - i)%nat as [|r] eqn:E; [lia|]. simpl. rewrite He. reflexivity.
  - intros Hi e He Hr.
    rewrite (retryFrom_skip call i n 0); [|intros j Hj; apply Hall; lia|lia].
    destruct (n - i)%nat as [|r] eqn:E; [lia|]. simpl. rewrite He, Hr.
    reflexivity.
  - intros Hi.
    rewrite (retryFrom_skip call n n 0); [|intros j Hj; apply Hall; lia|lia].
    rewrite Nat.sub_diag. reflexivity.
Qed.

Lemma callWithRetry_first_answer_witness :
  callWithRetry limitedTwice 3 = Returned (answered stabilizeBody)
  /\ callWithRetry limitedTwice 2
     = Thrown "Max retries reached for Gemini API call".
Proof.
  assert (H : forall j, (j < 2)%nat -> retryable (limitedTwice j)).
  { intros j Hj. destruct j as [|[|j]]; [| |lia]; split;
      try discriminate; reflexivity. }
  split.
  - apply (proj1 (callWithRetry_first_answer _ limitedTwice 3 2 H)).
    + lia.
    + reflexivity.
  - apply (proj2 (proj2 (callWithRetry_first_answer _ limitedTwice 2 2 H))).
    lia.
Defined.

End Retry.

Section Fallbacks.
Import WorldState GeminiClient AgentManager EventResolver Logger Inv Laws.
Import Fixtures Samples.

Lemma resolveAction_failure (cfg : agentConfig)
  (call : nat -> callResult resolution) :
  apiKey cfg = "" \/ (forall j, error (call j) <> None) ->
  exists msg, resolveAction cfg call = defaultResolution msg.
Proof.
  intros H. unfold resolveAction, callWithRetry.
  destruct (String.eqb (apiKey cfg) "") eqn:E; [eexists; reflexivity|].
  destruct H as [H|Hall]; [apply String.eqb_neq in E; contradiction|].
  destruct (retryFrom_fails call 3 0 Hall) as [msg Hmsg].
  rewrite Hmsg. exists msg. reflexivity.
Qed.

(** X14. A resolution that fails is absorbed, wherever the decision stands
    in the batch: when [resolveActions] comes to a decision whose actor has
    a configuration and whose resolution fails, because the configuration
    has no API key or because the resolver's calls for it all fail, it
    appends one event for the decision, with [success = false] and an empty
    impact, leaves the accumulated stat deltas and tension deltas as they
    were, and goes on with the rest of the batch; the world is untouched
    unless the decision is a [break_alliance], which is applied all the
    same. *)
Theorem resolveActions_absorbs_failure :
  forall (cfgs : string -> lookup)
         (call : decision -> nat -> callResult resolution)
         (ws : worldState) (ds pre post : list decision) (d : decision)
         (cfg : agentConfig),
    prioritizeActions ds = pre ++ d :: post ->
    cfgs (actorId d) = Fetched (Some cfg) ->
    apiKey cfg = "" \/ (forall j, error (call d j) <> None) ->
    let acc := resolvedAfter cfgs call ws pre in
    exists ev,
      resolveActions cfgs call ws ds
      = fold_left (resolveOne cfgs call) post
          (mkResolved (events acc ++ [ev]) (allChanges acc)
             (allTensionChanges acc)
             (if String.eqb (specificAction d) "break_alliance"
              then updateAlliancesWith (world acc) (actorId d) (target d) "BREAK"
              else world acc))
      /\ success ev = Some false /\ impact ev = []
      /\ actors ev = actorsOf d.
Proof.
  intros cfgs call ws ds pre post d cfg Hsplit Hcfg Hfail acc.
  destruct (resolveAction_failure cfg (call d) Hfail) as [msg Hmsg].
  eexists. split.
  - unfold resolveActions. rewrite Hsplit, fold_left_app.
    fold (resolvedAfter cfgs call ws pre). fold acc.
    cbn [fold_left]. f_equal.
    unfold resolveOne. rewrite Hcfg, Hmsg. simpl.
    unfold handleSpecialActions. simpl. rewrite andb_false_r. reflexivity.
  - repeat split.
Qed.

Lemma resolveActions_absorbs_failure_witness :
  let cfgs := fun _ : string =>
                Fetched (Some (mkAgent "leader_0" "LEADER" (Some "A") "k")) in
  let call := fun (_ : decision) (_ : nat) =>
                mkCallResult (Some "503") false succeeded in
  let acc := resolvedAfter cfgs call allied [dMilitary] in
  exists ev,
    resolveActions cfgs call allied [dInternal; dBreak; dMilitary]
    = fold_left (resolveOne cfgs call) [dInternal]
        (mkResolved (events acc ++ [ev]) (allChanges acc)
           (allTensionChanges acc)
           (updateAlliancesWith (world acc) "A" (Some "B") "BREAK"))
    /\ success ev = Some false /\ impact ev = []
    /\ actors ev = actorsOf dBreak.
Proof.
  apply (resolveActions_absorbs_failure
           (fun _ => Fetched (Some (mkAgent "leader_0" "LEADER" (Some "A") "k")))
           (fun _ _ => mkCallResult (Some "503") false succeeded)
           allied [dInternal; dBreak; dMilitary] [dMilitary] [dInternal] dBreak
           (mkAgent "leader_0" "LEADER" (Some "A") "k")).
  - reflexivity.
  - reflexivity.
  - right. intros j. discriminate.
Defined.

(** X15. The overseer analysis never fails: with no overseer client, or
    when all its calls fail, it is the fallback with stability index 50.
    The tick summary logs the overseer's stability index, and logs 50 in
    place of a missing one or of 0. *)
Theorem overseer_fallback_and_log :
  (forall clients call,
      List.find (fun a => String.eqb (aid a) "overseer") clients = None
      \/ (forall j, error (call j) <> None) ->
      exists text, getOverseerAnalysis clients call = fallbackAnalysis text)
  /\ (forall logs tk yr a,
        exists v,
          logTick logs tk yr a = logs ++ [mkLog "TICK_SUMMARY" tk yr (Some v)]
          /\ ~ (v == 0)%Q
          /\ (forall x, aStabilityIndex a = Some x -> ~ (x == 0)%Q -> v = x)
          /\ (forall x, aStabilityIndex a = Some x -> (x == 0)%Q -> v = 50%Q)
          /\ (aStabilityIndex a = None -> v = 50%Q)).
Proof.
  split.
  - intros clients call [Hnone|Hall]; unfold getOverseerAnalysis.
    + rewrite Hnone. eexists. reflexivity.
    + destruct (List.find _ clients); [|eexists; reflexivity].
      unfold callWithRetry.
      destruct (retryFrom_fails call 3 0 Hall) as [msg ->].
      eexists. reflexivity.
  - intros logs tk yr a. exists (orFifty (aStabilityIndex a)).
    split; [reflexivity|]. unfold orFifty.
    destruct (aStabilityIndex a) as [x|].
    + destruct (Qeq_bool x 0) eqn:E.
      * apply Qeq_bool_iff in E. repeat split; try discriminate.
        intros y [= <-] Hy. contradiction.
      * apply Qeq_bool_neq in E. repeat split.
        -- exact E.
        -- intros y [= <-] _. reflexivity.
        -- intros y [= <-] Hy. contradiction.
        -- discriminate.
    + repeat split; discriminate.
Qed.

Lemma overseer_fallback_and_log_witness :
  exists text,
    getOverseerAnalysis agents (fun _ => mkCallResult (Some "503") false
                                           (mkAnalysis None ""))
    = fallbackAnalysis text.
Proof.
  apply (proj1 overseer_fallback_and_log).
  right. intros j. discriminate.
Defined.

End Fallbacks.

(** ** resolveActions: the events and the two accumulators *)

Section Resolve.
Import WorldState GeminiClient AgentManager EventResolver Inv Laws.
Import Fixtures Samples.













Lemma lookupKey_upsert {V : Type} (k k' : string) (f : option V -> V)
  (l : list (string * V)) :
  lookupKey k' (upsert k f l)
  = if String.eqb k k' then Some (f (lookupKey k l)) else lookupKey k' l.
Proof.
  unfold lookupKey. induction l as [|[k0 v] l IH]; simpl.
  - destruct (String.eqb k k'); reflexivity.
  - destruct (String.eqb k0 k) eqn:E0; simpl.
    + apply String.eqb_eq in E0. subst k0.
      destruct (String.eqb k k'); reflexivity.
    + destruct (String.eqb k0 k') eqn:E'; simpl.
      * destruct (String.eqb k k') eqn:E; [|reflexivity].
        apply String.eqb_eq in E, E'. subst.
        rewrite String.eqb_refl in E0. discriminate.
      * exact IH.
Qed.

Lemma lookupKey_cons {V : Type} (k : string) (e : string * V)
  (l : list (string * V)) :
  lookupKey k (e :: l)
  = if String.eqb (fst e) k then Some (snd e) else lookupKey k l.
Proof. unfold lookupKey. simpl. destruct (String.eqb (fst e) k); reflexivity. Qed.

Lemma mergeTensions_snoc (all : tensionChanges) (a : string)
  (new : list (string * Q)) (e : string * Q) :
  inherited a = false ->
  mergeTensions all a (new ++ [e])
  = upsert a
      (fun o => if String.eqb (fst e) "__proto__" then default [] o
                else upsert (fst e) (fun _ => snd e) (default [] o))
      (mergeTensions all a new).
Proof.
  intros H. unfold mergeTensions. rewrite fold_left_app. simpl.
  rewrite H. reflexivity.
Qed.

Lemma mergeTensions_inherited (all : tensionChanges) (a : string)
  (new : list (string * Q)) :
  inherited a = true -> mergeTensions all a new = all.
Proof.
  intros H. unfold mergeTensions. rewrite H. revert all.
  induction new as [|e new IH]; intros all; simpl; [reflexivity|apply IH].
Qed.

Lemma mergeTensions_other (all : tensionChanges) (a a' t : string)
  (new : list (string * Q)) :
  a' <> a ->
  tensionDelta (mergeTensions all a new) a' t = tensionDelta all a' t.
Proof.
  intros Hne. destruct (inherited a) eqn:Ha.
  - rewrite mergeTensions_inherited by exact Ha. reflexivity.
  - induction new as [|e new IH] using rev_ind; [reflexivity|].
    rewrite mergeTensions_snoc by exact Ha. unfold tensionDelta in *.
    rewrite lookupKey_upsert.
    assert (String.eqb a a' = false) as -> by (apply String.eqb_neq; congruence).
    exact IH.
Qed.

(** X18. The tension deltas are merged by overwriting.  For an actor whose
    id is not an inherited name, the entry of the actor for a target other
    than [__proto__] is, after the merge, the last value that the
    resolution gives for this target, and the old entry when it gives none;
    a value for the target [__proto__] is not stored.  For an actor whose
    id is an inherited name the accumulator stays as it was.  The entries
    of the other actors are untouched. *)
Theorem mergeTensions_overwrites :
  forall (all : tensionChanges) (a : string) (new : list (string * Q))
         (t : string),
    (inherited a = false -> t <> "__proto__" ->
     tensionDelta (mergeTensions all a new) a t
     = match lastValue t new with
       | Some v => Some v
       | None => tensionDelta all a t
       end)
    /\ (inherited a = false ->
        tensionDelta (mergeTensions all a new) a "__proto__"
        = tensionDelta all a "__proto__")
    /\ (inherited a = true -> mergeTensions all a new = all)
    /\ (forall a', a' <> a ->
          tensionDelta (mergeTensions all a new) a' t = tensionDelta all a' t).
Proof.
  intros all a new t. split; [|split; [|split]].
  - intros Ha Ht. induction new as [|e new IH] using rev_ind; [reflexivity|].
    rewrite mergeTensions_snoc by exact Ha. unfold tensionDelta in *.
    rewrite lookupKey_upsert, String.eqb_refl.
    unfold lastValue. rewrite rev_app_distr. simpl rev. simpl app.
    rewrite lookupKey_cons. fold (lastValue t new).
    destruct (String.eqb (fst e) "__proto__") eqn:Ep.
    + assert (String.eqb (fst e) t = false) as ->.
      { apply String.eqb_eq in Ep. apply String.eqb_neq. congruence. }
      rewrite <- IH.
      destruct (lookupKey a (mergeTensions all a new)); reflexivity.
    + rewrite lookupKey_upsert.
      destruct (String.eqb (fst e) t); [reflexivity|].
      rewrite <- IH.
      destruct (lookupKey a (mergeTensions all a new)); reflexivity.
  - intros Ha. induction new as [|e new IH] using rev_ind; [reflexivity|].
    rewrite mergeTensions_snoc by exact Ha. unfold tensionDelta in *.
    rewrite lookupKey_upsert, String.eqb_refl.
    destruct (String.eqb (fst e) "__proto__") eqn:Ep.
    + rewrite <- IH.
      destruct (lookupKey a (mergeTensions all a new)); reflexivity.
    + rewrite lookupKey_upsert, Ep. rewrite <- IH.
      destruct (lookupKey a (mergeTensions all a new)); reflexivity.
  - apply mergeTensions_inherited.
  - intros a' Hne. apply mergeTensions_other. exact Hne.
Qed.

Lemma mergeTensions_overwrites_witness :
  tensionDelta (mergeTensions [("A", [("B", 10%Q)])] "A" [("B", 4%Q); ("B", 7%Q)])
    "A" "B" = Some 7%Q
  /\ tensionDelta (mergeTensions [("A", [("B", 10%Q)])] "C" [("B", 4%Q)])
       "A" "B" = Some 10%Q
  /\ mergeTensions [("A", [("B", 10%Q)])] "valueOf" [("B", 4%Q)]
     = [("A", [("B", 10%Q)])].
Proof.
  split; [|split].
  - apply (proj1 (mergeTensions_overwrites [("A", [("B", 10%Q)])] "A"
                    [("B", 4%Q); ("B", 7%Q)] "B")); [reflexivity|discriminate].
  - apply (proj2 (proj2 (proj2 (mergeTensions_overwrites [("A", [("B", 10%Q)])]
                    "C" [("B", 4%Q)] "B"))) "A"). discriminate.
  - apply (proj1 (proj2 (proj2 (mergeTensions_overwrites [("A", [("B", 10%Q)])]
                    "valueOf" [("B", 4%Q)] "B")))). reflexivity.
Defined.

End Resolve.

(** ** generateRandomEvent *)

Section RandomEventProperties.
Import WorldState RandomEvents Simulator Inv Laws Fixtures Samples.

Lemma Qfloor_range (x : Q) (n : Z) :
  (0 <= x)%Q -> (x < inject_Z n)%Q -> (0 <= Qfloor x < n)%Z.
Proof.
  intros H0 Hn. split.
  - change 0%Z with (Qfloor 0). apply Qfloor_resp_le. exact H0.
  - rewrite Zlt_Qlt. eapply Qle_lt_trans; [apply Qfloor_le|exact Hn].
Qed.


Lemma pick_total {A : Type} (r : Q) (l : list A) :
  l <> [] -> (0 <= r)%Q -> (r < 1)%Q -> exists x, pick r l = Some x.
Proof.
  intros Hl H0 H1. unfold pick.
  set (n := inject_Z (Z.of_nat (length l))).
  assert (Hpos : (0 < n)%Q).
  { unfold n. change 0%Q with (inject_Z 0). rewrite <- Zlt_Qlt.
    destruct l; [contradiction|simpl; lia]. }
  destruct (Qfloor_range (r * n) (Z.of_nat (length l))) as [Hlo Hhi].
  - apply Qmult_le_0_compat; [exact H0|apply Qlt_le_weak, Hpos].
  - fold n. apply Qlt_le_trans with (1 * n)%Q.
    + apply Qmult_lt_compat_r; assumption.
    + rewrite Qmult_1_l. apply Qle_refl.
  - assert ((Qfloor (r * n) <? 0)%Z = false) as -> by (apply Z.ltb_ge; exact Hlo).
    destruct (nth_error l (Z.to_nat (Qfloor (r * n)))) as [x|] eqn:E;
      [exists x; reflexivity|].
    apply nth_error_None in E. lia.
Qed.




(** X20. With draws in [0,1), as [Math.random] gives them, and at least one
    country, [generateRandomEvent] does not throw.  In a world without
    countries it throws as soon as the gate opens on a class other than the
    uprising, and [executeTick] then marks the run FAILED. *)
Theorem generateRandomEvent_throws_only_when_empty :
  forall (ws : worldState) (tk : Z) (rnd : draws),
    (0 <= classDraw rnd)%Q -> (classDraw rnd < 1)%Q ->
    (0 <= countryDraw rnd)%Q -> (countryDraw rnd < 1)%Q ->
    (countries ws <> [] -> generateRandomEvent ws tk rnd <> None)
    /\ (countries ws = [] -> (gate rnd <= 1 # 10)%Q ->
        Qfloor (classDraw rnd * 4) <> 2%Z ->
        generateRandomEvent ws tk rnd = None
        /\ forall o s,
             stored s = ws -> status ws = "RUNNING" -> tick ws = tk ->
             Simulator.rnd o = rnd ->
             executeTick o s = failTick s).
Proof.
  intros ws tk rnd Hc0 Hc1 Hr0 Hr1.
  destruct (Qfloor_range (classDraw rnd * 4) 4) as [Hlo Hhi].
  { apply Qmult_le_0_compat; [exact Hc0|discriminate]. }
  { apply Qlt_le_trans with (1 * 4)%Q.
    - apply Qmult_lt_compat_r; [reflexivity|exact Hc1].
    - discriminate. }
  set (class := Qfloor (classDraw rnd * 4)) in *.
  split.
  - intros Hne. unfold generateRandomEvent.
    destruct (Qltb (1 # 10) (gate rnd)); [discriminate|].
    fold class.
    assert (Hd : describe ws class (countryDraw rnd) <> None).
    { unfold describe.
      destruct (pick_total (countryDraw rnd) (countries ws) Hne Hr0 Hr1)
        as [c Hc].
      rewrite Hc.
      destruct (class =? 0)%Z eqn:E0; [discriminate|].
      destruct (class =? 1)%Z eqn:E1; [discriminate|].
      destruct (class =? 2)%Z eqn:E2.
      - destruct (List.filter _ (countries ws)) as [|u us] eqn:Eu;
          [discriminate|].
        destruct (pick_total (countryDraw rnd) (u :: us)) as [v Hv];
          [discriminate|exact Hr0|exact Hr1|].
        rewrite Hv. discriminate.
      - destruct (class =? 3)%Z eqn:E3; [discriminate|].
        apply Z.eqb_neq in E0, E1, E2, E3. lia. }
    destruct (describe ws class (countryDraw rnd)) as [[e|]|];
      [discriminate|discriminate|contradiction].
  - intros Hnil Hgate Hclass.
    assert (Hgen : generateRandomEvent ws tk rnd = None).
    { unfold generateRandomEvent.
      assert (Qltb (1 # 10) (gate rnd) = false) as -> by (apply Qltb_ge; exact Hgate).
      fold class. unfold describe. rewrite Hnil.
      assert (Hp : pick (countryDraw rnd) (@nil country) = None).
      { unfold pick. destruct (_ <? 0)%Z; [reflexivity|].
        destruct (Z.to_nat _); reflexivity. }
      rewrite Hp.
      assert ((class =? 2)%Z = false) as -> by (apply Z.eqb_neq; exact Hclass).
      destruct (class =? 0)%Z, (class =? 1)%Z, (class =? 3)%Z; reflexivity. }
    split; [exact Hgen|].
    intros o s Hs Hst Htk Hrnd. unfold executeTick.
    rewrite Hs, Hst, Htk, Hrnd, Hgen. reflexivity.
Qed.

Lemma generateRandomEvent_throws_only_when_empty_witness :
  generateRandomEvent twoCountries 0 (mkDraws 0 (3 # 4) (1 # 2)) <> None
  /\ generateRandomEvent (mkWorldState 0 0 [] [] "RUNNING") 0
       (mkDraws 0 (3 # 4) (1 # 2)) = None.
Proof.
  split.
  - apply (proj1 (generateRandomEvent_throws_only_when_empty twoCountries 0
                    (mkDraws 0 (3 # 4) (1 # 2))
                    ltac:(discriminate) ltac:(reflexivity)
                    ltac:(discriminate) ltac:(reflexivity))).
    discriminate.
  - apply (proj2 (generateRandomEvent_throws_only_when_empty
                    (mkWorldState 0 0 [] [] "RUNNING") 0
                    (mkDraws 0 (3 # 4) (1 # 2))
                    ltac:(discriminate) ltac:(reflexivity)
                    ltac:(discriminate) ltac:(reflexivity)));
      [reflexivity|discriminate|discriminate].
Defined.

End RandomEventProperties.

(** ** collectDecisions: who acts *)

Section CollectProperties.
Import WorldState GeminiClient AgentManager Inv Laws Fixtures Samples.





End CollectProperties.

(** ** The tick loop *)

Section TickLoop.
Import WorldState Metrics RandomEvents AgentManager EventResolver Logger.
Import Simulator Inv TerminationSpec Laws Fixtures Samples.

Lemma step_addEvents (R : worldState -> worldState -> Prop)
  (es : list event) (ws : worldState) :
  stepwise R -> R ws (fold_left addEvent es ws).
Proof.
  intros K. revert ws. induction es as [|e es IH]; intros ws; simpl.
  - apply (step_refl R K).
  - eapply (step_trans R K); [apply (step_addEvent R K)|apply IH].
Qed.

Lemma step_handleSpecialActions (R : worldState -> worldState -> Prop)
  (ws : worldState) (d : decision) (r : resolution) :
  stepwise R -> R ws (handleSpecialActions ws d r).
Proof.
  intros K. unfold handleSpecialActions, updateAlliancesWith.
  destruct (_ && _).
  - destruct (target d);
      [apply (step_updateAlliances R K)|apply (step_refl R K)].
  - destruct (String.eqb _ _); [|apply (step_refl R K)].
    destruct (target d);
      [apply (step_updateAlliances R K)|apply (step_refl R K)].
Qed.

Lemma step_resolveActions (R : worldState -> worldState -> Prop)
  (cfgs : string -> lookup)
  (call : decision -> nat -> GeminiClient.callResult resolution)
  (ws : worldState) (ds : list decision) :
  stepwise R -> R ws (world (resolveActions cfgs call ws ds)).
Proof.
  intros K. unfold resolveActions.
  assert (Hgen : forall l acc,
             R (world acc) (world (fold_left (resolveOne cfgs call) l acc))).
  { induction l as [|d l IH]; intros acc; simpl; [apply (step_refl R K)|].
    eapply (step_trans R K); [|apply IH]. unfold resolveOne.
    destruct (cfgs (actorId d)) as [msg|[cfg|]]; simpl;
      try apply (step_refl R K).
    apply step_handleSpecialActions. exact K. }
  apply (Hgen _ (mkResolved [] [] [] ws)).
Qed.

(** The state stored by phases 2 to 10, as a function of the state they
    start from. *)
Lemma runPhases_stored (o : oracle) (s : simulator) (ws1 : worldState) :
  exists ws4,
    (forall R, stepwise R -> R ws1 ws4)
    /\ eventLogs (runPhases o s ws1)
       = logTick (eventLogs s) (tick ws4) (year ws4)
           (getOverseerAnalysis (clients s) (overseerCall o))
         ++ (if terminate (shouldTerminate (advance ws4) 1000)
             then [mkLog "SIMULATION_END" (tick ws4 + 1) (year ws4 + 1) None]
             else [])
    /\ stored (runPhases o s ws1)
       = (if terminate (shouldTerminate (advance ws4) 1000)
          then setStatus (advance ws4) "COMPLETED" else advance ws4)
    /\ clients (runPhases o s ws1) = clients s.
Proof.
  unfold runPhases.
  set (res := resolveActions _ _ ws1 _).
  set (ws4 := fold_left addEvent (events res)
                (applyTensionChanges (applyChanges (world res) (allChanges res))
                   (allTensionChanges res))).
  exists ws4. split.
  - intros R K. unfold ws4.
    set (wsA := world res).
    set (wsB := applyChanges wsA (allChanges res)).
    set (wsC := applyTensionChanges wsB (allTensionChanges res)).
    apply (step_trans R K ws1 wsC); [|apply (step_addEvents R _ wsC K)].
    apply (step_trans R K ws1 wsB); [|apply (step_applyTensionChanges R K)].
    apply (step_trans R K ws1 wsA); [|apply (step_applyChanges R K)].
    apply (step_resolveActions R _ _ _ _ K).
  - destruct (terminate (shouldTerminate (advance ws4) 1000)); simpl.
    + repeat split.
    + rewrite app_nil_r. repeat split.
Qed.

Lemma kept_stepwise (P : worldState -> Prop) :
  kept P -> stepwise (fun a b => P a -> P b).
Proof.
  intros K. constructor; auto.
  - apply (kept_applyChanges P K).
  - apply (kept_applyTensionChanges P K).
  - apply (kept_addEvent P K).
  - apply (kept_updateAlliances P K).
Qed.

Lemma sameFrame_updateAlliances (ws : worldState) (a b act : string) :
  sameFrame ws (updateAlliances ws a b act).
Proof.
  unfold updateAlliances.
  destruct (findCountry a (countries ws)) as [ca|]; [|apply sameFrame_refl].
  destruct (findCountry b (countries ws)) as [cb|]; [|apply sameFrame_refl].
  destruct (String.eqb act "FORM").
  - eapply sameFrame_trans; apply sameFrame_withCountry, addAlly_keepsId.
  - destruct (String.eqb act "BREAK"); [|apply sameFrame_refl].
    eapply sameFrame_trans; apply sameFrame_withCountry, dropAlly_keepsId.
Qed.

Lemma sameFrame_sameClock (ws ws' : worldState) :
  sameFrame ws ws' -> sameClock ws ws'.
Proof. intros (H1 & H2 & _ & H4 & H5). repeat split; assumption. Qed.

Lemma sameClock_stepwise : stepwise sameClock.
Proof.
  constructor.
  - intros ws. repeat split.
  - intros a b c (H1 & H2 & H3 & H4) (K1 & K2 & K3 & K4).
    repeat split; congruence.
  - intros ws ch. apply sameFrame_sameClock, sameFrame_applyChanges.
  - intros ws tc. apply sameFrame_sameClock, sameFrame_applyTensionChanges.
  - intros ws e. repeat split.
  - intros ws a b act. apply sameFrame_sameClock, sameFrame_updateAlliances.
Qed.



(** One tick, seen from outside: nothing happens, or the run fails, or the
    clock advances by one from a state with the same clock. *)
Lemma executeTick_cases (o : oracle) (s : simulator) :
  (status (stored s) <> "RUNNING" /\ executeTick o s = pause s)
  \/ (status (stored s) = "RUNNING" /\ executeTick o s = failTick s)
  \/ (status (stored s) = "RUNNING"
      /\ exists ws4,
           sameClock (stored s) ws4
           /\ (forall P, kept P -> P (stored s) -> P ws4)
           /\ eventLogs (executeTick o s)
              = logTick (eventLogs s) (tick ws4) (year ws4)
                  (getOverseerAnalysis (clients s) (overseerCall o))
                ++ (if terminate (shouldTerminate (advance ws4) 1000)
                    then [mkLog "SIMULATION_END" (tick ws4 + 1)
                            (year ws4 + 1) None]
                    else [])
           /\ stored (executeTick o s)
              = (if terminate (shouldTerminate (advance ws4) 1000)
                 then setStatus (advance ws4) "COMPLETED" else advance ws4)
           /\ clients (executeTick o s) = clients s).
Proof.
  unfold executeTick.
  destruct (String.eqb (status (stored s)) "RUNNING") eqn:E; simpl.
  2:{ left. apply String.eqb_neq in E. split; [exact E|reflexivity]. }
  apply String.eqb_eq in E. right.
  assert (Hrun : forall ws1,
             sameClock (stored s) ws1 ->
             (forall P, kept P -> P (stored s) -> P ws1) ->
             exists ws4,
               sameClock (stored s) ws4
               /\ (forall P, kept P -> P (stored s) -> P ws4)
               /\ eventLogs (runPhases o s ws1)
                  = logTick (eventLogs s) (tick ws4) (year ws4)
                      (getOverseerAnalysis (clients s) (overseerCall o))
                    ++ (if terminate (shouldTerminate (advance ws4) 1000)
                        then [mkLog "SIMULATION_END" (tick ws4 + 1)
                                (year ws4 + 1) None]
                        else [])
               /\ stored (runPhases o s ws1)
                  = (if terminate (shouldTerminate (advance ws4) 1000)
                     then setStatus (advance ws4) "COMPLETED" else advance ws4)
               /\ clients (runPhases o s ws1) = clients s).
  { intros ws1 Hc HP.
    destruct (runPhases_stored o s ws1) as (ws4 & H4 & Hl & Hs & Hcl).
    exists ws4. split; [|split; [|auto]].
    - eapply (step_trans _ sameClock_stepwise); [exact Hc|].
      apply H4, sameClock_stepwise.
    - intros P K H. apply (H4 _ (kept_stepwise P K)), HP; assumption. }
  destruct (generateRandomEvent _ _ _) as [[e|]|].
  - right. split; [exact E|]. apply Hrun.
    + eapply (step_trans _ sameClock_stepwise);
        [apply (step_addEvent _ sameClock_stepwise)
        |apply (step_applyChanges _ sameClock_stepwise)].
    + intros P K H. apply (kept_applyChanges P K), (kept_addEvent P K), H.
  - right. split; [exact E|]. apply Hrun.
    + apply (step_refl _ sameClock_stepwise).
    + intros P K H. exact H.
  - left. split; [exact E|reflexivity].
Qed.

End TickLoop.

Section TickLoopProperties.
Import WorldState Metrics RandomEvents AgentManager EventResolver Logger.
Import Simulator Report Inv TerminationSpec Laws Fixtures Samples CalmRun.

(** X22. A run that is not RUNNING stays as it is: whatever the outside
    answers, no sequence of ticks changes the stored world state or the
    event logs of a paused, completed or failed run. *)
Theorem ticks_after_the_end :
  forall (s : simulator) (os : list oracle),
    status (stored s) <> "RUNNING" ->
    stored (ticks os s) = stored s /\ eventLogs (ticks os s) = eventLogs s.
Proof.
  intros s os. revert s. induction os as [|o os IH]; intros s H; simpl.
  - split; reflexivity.
  - assert (He : executeTick o s = pause s).
    { unfold executeTick. apply String.eqb_neq in H. rewrite H. reflexivity. }
    rewrite He. apply (IH (pause s)). exact H.
Qed.

Lemma ticks_after_the_end_witness :
  stored (ticks [calmOracle; calmOracle] (complete calmStart))
  = stored (complete calmStart)
  /\ eventLogs (ticks [calmOracle; calmOracle] (complete calmStart))
     = eventLogs (complete calmStart).
Proof.
  apply (ticks_after_the_end (complete calmStart) [calmOracle; calmOracle]).
  discriminate.
Defined.

Lemma not_running_yet (ws : worldState) :
  terminate (shouldTerminate ws 1000) = false -> (year ws < 1000)%Z.
Proof.
  unfold shouldTerminate. destruct (1000 <=? year ws)%Z eqn:E.
  - discriminate.
  - intros _. apply Z.leb_gt in E. exact E.
Qed.

(** X23. The clock of a run driven by [executeTick]: in every state the
    tick loop reaches, year and tick are equal, the year is between 0 and
    1000 and below 1000 while the run is RUNNING, the status is RUNNING,
    COMPLETED or FAILED, and the countries are those the run was created
    with, by id and order. *)
Theorem tick_loop_clock :
  forall (ags : list agentConfig) (cs : list country) (s : simulator),
    reachable ags cs s ->
    year (stored s) = tick (stored s)
    /\ (0 <= year (stored s) <= 1000)%Z
    /\ (status (stored s) = "RUNNING" -> (year (stored s) < 1000)%Z)
    /\ In (status (stored s)) ["RUNNING"; "COMPLETED"; "FAILED"]
    /\ List.map cid (countries (stored s)) = List.map cid cs.
Proof.
  intros ags cs s H. induction H as [|o s Hs IH].
  - simpl. repeat split; try lia. left. reflexivity.
  - destruct IH as (Hyt & Hy & Hrun & Hst & Hids).
    destruct (executeTick_cases o s)
      as [[Hn ->]|[[Hr ->]|(Hr & ws4 & Hc & _ & _ & -> & _)]].
    + simpl. split; [exact Hyt|]. split; [exact Hy|].
      split; [exact Hrun|]. split; [exact Hst|exact Hids].
    + simpl. split; [exact Hyt|]. split; [exact Hy|].
      split; [discriminate|]. split; [|exact Hids].
      right. right. left. reflexivity.
    + destruct Hc as (Ht & Hyr & Hs4 & Hi).
      specialize (Hrun Hr).
      destruct (terminate (shouldTerminate (advance ws4) 1000)) eqn:E; simpl.
      * split; [lia|]. split; [lia|]. split; [discriminate|].
        split; [|congruence]. right. left. reflexivity.
      * apply not_running_yet in E. simpl in E.
        split; [lia|]. split; [lia|]. split; [intros _; exact E|].
        split; [|congruence]. rewrite Hs4, Hr. left. reflexivity.
Qed.

Lemma tick_loop_clock_witness :
  year (stored calmRun) = tick (stored calmRun)
  /\ (0 <= year (stored calmRun) <= 1000)%Z
  /\ (status (stored calmRun) = "RUNNING" -> (year (stored calmRun) < 1000)%Z)
  /\ In (status (stored calmRun)) ["RUNNING"; "COMPLETED"; "FAILED"]
  /\ List.map cid (countries (stored calmRun)) = List.map cid [countryA; countryB].
Proof.
  apply (tick_loop_clock agents [countryA; countryB] calmRun).
  apply ticks_reachable. constructor.
Defined.

Lemma filter_none {A : Type} (f : A -> bool) (l : list A) :
  Forall (fun x => f x = false) l -> List.filter f l = [].
Proof.
  intros H. induction H as [|x l Hx _ IH]; simpl; [reflexivity|].
  rewrite Hx. exact IH.
Qed.

Lemma tick_loop_logs_inv (ags : list agentConfig) (cs : list country)
  (s : simulator) :
  reachable ags cs s ->
  Z.of_nat (length (logged "TICK_SUMMARY" s)) = tick (stored s)
  /\ List.map ltick (logged "TICK_SUMMARY" s)
     = List.map Z.of_nat (seq 0 (length (logged "TICK_SUMMARY" s)))
  /\ length (logged "SIMULATION_END" s)
     = (if String.eqb (status (stored s)) "COMPLETED" then 1%nat else 0%nat)
  /\ Forall (fun l => eventType l = "TICK_SUMMARY"
                      \/ eventType l = "SIMULATION_END") (eventLogs s).
Proof.
  intros H. induction H as [|o s Hs IH].
  - simpl. repeat split. constructor.
  - destruct IH as (Hcount & Hticks & Hend & Hkinds).
    destruct (executeTick_cases o s)
      as [[Hn ->]|[[Hr ->]|(Hr & ws4 & Hc & _ & Hlogs & Hst & _)]].
    + split; [exact Hcount|]. split; [exact Hticks|].
      split; [exact Hend|exact Hkinds].
    + split; [exact Hcount|]. split; [exact Hticks|]. split; [|exact Hkinds].
      unfold logged in *. simpl. rewrite Hr in Hend. exact Hend.
    + destruct Hc as (Ht & Hyr & Hs4 & Hi).
      rewrite Hr in Hend. simpl in Hend.
      unfold logged in *. rewrite Hlogs, Hst. unfold logTick.
      set (sum := mkLog "TICK_SUMMARY" (tick ws4) (year ws4) _).
      set (fin := mkLog "SIMULATION_END" (tick ws4 + 1) (year ws4 + 1) None).
      set (n := length (List.filter
                          (fun l => String.eqb (eventType l) "TICK_SUMMARY")
                          (eventLogs s))) in *.
      assert (Hsum : List.filter
                       (fun l => String.eqb (eventType l) "TICK_SUMMARY")
                       ((eventLogs s ++ [sum])
                        ++ (if terminate (shouldTerminate (advance ws4) 1000)
                            then [fin] else []))
                     = List.filter
                         (fun l => String.eqb (eventType l) "TICK_SUMMARY")
                         (eventLogs s) ++ [sum]).
      { rewrite !List.filter_app.
        destruct (terminate _); simpl; rewrite app_nil_r; reflexivity. }
      assert (Hfin : length (List.filter
                       (fun l => String.eqb (eventType l) "SIMULATION_END")
                       ((eventLogs s ++ [sum])
                        ++ (if terminate (shouldTerminate (advance ws4) 1000)
                            then [fin] else [])))
                     = if terminate (shouldTerminate (advance ws4) 1000)
                       then 1%nat else 0%nat).
      { rewrite !List.filter_app, !length_app, Hend.
        destruct (terminate _); reflexivity. }
      rewrite Hsum, Hfin, length_app, List.map_app. simpl length. fold n.
      split; [|split; [|split]].
      * destruct (terminate _); simpl; lia.
      * rewrite Nat.add_1_r, seq_S, List.map_app, Hticks. simpl.
        rewrite Hcount, Ht. reflexivity.
      * destruct (terminate _); simpl; [reflexivity|].
        rewrite Hs4, Hr. reflexivity.
      * apply Forall_app. split.
        -- apply Forall_app. split; [exact Hkinds|].
           constructor; [left; reflexivity|constructor].
        -- destruct (terminate _); [|constructor].
           constructor; [right; reflexivity|constructor].
Qed.

(** X24. The event log of a run driven by [executeTick]: in every state the
    tick loop reaches there is one TICK_SUMMARY entry per tick executed,
    numbered 0, 1, 2, ... in order, there is one SIMULATION_END entry when
    the run is COMPLETED and none otherwise, and there is no entry of
    another kind; so the list of major events of the report (WAR, COLLAPSE,
    ALLIANCE, REBELLION, INNOVATION) is always empty. *)
Theorem tick_loop_logs :
  forall (ags : list agentConfig) (cs : list country) (s : simulator),
    reachable ags cs s ->
    Z.of_nat (length (logged "TICK_SUMMARY" s)) = tick (stored s)
    /\ List.map ltick (logged "TICK_SUMMARY" s)
       = List.map Z.of_nat (seq 0 (length (logged "TICK_SUMMARY" s)))
    /\ length (logged "SIMULATION_END" s)
       = (if String.eqb (status (stored s)) "COMPLETED" then 1%nat else 0%nat)
    /\ Forall (fun l => eventType l = "TICK_SUMMARY"
                        \/ eventType l = "SIMULATION_END") (eventLogs s)
    /\ majorEvents (eventLogs s) = [].
Proof.
  intros ags cs s H.
  destruct (tick_loop_logs_inv ags cs s H) as (H1 & H2 & H3 & H4).
  split; [exact H1|]. split; [exact H2|]. split; [exact H3|].
  split; [exact H4|].
  unfold majorEvents. apply filter_none.
  eapply Forall_impl; [exact H4|].
  intros l [Hl|Hl]; simpl in *; rewrite Hl; reflexivity.
Qed.

Lemma tick_loop_logs_witness :
  Z.of_nat (length (logged "TICK_SUMMARY" calmRun)) = tick (stored calmRun)
  /\ majorEvents (eventLogs calmRun) = [].
Proof.
  destruct (tick_loop_logs agents [countryA; countryB] calmRun
              (ticks_reachable _ _ _ _ (reach_created _ _)))
    as (H1 & _ & _ & _ & H5).
  split; [exact H1|exact H5].
Defined.







End TickLoopProperties.

(** ** calculateStabilityIndex *)

Section StabilityIndexProperties.
Import Models WorldState StabilityIndex Inv Laws Fixtures Samples.

Lemma count_cons {A : Type} (x : A) (l : list A) :
  (count (x :: l) == 1 + count l)%Q.
Proof.
  unfold count. simpl length. rewrite Nat2Z.inj_succ, <- Z.add_1_l.
  rewrite inject_Z_plus. reflexivity.
Qed.

Lemma count_nonneg {A : Type} (l : list A) : (0 <= count l)%Q.
Proof.
  unfold count. change 0%Q with (inject_Z 0). rewrite <- Zle_Qle. lia.
Qed.

Lemma count_pos {A : Type} (l : list A) : l <> [] -> (0 < count l)%Q.
Proof.
  intros H. unfold count. change 0%Q with (inject_Z 0). rewrite <- Zlt_Qlt.
  destruct l; [contradiction|simpl; lia].
Qed.

Lemma count_le {A B : Type} (l : list A) (l' : list B) :
  (length l <= length l')%nat -> (count l <= count l')%Q.
Proof. intros H. unfold count. rewrite <- Zle_Qle. lia. Qed.

Lemma fold_bounds {A : Type} (f : A -> Q) (lo hi : Q) (l : list A) (a : Q) :
  Forall (fun x => (lo <= f x <= hi)%Q) l ->
  (a + lo * count l <= fold_left (fun sum x => sum + f x) l a
   <= a + hi * count l)%Q.
Proof.
  intros H. revert a. induction H as [|x l [Hlo Hhi] _ IH]; intros a; simpl.
  - unfold count. simpl. split; ring_simplify; apply Qle_refl.
  - destruct (IH (a + f x)%Q) as [IH1 IH2]. rewrite count_cons. split.
    + eapply Qle_trans; [|exact IH1]. lra.
    + eapply Qle_trans; [exact IH2|]. lra.
Qed.

Lemma total_bounds {A : Type} (f : A -> Q) (lo hi : Q) (l : list A) :
  Forall (fun x => (lo <= f x <= hi)%Q) l ->
  (lo * count l <= total f l <= hi * count l)%Q.
Proof.
  intros H. destruct (fold_bounds f lo hi l 0 H) as [H1 H2].
  unfold total. split; lra.
Qed.

Lemma fold_nonneg {A : Type} (f : A -> Q) (l : list A) (a : Q) :
  (forall x, 0 <= f x)%Q -> (0 <= a)%Q ->
  (0 <= fold_left (fun sum x => sum + f x) l a)%Q.
Proof.
  intros Hf. revert a. induction l as [|x l IH]; intros a Ha; simpl.
  - exact Ha.
  - apply IH. specialize (Hf x). lra.
Qed.

Lemma mean_bounds {A : Type} (f : A -> Q) (lo hi : Q) (l : list A) :
  l <> [] -> Forall (fun x => (lo <= f x <= hi)%Q) l ->
  (lo <= total f l / count l <= hi)%Q.
Proof.
  intros Hne H. destruct (total_bounds f lo hi l H) as [H1 H2].
  pose proof (count_pos l Hne) as Hpos. split.
  - apply Qle_shift_div_l; assumption.
  - apply Qle_shift_div_r; assumption.
Qed.

Lemma share_bounds {A B : Type} (part : list A) (whole : list B) :
  whole <> [] -> (length part <= length whole)%nat ->
  (0 <= count part / count whole * 100 <= 100)%Q.
Proof.
  intros Hne Hle. pose proof (count_pos whole Hne) as Hpos.
  pose proof (count_nonneg part) as H0. pose proof (count_le _ _ Hle) as H1.
  assert (Hq : (0 <= count part / count whole <= 1)%Q).
  { split.
    - apply Qle_shift_div_l; [exact Hpos|]. lra.
    - apply Qle_shift_div_r; [exact Hpos|]. lra. }
  split; lra.
Qed.

Lemma round_range (x : Q) :
  (0 <= x <= 100)%Q -> (0 <= round x <= 100)%Z.
Proof.
  intros [H0 H1]. unfold round. split.
  - change 0%Z with (Qfloor 0). apply Qfloor_resp_le. lra.
  - change 100%Z with (Qfloor (100 + (1 # 2))). apply Qfloor_resp_le. lra.
Qed.

Lemma nodup_shorter (l : list string) :
  (length (nodup String.string_dec l) <= length l)%nat.
Proof.
  induction l as [|x l IH]; simpl; [lia|].
  destruct (in_dec String.string_dec x l); simpl; lia.
Qed.

Lemma clampValue_percent (v : Q) : (0 <= clampValue v 0 100 <= 100)%Q.
Proof.
  split; [apply clampValue_lower|apply clampValue_upper; discriminate].
Qed.

Lemma normalizedPowerVariance_range (cs : list country) :
  cs <> [] -> (0 <= normalizedPowerVariance cs <= 100)%Q.
Proof.
  intros Hne. unfold normalizedPowerVariance. split; [|apply Q.le_min_l].
  apply Q.min_glb; [discriminate|].
  assert (Hv : (0 <= powerVariance cs)%Q).
  { unfold powerVariance. apply Qle_shift_div_l; [apply count_pos, Hne|].
    rewrite Qmult_0_l. unfold total. apply fold_nonneg; [|apply Qle_refl].
    intros c. apply Qsqr_nonneg. }
  assert (Hd : (0 <= powerVariance cs / 400)%Q).
  { apply Qle_shift_div_l; [reflexivity|]. lra. }
  lra.
Qed.

(** X26. [calculateStabilityIndex] returns percentages: for every world
    state the stability index, the ideological diversity, the conflict
    level, the survival rate and the power imbalance are integers between 0
    and 100, and so is the average stability when the stabilities are in
    range; a world without countries gets 0 for the first four and no
    average stability and no power imbalance. *)
Theorem calculateStabilityIndex_percentages :
  forall (ws : worldState),
    (0 <= stabilityIndex (calculateStabilityIndex ws) <= 100)%Z
    /\ (0 <= ideologicalDiversity (calculateStabilityIndex ws) <= 100)%Z
    /\ (0 <= conflictLevel (calculateStabilityIndex ws) <= 100)%Z
    /\ (0 <= survivalRate (calculateStabilityIndex ws) <= 100)%Z
    /\ (forall v, powerImbalance (calculateStabilityIndex ws) = Some v ->
                  (0 <= v <= 100)%Z)
    /\ (Forall (fun c => (0 <= stability c <= 100)%Q) (countries ws) ->
        forall v, avgStability (calculateStabilityIndex ws) = Some v ->
                  (0 <= v <= 100)%Z)
    /\ (countries ws = [] ->
        calculateStabilityIndex ws = mkMetrics 0 0 0 0 None None).
Proof.
  intros ws. unfold calculateStabilityIndex.
  destruct (countries ws) as [|c rest] eqn:E.
  - simpl. repeat split; try lia; discriminate.
  - set (cs := c :: rest).
    assert (Hne : cs <> []) by discriminate.
    simpl.
    split; [apply round_range, clampValue_percent|].
    split.
    { apply round_range. unfold ideologicalDiversityOf.
      change (inject_Z (Z.of_nat (uniqueIdeologies cs)))
        with (count (nodup String.string_dec (List.map ideology cs))).
      apply share_bounds; [exact Hne|].
      eapply Nat.le_trans; [apply nodup_shorter|].
      rewrite length_map. apply Nat.le_refl. }
    split; [apply round_range, clampValue_percent|].
    split.
    { apply round_range. unfold survivalRateOf.
      apply share_bounds; [exact Hne|apply List.filter_length_le]. }
    split.
    { intros v [= <-]. apply round_range, normalizedPowerVariance_range, Hne. }
    split; [|discriminate].
    intros Hall v [= <-]. apply round_range. unfold avgStabilityOf.
    rewrite <- (Qmult_0_l (count cs)) at 1.
    destruct (mean_bounds stability 0 100 cs Hne Hall) as [H1 H2].
    split; [|exact H2].
    eapply Qle_trans; [|exact H1]. rewrite Qmult_0_l. apply Qle_refl.
Qed.

Lemma calculateStabilityIndex_percentages_witness :
  (exists v,
      avgStability (calculateStabilityIndex twoCountries) = Some v
      /\ (0 <= v <= 100)%Z)
  /\ calculateStabilityIndex (mkWorldState 0 0 [] [] "RUNNING")
     = mkMetrics 0 0 0 0 None None.
Proof.
  split.
  - exists 80%Z. split; [vm_compute; reflexivity|].
    apply (proj1 (proj2 (proj2 (proj2 (proj2 (proj2
             (calculateStabilityIndex_percentages twoCountries))))))).
    + repeat constructor; discriminate.
    + vm_compute. reflexivity.
  - apply (proj2 (proj2 (proj2 (proj2 (proj2 (proj2
             (calculateStabilityIndex_percentages
                (mkWorldState 0 0 [] [] "RUNNING")))))))).
    reflexivity.
Defined.

(** The metrics of the two-country fixture. *)
Example calculateStabilityIndex_twoCountries :
  calculateStabilityIndex twoCountries
  = mkMetrics 92 100 0 100 (Some 80%Z) (Some 0%Z).
Proof. vm_compute. reflexivity. Qed.

End StabilityIndexProperties.

(** ** clampValue and the priority sort once more *)

Section ClampAndSort.
Import Models WorldState AgentManager EventResolver Inv Laws Fixtures Samples.

(** X27. [clampValue] with bounds in order returns a value within the
    bounds, returns a value that already lies within them unchanged, is
    idempotent and monotone; with inverted bounds it returns the lower
    bound argument. *)
Theorem clampValue_laws :
  forall (v lo hi : Q),
    ((lo <= hi)%Q ->
     (lo <= clampValue v lo hi <= hi)%Q
     /\ (clampValue (clampValue v lo hi) lo hi == clampValue v lo hi)%Q)
    /\ ((lo <= v)%Q -> (v <= hi)%Q -> (clampValue v lo hi == v)%Q)
    /\ (forall w, (v <= w)%Q -> (clampValue v lo hi <= clampValue w lo hi)%Q)
    /\ ((hi < lo)%Q -> (clampValue v lo hi == lo)%Q).
Proof.
  intros v lo hi. split; [|split; [|split]].
  - intros H.
    assert (Hr : (lo <= clampValue v lo hi <= hi)%Q).
    { split; [apply clampValue_lower|apply clampValue_upper, H]. }
    split; [exact Hr|]. apply clampValue_inside; apply Hr.
  - apply clampValue_inside.
  - intros w Hw. unfold clampValue.
    apply Q.max_le_compat_l, Q.min_le_compat_l. exact Hw.
  - intros H. unfold clampValue. apply Q.max_l.
    eapply Qle_trans; [apply Q.le_min_l|]. apply Qlt_le_weak. exact H.
Qed.

Lemma clampValue_laws_witness :
  (clampValue 150 0 100 <= clampValue 200 0 100)%Q
  /\ (clampValue 50 100 0 == 100)%Q.
Proof.
  split.
  - apply (proj1 (proj2 (proj2 (clampValue_laws 150 0 100))) 200%Q).
    discriminate.
  - apply (proj2 (proj2 (proj2 (clampValue_laws 50 100 0)))). reflexivity.
Defined.

Lemma sortBy_fixed {A : Type} (rank : A -> Z) (l : list A) :
  StronglySorted (fun a b => (rank a <= rank b)%Z) l ->
  sortBy (fun a b => (rank a - rank b)%Z) l = l.
Proof.
  intros H. induction H as [|x l Hl IH Hx]; simpl; [reflexivity|].
  rewrite IH. destruct l as [|y l]; [reflexivity|]. simpl.
  inversion Hx as [|? ? Hxy _]; subst.
  assert ((rank x - rank y <=? 0)%Z = true) as -> by (apply Z.leb_le; lia).
  reflexivity.
Qed.

(** X28. On decisions none of whose actions is an inherited name,
    [prioritizeActions] leaves a list that is already in the order of the
    ranks as it is, so sorting twice is sorting once. *)
Theorem prioritizeActions_idempotent :
  forall (ds : list decision),
    plainActions ds ->
    prioritizeActions (prioritizeActions ds) = prioritizeActions ds
    /\ (StronglySorted (fun a b => (rank a <= rank b)%Z) ds ->
        prioritizeActions ds = ds).
Proof.
  intros ds H.
  assert (H' : plainActions (prioritizeActions ds)).
  { unfold plainActions in *. eapply Permutation_Forall; [|exact H].
    apply prioritizeActions_permutation. }
  split.
  - rewrite (prioritizeActions_plain _ H').
    apply (sortBy_fixed rank).
    rewrite (prioritizeActions_plain _ H).
    apply (sortBy_sorted decision rank).
  - intros Hs. rewrite (prioritizeActions_plain _ H).
    apply (sortBy_fixed rank). exact Hs.
Qed.

Lemma prioritizeActions_idempotent_witness :
  prioritizeActions (prioritizeActions [dInternal; dMilitary; dDiplomacy])
  = prioritizeActions [dInternal; dMilitary; dDiplomacy].
Proof.
  apply (proj1 (prioritizeActions_idempotent [dInternal; dMilitary; dDiplomacy]
                  ltac:(repeat constructor))).
Defined.

End ClampAndSort.
